(** * Aegisub (Toshi-ban) libassmod subtitle provider: a shallow embedding

    The definitions below follow [src/subtitles_provider_libassmod.cpp]:
    the frame compositor of [DrawSubtitles], the path helpers
    ([trim_copy], [strip_matching_quotes], ...), the image-tag extractor
    ([collect_img_paths_from_span], [collect_img_paths]) and the provider
    state touched by [LoadSubtitles], [PrepareSubtitles],
    [RegisterTagImages] and [Reinitialize], and the loader of the shared
    library ([LoadLibassModApi], [EnsureLibassMod]).

    Conventions.  An [unsigned char] is a [Z] in [0, 255]; [unsigned int]
    arithmetic is written with its 32-bit wrap-around [u32]; the store into
    an [unsigned char] channel is [u8].  A [std::string] is a [list ascii].
    A [std::vector<unsigned char>] frame buffer is a [list Z] read with
    [!!!] and updated with [<[_:=_]>]; the C++ code has undefined behaviour
    out of range, the theorems therefore carry the in-bounds conditions.
    An [int] is a [Z]; where the [int] arithmetic of the source can
    overflow, the theorems carry the range condition ([int_sized]).
    [std::unordered_map] and [std::unordered_set] are [gmap] and [gset].
    wxWidgets, the file system, the rendering engine and the dynamic
    linker are parameters ([WxEnv], [FileSystem], [EngineEnv], [DynEnv]).

    The file has two parts: the embedding (modules [Compositor], [Text],
    [Extractor], [Provider], [Loader]), then the theorems about it. *)

From Stdlib Require Import ZArith Lia List Ascii String.
From stdpp Require Import base list gmap strings.

(** ** Frame compositor (DrawSubtitles, lines 897-964) *)

Module Compositor.

(** [unsigned int] arithmetic wraps modulo 2^32. *)
Definition u32 (z : Z) : Z := (z mod 2 ^ 32)%Z.

(** Conversion to [unsigned char] keeps the low eight bits. *)
Definition u8 (z : Z) : Z := (z mod 256)%Z.

Definition is_u8 (z : Z) : Prop := (0 <= z <= 255)%Z.

(** A four-channel gil pixel; [operator[]] indexes the channels in memory
    order, so for [bgra8_pixel_t] the channels are B, G, R, A and for
    [rgba8_pixel_t] they are R, G, B, A. *)
Record pixel := Pixel { ch0 : Z; ch1 : Z; ch2 : Z; ch3 : Z }.

Definition read_pixel (buf : list Z) (off : nat) : pixel :=
  Pixel (buf !!! off) (buf !!! (off + 1)) (buf !!! (off + 2)) (buf !!! (off + 3)).

Definition write_pixel (buf : list Z) (off : nat) (p : pixel) : list Z :=
  <[off + 3 := ch3 p]> (<[off + 2 := ch2 p]> (<[off + 1 := ch1 p]> (<[off := ch0 p]> buf))).

(** [VideoFrame]: 4 bytes per pixel, rows of [width * 4] bytes. *)
Record VideoFrame := mkFrame {
  data : list Z;
  width : nat;
  height : nat;
  flipped : bool
}.

(** [ASS_ImageRGBA] (one list node; [next] is the list structure).  The
    C fields [w], [h], [stride], [dst_x], [dst_y] are [int]s that the
    engine keeps non-negative and clipped to the frame; they are naturals
    here. *)
Record ASS_ImageRGBA := mkImageRGBA {
  rgba_w : nat;
  rgba_h : nat;
  rgba_stride : nat;
  rgba : list Z;
  rgba_dst_x : nat;
  rgba_dst_y : nat
}.

(** [ASS_Image] of [ass/ass.h], with the fields [DrawSubtitles] reads: an
    8-bit coverage bitmap and a packed [uint32_t] colour. *)
Record ASS_Image := mkImage {
  w : nat;
  h : nat;
  stride : nat;
  bitmap : list Z;
  color : Z;
  dst_x : nat;
  dst_y : nat
}.

Record ASS_RenderResult := mkRenderResult {
  imgs : list ASS_Image;
  imgs_rgba : list ASS_ImageRGBA;
  use_rgba : bool
}.

(** The macros [_r], [_g], [_b], [_a] on a [uint32_t] colour. *)
Definition _r (c : Z) : Z := Z.shiftr c 24.
Definition _g (c : Z) : Z := Z.land (Z.shiftr c 16) 255.
Definition _b (c : Z) : Z := Z.land (Z.shiftr c 8) 255.
Definition _a (c : Z) : Z := Z.land c 255.

(** [interleaved_view(width, height, data, width * 4)], optionally under
    [flipped_up_down_view]: byte offset of pixel [(x, y)] of [dst]. *)
Definition dst_row (fr : VideoFrame) (y : nat) : nat :=
  if flipped fr then height fr - 1 - y else y.

Definition dst_offset (fr : VideoFrame) (x y : nat) : nat :=
  dst_row fr y * (width fr * 4) + x * 4.

(** One application of the pixel functor at one destination pixel. *)
Definition blend_at {S : Type} (f : pixel -> S -> pixel)
    (buf : list Z) (c : nat * S) : list Z :=
  write_pixel buf (fst c) (f (read_pixel buf (fst c)) (snd c)).

(** [transform_pixels(dstview, srcview, dstview, f)] where [dstview] is
    [subimage_view(dst, x0, y0, w, h)]: rows top to bottom, pixels left to
    right, destination read and written in place. *)
Definition transform_pixels {S : Type} (fr : VideoFrame) (x0 y0 w h : nat)
    (src : nat -> nat -> S) (f : pixel -> S -> pixel) (buf : list Z) : list Z :=
  foldl (fun buf y =>
    foldl (fun buf x => blend_at f buf (dst_offset fr (x0 + x) (y0 + y), src x y))
          buf (seq 0 w))
    buf (seq 0 h).

(** The pixels of the tile in the order [transform_pixels] visits them. *)
Definition tile_coords (w h : nat) : list (nat * nat) :=
  seq 0 h ≫= (fun y => (fun x => (x, y)) <$> seq 0 w).

Definition pixel_u8 (p : pixel) : Prop :=
  is_u8 (ch0 p) /\ is_u8 (ch1 p) /\ is_u8 (ch2 p) /\ is_u8 (ch3 p).

(** A premultiplied RGBA pixel: no colour channel exceeds alpha. *)
Definition premultiplied (p : pixel) : Prop :=
  (ch0 p <= ch3 p)%Z /\ (ch1 p <= ch3 p)%Z /\ (ch2 p <= ch3 p)%Z.

(** The tile lies inside the frame, and the buffer has the frame's size. *)
Definition tile_in_frame (fr : VideoFrame) (buf : list Z) (x0 y0 w h : nat) : Prop :=
  length buf = width fr * height fr * 4 /\ x0 + w <= width fr /\ y0 + h <= height fr.

(** The lambda of the premultiplied-RGBA branch (lines 925-935). *)
Definition blend_rgba (frame_px src_px : pixel) : pixel :=
  let alpha := ch3 src_px in
  let inv_alpha := u32 (255 - alpha) in
  Pixel (u8 (u32 (ch2 src_px + u32 (ch0 frame_px * inv_alpha) / 255)))
        (u8 (u32 (ch1 src_px + u32 (ch1 frame_px * inv_alpha) / 255)))
        (u8 (u32 (ch0 src_px + u32 (ch2 frame_px * inv_alpha) / 255)))
        0.

(** The lambda of the alpha-mask branch (lines 948-958), closed over
    [opacity], [r], [g], [b]. *)
Definition blend_mask (opacity r g b : Z) (frame_px : pixel) (src_px : Z) : pixel :=
  let k := (u32 (src_px * opacity) / 255)%Z in
  let ck := u32 (255 - k) in
  Pixel (u8 (u32 (u32 (k * b) + u32 (ck * ch0 frame_px)) / 255))
        (u8 (u32 (u32 (k * g) + u32 (ck * ch1 frame_px)) / 255))
        (u8 (u32 (u32 (k * r) + u32 (ck * ch2 frame_px)) / 255))
        0.

(** Source views: [interleaved_view(w, h, (rgba8_pixel_t* )rgba, stride)]
    and [interleaved_view(w, h, (gray8_pixel_t* )bitmap, stride)]. *)
Definition src_rgba (img : ASS_ImageRGBA) (x y : nat) : pixel :=
  read_pixel (rgba img) (y * rgba_stride img + x * 4).

Definition src_gray (img : ASS_Image) (x y : nat) : Z :=
  bitmap img !!! (y * stride img + x).

(** Body of the loop over [imgs_rgba] (lines 921-936). *)
Definition blend_image_rgba (fr : VideoFrame) (buf : list Z) (img : ASS_ImageRGBA) : list Z :=
  transform_pixels fr (rgba_dst_x img) (rgba_dst_y img) (rgba_w img) (rgba_h img)
    (src_rgba img) blend_rgba buf.

(** Body of the loop over [imgs] (lines 939-959). *)
Definition blend_image_mask (fr : VideoFrame) (buf : list Z) (img : ASS_Image) : list Z :=
  let opacity := u32 (255 - _a (color img)) in
  let r := _r (color img) in
  let g := _g (color img) in
  let b := _b (color img) in
  transform_pixels fr (dst_x img) (dst_y img) (w img) (h img)
    (src_gray img) (blend_mask opacity r g b) buf.

(** [DrawSubtitles] from the render result on.  [have_renderer] and
    [have_track] stand for the null tests of line 899; the render result is
    what the engine returned for this frame. *)
Definition DrawSubtitles (have_renderer have_track : bool)
    (render_result : ASS_RenderResult) (frame : VideoFrame) : VideoFrame :=
  if negb have_renderer || negb have_track then frame
  else
    let buf :=
      if use_rgba render_result && negb (bool_decide (imgs_rgba render_result = []))
      then foldl (blend_image_rgba frame) (data frame) (imgs_rgba render_result)
      else foldl (blend_image_mask frame) (data frame) (imgs render_result) in
    mkFrame buf (width frame) (height frame) (flipped frame).

(** The destination rectangles [(dst_x, dst_y, w, h)] of the list that
    [DrawSubtitles] blends; line 920 chooses the list. *)
Definition drawn_tiles (render_result : ASS_RenderResult) : list (nat * nat * nat * nat) :=
  if use_rgba render_result && negb (bool_decide (imgs_rgba render_result = []))
  then (fun img => (rgba_dst_x img, rgba_dst_y img, rgba_w img, rgba_h img))
         <$> imgs_rgba render_result
  else (fun img => (dst_x img, dst_y img, w img, h img)) <$> imgs render_result.

(** Byte [i] of the frame buffer belongs to a pixel of the rectangle. *)
Definition byte_in_tile (fr : VideoFrame) (i : nat) (t : nat * nat * nat * nat) : Prop :=
  exists x y, x < t.1.2 /\ y < t.2
    /\ dst_offset fr (t.1.1.1 + x) (t.1.1.2 + y) <= i
       < dst_offset fr (t.1.1.1 + x) (t.1.1.2 + y) + 4.

(** Two rectangles without a common pixel. *)
Definition tiles_apart (x0 y0 w h x0' y0' w' h' : nat) : Prop :=
  x0 + w <= x0' \/ x0' + w' <= x0 \/ y0 + h <= y0' \/ y0' + h' <= y0.

(** Every rectangle of the list lies inside the frame. *)
Definition tiles_in_frame (fr : VideoFrame) (tiles : list (nat * nat * nat * nat)) : Prop :=
  Forall (fun t => t.1.1.1 + t.1.2 <= width fr /\ t.1.1.2 + t.2 <= height fr) tiles.

End Compositor.

(** ** Path and text helpers (lines 300-430) *)

Module Text.

(** Literals: a Rocq string as the [std::string] it denotes. *)
Definition chars (s : string) : list ascii := list_ascii_of_string s.

Definition dquote : ascii := ascii_of_nat 34.
Definition squote : ascii := ascii_of_nat 39.
Definition backslash : ascii := ascii_of_nat 92.
Definition slash : ascii := ascii_of_nat 47.
Definition newline : ascii := ascii_of_nat 10.
Definition carriage_return : ascii := ascii_of_nat 13.
Definition tab : ascii := ascii_of_nat 9.
Definition space : ascii := ascii_of_nat 32.

Definition ascii_eqb (a b : ascii) : bool := Ascii.eqb a b.

(** [std::string::empty] and its like. *)
Definition is_nil {A} (l : list A) : bool :=
  match l with [] => true | _ => false end.

(** [std::isspace] in the "C" locale: space, and the controls 9 to 13. *)
Definition isspace (c : ascii) : bool :=
  let n := N_of_ascii c in
  (n =? 32)%N || ((9 <=? n)%N && (n <=? 13)%N).

(** The test [data[j] == ' ' || data[j] == '\t'] of the scanners. *)
Definition is_blank (c : ascii) : bool :=
  ascii_eqb c space || ascii_eqb c tab.

(** [find_if(..., not_space)] from the front: drop the longest prefix of
    characters satisfying [p]. *)
Fixpoint skip_while (p : ascii -> bool) (s : list ascii) : list ascii :=
  match s with
  | [] => []
  | c :: t => if p c then skip_while p t else s
  end.

(** The longest prefix of characters satisfying [p]. *)
Fixpoint take_while (p : ascii -> bool) (s : list ascii) : list ascii :=
  match s with
  | [] => []
  | c :: t => if p c then c :: take_while p t else []
  end.

(** Trailing counterpart of [skip_while]: [find_if] over [rbegin, rend). *)
Definition skip_while_back (p : ascii -> bool) (s : list ascii) : list ascii :=
  rev (skip_while p (rev s)).

(** [trim_copy] (lines 300-307). *)
Definition trim_copy (str : list ascii) : list ascii :=
  match skip_while isspace str with
  | [] => []
  | t => skip_while_back isspace t
  end.

(** The lambda of [to_lower_copy], which is also [img_ascii_tolower]. *)
Definition img_ascii_tolower (c : ascii) : ascii :=
  let n := N_of_ascii c in
  if (65 <=? n)%N && (n <=? 90)%N then ascii_of_N (n - 65 + 97) else c.

Definition to_lower_copy (str : list ascii) : list ascii :=
  map img_ascii_tolower str.

(** [std::string::find_last_of(set)]: the last index holding a character
    of [set], [None] for [npos]. *)
Fixpoint find_last_of_from (i : nat) (set s : list ascii) (found : option nat) : option nat :=
  match s with
  | [] => found
  | c :: t =>
      find_last_of_from (S i) set t (if existsb (ascii_eqb c) set then Some i else found)
  end.

Definition find_last_of (s set : list ascii) : option nat :=
  find_last_of_from 0 set s None.

(** [path_basename] (lines 318-323). *)
Definition path_basename (path : list ascii) : list ascii :=
  match find_last_of path [slash; backslash] with
  | None => path
  | Some cut => drop (cut + 1) path
  end.

(** Membership in the separator set of [path_basename]. *)
Definition is_sep (c : ascii) : bool := existsb (ascii_eqb c) [slash; backslash].

Definition front (s : list ascii) : ascii := hd zero s.
Definition back (s : list ascii) : ascii := List.last s zero.

(** [std::string::substr(pos, n)]. *)
Definition substr (s : list ascii) (pos n : nat) : list ascii :=
  take n (drop pos s).

(** The [quoted] test of [strip_matching_quotes], with its size guard. *)
Definition quoted (path : list ascii) : bool :=
  (2 <=? length path)%nat &&
  ((ascii_eqb (front path) dquote && ascii_eqb (back path) dquote)
   || (ascii_eqb (front path) squote && ascii_eqb (back path) squote)).

(** [strip_matching_quotes] (lines 325-334). *)
Definition strip_matching_quotes (path : list ascii) : list ascii :=
  let path := trim_copy path in
  let path := if quoted path then substr path 1 (length path - 2) else path in
  trim_copy path.

(** [add_double_quotes] (lines 336-343). *)
Definition add_double_quotes (path : list ascii) : list ascii :=
  dquote :: path ++ [dquote].

(** [img_starts_with_icase] (lines 362-370); [text] is the pair
    [(text, len)] and [prefix] the NUL-terminated literal. *)
Fixpoint img_starts_with_icase (text prefix : list ascii) {struct prefix} : bool :=
  match prefix with
  | [] => true
  | p :: prefix' =>
      match text with
      | [] => false
      | c :: text' =>
          if ascii_eqb (img_ascii_tolower c) p
          then img_starts_with_icase text' prefix'
          else false
      end
  end.

Inductive ASS_TagImageFormat :=
  | ASS_TAG_IMAGE_FORMAT_PNG
  | ASS_TAG_IMAGE_FORMAT_JPEG
  | ASS_TAG_IMAGE_FORMAT_WEBP.

(** [lower.size() >= n && lower.compare(lower.size() - n, n, suffix) == 0]. *)
Definition ends_with (s suffix : list ascii) : bool :=
  (length suffix <=? length s)%nat
  && bool_decide (drop (length s - length suffix) s = suffix).

(** [parse_tag_image_format] (lines 411-430). *)
Definition parse_tag_image_format (path : list ascii) : option ASS_TagImageFormat :=
  let lower := to_lower_copy path in
  if ends_with lower (chars ".png") then Some ASS_TAG_IMAGE_FORMAT_PNG
  else if ends_with lower (chars ".jpg") then Some ASS_TAG_IMAGE_FORMAT_JPEG
  else if ends_with lower (chars ".jpeg") then Some ASS_TAG_IMAGE_FORMAT_JPEG
  else if ends_with lower (chars ".webp") then Some ASS_TAG_IMAGE_FORMAT_WEBP
  else None.

End Text.

(** ** Image-tag extraction (lines 568-666) *)

Module Extractor.
Import Text.

(** The loops of [collect_img_paths_from_span] index [data] by [i] and [j]
    and test [j < len] before every read.  The embedding carries the
    suffix [data + j] of length [len - j] in place of the index: [j < len]
    is the suffix being non-empty, [++j] is its tail. *)

Definition is_digit_1_to_4 (c : ascii) : bool :=
  let n := N_of_ascii c in (49 <=? n)%N && (n <=? 52)%N.

Definition is_quote_char (c : ascii) : bool :=
  ascii_eqb c dquote || ascii_eqb c squote.

Definition is_arg_end (c : ascii) : bool :=
  ascii_eqb c (ascii_of_nat 44) || ascii_eqb c (ascii_of_nat 41).

(** Lines 592-609, from the first character after the blanks that follow
    the opening parenthesis: the text [data[start, end)] of the argument,
    [None] where the source says [continue]. *)
Definition argument_text (s : list ascii) : option (list ascii) :=
  match s with
  | [] => None
  | q :: t =>
      let arg :=
        if is_quote_char q
        then take_while (fun c => negb (ascii_eqb c q)) t
        else take_while (fun c => negb (is_arg_end c)) (q :: t) in
      if is_nil arg then None else Some arg
  end.

(** Lines 571-609 for the position whose suffix is [s]: the argument text
    when the position holds an image tag with [end > start], [None] where
    the source says [continue]. *)
Definition img_argument (s : list ascii) : option (list ascii) :=
  match s with
  | [] => None
  | c :: t =>
      if negb (ascii_eqb c backslash) then None
      else
        let t1 := match t with
                  | d :: t' => if is_digit_1_to_4 d then t' else t
                  | [] => t
                  end in
        match t1 with
        | ci :: cm :: cg :: t2 =>
            if negb (ascii_eqb ci "i" && ascii_eqb cm "m" && ascii_eqb cg "g") then None
            else
              match skip_while is_blank t2 with
              | paren :: t3 =>
                  if negb (ascii_eqb paren "(") then None
                  else argument_text (skip_while is_blank t3)
              | [] => None
              end
        | _ => None
        end
  end.

(** The two accumulators threaded through the scan: the result vector and
    the [unordered_set] of values already pushed. *)
Definition scan_acc : Type := list (list ascii) * gset (list ascii).

(** [if (seen->insert(path).second) paths->push_back(path)]. *)
Definition add_path (acc : scan_acc) (path : list ascii) : scan_acc :=
  if decide (path ∈ acc.2) then acc
  else (acc.1 ++ [path], {[ path ]} ∪ acc.2).

(** Lines 611-614: strip, then push unless empty or already seen. *)
Definition push_path (raw : list ascii) (acc : scan_acc) : scan_acc :=
  let path := strip_matching_quotes raw in
  if is_nil path then acc else add_path acc path.

(** One iteration of the [for] loop, at the position whose suffix is [s]. *)
Definition scan_position (s : list ascii) (acc : scan_acc) : scan_acc :=
  match img_argument s with
  | None => acc
  | Some raw => push_path raw acc
  end.

(** [collect_img_paths_from_span] (lines 568-616): positions [i] with
    [i + 4 < len], i.e. suffixes longer than four characters. *)
Fixpoint collect_img_paths_from_span (data : list ascii) (acc : scan_acc) : scan_acc :=
  match data with
  | [] => acc
  | _ :: rest =>
      if (4 <? length data)%nat
      then collect_img_paths_from_span rest (scan_position data acc)
      else acc
  end.

(** The segments [line_start, i) cut by the outer loop of
    [collect_img_paths] at every ['\n'] and at [i == len]. *)
Fixpoint split_lines (data : list ascii) : list (list ascii) :=
  match data with
  | [] => [[]]
  | c :: t =>
      if ascii_eqb c newline then [] :: split_lines t
      else match split_lines t with
           | l :: ls => (c :: l) :: ls
           | [] => [[c]]
           end
  end.

(** Lines 633-638: drop one trailing ['\r'], then blanks on both sides. *)
Definition line_body (raw : list ascii) : list ascii :=
  let l := match raw with
           | [] => raw
           | _ => if ascii_eqb (back raw) carriage_return then removelast raw else raw
           end in
  skip_while_back is_blank (skip_while is_blank l).

(** Lines 646-651: the text between the brackets, blanks trimmed. *)
Definition section_name (line : list ascii) : list ascii :=
  skip_while_back is_blank (skip_while is_blank (removelast (tl line))).

Record line_state := mkLineState {
  saw_section : bool;
  in_events : bool;
  acc : scan_acc
}.

Definition is_section_header (line : list ascii) : bool :=
  ascii_eqb (front line) "[" && ascii_eqb (back line) "]".

(** The body of the outer loop of [collect_img_paths] for one line. *)
Definition line_step (st : line_state) (raw : list ascii) : line_state :=
  let line := line_body raw in
  match line with
  | [] => st
  | _ =>
      if is_section_header line then
        let sec := section_name line in
        mkLineState true
          ((length sec =? 6)%nat && img_starts_with_icase sec (chars "events"))
          (acc st)
      else if saw_section st && negb (in_events st) then st
      else if negb (img_starts_with_icase line (chars "dialogue:")) then st
      else mkLineState (saw_section st) (in_events st)
             (collect_img_paths_from_span line (acc st))
  end.

Definition initial_line_state : line_state := mkLineState false true ([], ∅).

(** [collect_img_paths] (lines 618-666). *)
Definition collect_img_paths (data : list ascii) : list (list ascii) :=
  (acc (foldl line_step initial_line_state (split_lines data))).1.

(** *** Vocabulary of the statements about the extractor *)

(** The text of an image tag up to its argument: a backslash, an optional
    digit, [img], blanks, an opening parenthesis, blanks. *)
Definition tag (digit : option ascii) (ws1 ws2 rest : list ascii) : list ascii :=
  backslash :: option_list digit ++ chars "img" ++ ws1 ++ "("%char :: ws2 ++ rest.

Definition tag_ok (digit : option ascii) (ws1 ws2 : list ascii) : Prop :=
  match digit with Some d => is_digit_1_to_4 d = true | None => True end
  /\ Forall (fun c => is_blank c = true) ws1
  /\ Forall (fun c => is_blank c = true) ws2.

(** The non-empty suffixes of a text, longest first. *)
Fixpoint suffixes (data : list ascii) : list (list ascii) :=
  match data with
  | [] => []
  | _ :: rest => data :: suffixes rest
  end.

(** The value a position would push, before deduplication. *)
Definition candidate (s : list ascii) : option (list ascii) :=
  match img_argument s with
  | None => None
  | Some raw =>
      let path := strip_matching_quotes raw in
      if is_nil path then None else Some path
  end.

(** The candidates of a text in the order of their positions. *)
Definition candidates (data : list ascii) : list (list ascii) :=
  omap candidate (filter (fun s => 4 < length s) (suffixes data)).

(** A list with every repetition after the first occurrence removed. *)
Fixpoint first_occurrences (l : list (list ascii)) : list (list ascii) :=
  match l with
  | [] => []
  | x :: l' => x :: filter (fun y => y ≠ x) (first_occurrences l')
  end.

(** Whether lines of the section [current] are in scope: those before any
    header ([None]) and those of a section named Events, compared without
    regard to case. *)
Definition scope_of (current : option (list ascii)) : bool :=
  match current with
  | None => true
  | Some name => bool_decide (to_lower_copy name = chars "events")
  end.

(** Following the spec's words for the stricter variant: the lines that
    are scanned are the [Dialogue:] lines that come before any section
    header or inside a section named Events (compared without regard to
    case); [current] is the name of the section a line falls in. *)
Fixpoint scanned_lines (current : option (list ascii)) (lines : list (list ascii))
    : list (list ascii) :=
  match lines with
  | [] => []
  | raw :: rest =>
      let line := line_body raw in
      if is_nil line then scanned_lines current rest
      else if is_section_header line then scanned_lines (Some (section_name line)) rest
      else
        if scope_of current
           && bool_decide (to_lower_copy (take 9 line) = chars "dialogue:")
        then line :: scanned_lines current rest
        else scanned_lines current rest
  end.

(** The accumulator of the scan: the set mirrors the vector, the vector
    has no repetition, and every path in it is non-empty and trimmed. *)
Definition acc_ok (a : scan_acc) : Prop :=
  (forall x, x ∈ a.2 <-> x ∈ a.1)
  /\ NoDup a.1
  /\ Forall (fun p => p ≠ [] /\ trim_copy p = p) a.1.

End Extractor.

(** ** Provider state, tag-image cache and registration (lines 290-566, 680-865) *)

Module Provider.
Import Text Extractor.

Record TagImage := mkTagImage {
  key : list ascii;
  basename_lower : list ascii;
  format : ASS_TagImageFormat;
  width : Z;
  height : Z;
  stride : Z;
  rgba : list Z
}.

(** What [ass_set_tag_image_rgba] is handed besides the key. *)
Record image_data := mkImageData {
  img_format : ASS_TagImageFormat;
  img_width : Z;
  img_height : Z;
  img_stride : Z;
  img_rgba : list Z
}.

Definition image_of (image : TagImage) : image_data :=
  mkImageData (format image) (width image) (height image) (stride image) (rgba image).

(** [wxImage] as far as [decode_image_to_rgba] reads it; [GetAlpha] is
    [None] when [HasAlpha()] is false, [GetData] is [None] for a null
    pointer. *)
Record wxImage := mkWxImage {
  IsOk : bool;
  GetWidth : Z;
  GetHeight : Z;
  GetData : option (list Z);
  GetAlpha : option (list Z)
}.

(** The wxWidgets string and file-name operations the provider calls.
    They are library code outside the repository; the provider is
    parametric in them.  None of them reads the file system. *)
Class WxEnv := {
  wxString : Type;
  wxString_eq_dec :: EqDecision wxString;
  wx_empty_string : wxString;
  wx_is_empty : wxString -> bool;
  FromUTF8 : list ascii -> wxString;
  FromUTF8Unchecked : list ascii -> wxString;
  FromLocal : list ascii -> wxString;
  utf8_str : wxString -> list ascii;
  IsAbsolute : wxString -> bool;
  MakeAbsolute : wxString -> wxString -> wxString;
  DirEntryPath : wxString -> wxString -> wxString;
  parent_path : list ascii -> wxString;
  UUDecode : list ascii -> list Z;
  LoadStream : list Z -> option wxImage
}.

(** The file system as the provider observes it during one call:
    [wxFileName::FileExists], [wxImage::LoadFile] on a path, and the plain
    files of a directory ([None] when [wxDir::IsOpened] is false). *)
Record FileSystem `{WxEnv} := mkFileSystem {
  FileExists : wxString -> bool;
  LoadFile : wxString -> option wxImage;
  dir_files : wxString -> option (list wxString)
}.

(** The rendering engine behind the function-pointer table [api]. *)
Class EngineEnv := {
  ASS_Track : Type;
  ass_read_memory : list ascii -> option ASS_Track;
  ass_set_tag_image_rgba : list ascii -> image_data -> Z
}.

Inductive AssEntryGroup := GRAPHIC | OTHER_GROUP.

Record AssAttachment := mkAttachment {
  Group : AssEntryGroup;
  GetEntryData : list ascii
}.

Record AssFile := mkAssFile {
  Filename : list ascii;
  Attachments : list AssAttachment
}.

Section WithEnv.
Context `{Wx : WxEnv} `{Engine : EngineEnv}.

(** [append_unique_candidate] (lines 345-350). *)
Definition append_unique_candidate (candidates : list wxString) (path : wxString)
    : list wxString :=
  if wx_is_empty path then candidates
  else if bool_decide (path ∈ candidates) then candidates
  else candidates ++ [path].

(** The three decodings of [path] collected at lines 373-378 and 389-394. *)
Definition path_bases (path : list ascii) : list wxString :=
  let bases := append_unique_candidate [] (FromUTF8 path) in
  let bases := if is_nil path then bases
               else append_unique_candidate bases (FromUTF8Unchecked path) in
  if is_nil path then bases else append_unique_candidate bases (FromLocal path).

(** [path_is_absolute] (lines 372-386). *)
Definition path_is_absolute (path : list ascii) : bool :=
  existsb IsAbsolute (path_bases path).

(** [file_image_candidates] (lines 388-409). *)
Definition file_image_candidates (path : list ascii) (script_dir : wxString)
    : list wxString :=
  foldl (fun candidates base =>
           let candidates :=
             if negb (IsAbsolute base) && negb (wx_is_empty script_dir)
             then append_unique_candidate candidates (MakeAbsolute base script_dir)
             else candidates in
           append_unique_candidate candidates base)
        [] (path_bases path).

(** The images on which [decode_image_to_rgba] computes within [int]:
    the dimensions are [int]s, and for positive dimensions the byte count
    [width * height * 4] stays below [2^31], so that neither the stride
    (line 456), nor the loop bound (line 459), nor an index [i * 4 + 3]
    (line 463) overflows. *)
Definition int_sized (image : wxImage) : Prop :=
  (- 2 ^ 31 <= GetWidth image < 2 ^ 31)%Z
  /\ (- 2 ^ 31 <= GetHeight image < 2 ^ 31)%Z
  /\ ((0 < GetWidth image)%Z -> (0 < GetHeight image)%Z ->
      (GetWidth image * GetHeight image * 4 < 2 ^ 31)%Z).

(** [decode_image_to_rgba] (lines 440-467): the filled [out], or [None]
    for [return false].  The source computes the stride [width * 4], the
    loop bound [width * height] and the indices [i * 4 + c] in [int]; the
    definition computes them in [Z].  Both agree on an [int_sized] image.
    On an image of more than [2^31] bytes the [int] arithmetic of the
    source overflows, which C++ leaves undefined: it does not return what
    this definition returns (a wrapped stride comes with a buffer of
    another size, a negative one makes [resize] raise
    [std::length_error]).  The statements about stride and buffer are
    therefore made for [int_sized] images only. *)
Definition decode_image_to_rgba (image : wxImage) (out : TagImage) : option TagImage :=
  if negb (IsOk image) then None
  else
    let width := GetWidth image in
    let height := GetHeight image in
    if (width <=? 0)%Z || (height <=? 0)%Z then None
    else
      match GetData image with
      | None => None
      | Some rgb =>
          let pixel (i : nat) : list Z :=
            [rgb !!! (i * 3); rgb !!! (i * 3 + 1); rgb !!! (i * 3 + 2);
             match GetAlpha image with Some alpha => alpha !!! i | None => 255%Z end] in
          Some (mkTagImage (key out) (basename_lower out) (format out)
                  width height (width * 4)
                  (flat_map pixel (seq 0 (Z.to_nat (width * height)))))
      end.

(** [decode_attachment_image] (lines 469-504). *)
Definition decode_attachment_image (attachment : AssAttachment) : option TagImage :=
  let entry := GetEntryData attachment in
  match list_find (fun c => c = newline) entry with
  | None => None
  | Some (header_end, _) =>
      let header := trim_copy (substr entry 0 header_end) in
      if (length header <? 9)%nat
         || negb (bool_decide (to_lower_copy (substr header 0 9) = chars "filename:"))
      then None
      else
        let filename := trim_copy (drop 9 header) in
        if is_nil filename then None
        else
          match parse_tag_image_format filename with
          | None => None
          | Some fmt =>
              let decoded := UUDecode (drop (header_end + 1) entry) in
              if is_nil decoded then None
              else
                match LoadStream decoded with
                | None => None
                | Some image =>
                    match decode_image_to_rgba image
                            (mkTagImage [] [] fmt 0 0 0 []) with
                    | None => None
                    | Some out =>
                        Some (mkTagImage filename (to_lower_copy (path_basename filename))
                                (format out) (width out) (height out) (stride out)
                                (rgba out))
                    end
                end
          end
  end.

(** How a search loop of [decode_file_image] ends: it falls through to
    the code after the loop, or the function returns. *)
Inductive search_result :=
  | FellThrough
  | ReturnedFalse
  | ReturnedTrue (out : TagImage) (resolved_path : list ascii).

(** The loop over the candidates (lines 514-532). *)
Fixpoint try_candidates (fs : FileSystem) (path : list ascii) (out : TagImage)
    (candidates : list wxString) : search_result :=
  match candidates with
  | [] => FellThrough
  | candidate :: rest =>
      if negb (FileExists fs candidate) then try_candidates fs path out rest
      else
        match LoadFile fs candidate with
        | None => try_candidates fs path out rest
        | Some image =>
            match decode_image_to_rgba image out with
            | None => ReturnedFalse
            | Some out' =>
                ReturnedTrue
                  (mkTagImage path (to_lower_copy (path_basename path))
                     (format out') (width out') (height out') (stride out') (rgba out'))
                  (utf8_str candidate)
            end
        end
  end.

(** The directory scan (lines 538-561). *)
Fixpoint try_dir_entries (fs : FileSystem) (path basename_lower : list ascii)
    (script_dir : wxString) (out : TagImage) (entries : list wxString) : search_result :=
  match entries with
  | [] => FellThrough
  | entry :: rest =>
      if bool_decide (to_lower_copy (utf8_str entry) = basename_lower) then
        let candidate := DirEntryPath script_dir entry in
        match LoadFile fs candidate with
        | None => try_dir_entries fs path basename_lower script_dir out rest
        | Some image =>
            match decode_image_to_rgba image out with
            | None => ReturnedFalse
            | Some out' =>
                ReturnedTrue
                  (mkTagImage path basename_lower
                     (format out') (width out') (height out') (stride out') (rgba out'))
                  (utf8_str candidate)
            end
        end
      else try_dir_entries fs path basename_lower script_dir out rest
  end.

(** [decode_file_image] (lines 506-566): the decoded image and the
    resolved path, or [None] for [return false]. *)
Definition decode_file_image (fs : FileSystem) (path : list ascii) (script_dir : wxString)
    : option (TagImage * list ascii) :=
  match parse_tag_image_format path with
  | None => None
  | Some fmt =>
      let out := mkTagImage [] [] fmt 0 0 0 [] in
      match try_candidates fs path out (file_image_candidates path script_dir) with
      | ReturnedTrue image resolved => Some (image, resolved)
      | ReturnedFalse => None
      | FellThrough =>
          let basename_lower := to_lower_copy (path_basename path) in
          if negb (wx_is_empty script_dir) && negb (is_nil basename_lower) then
            match dir_files fs script_dir with
            | None => None
            | Some entries =>
                match try_dir_entries fs path basename_lower script_dir out entries with
                | ReturnedTrue image resolved => Some (image, resolved)
                | _ => None
                end
            end
          else None
      end
  end.

(** The members of [LibassModSubtitlesProvider] the operations below use. *)
Record provider := mkProvider {
  ass_track : option ASS_Track;
  attachment_tag_images : list TagImage;
  file_tag_image_cache : gmap (list ascii) TagImage;
  tag_image_paths : list (list ascii);
  tag_image_script_dir : wxString;
  tag_images_dirty : bool
}.

(** Lines 693-695: the directory of the script file, empty for an
    unsaved script. *)
Definition script_dir_of (subs : AssFile) : wxString :=
  if is_nil (Filename subs) then wx_empty_string else parent_path (Filename subs).

(** [PrepareSubtitles] (lines 692-709). *)
Definition PrepareSubtitles (subs : AssFile) (st : provider) : provider :=
  let script_dir := script_dir_of subs in
  let cache :=
    if bool_decide (script_dir ≠ tag_image_script_dir st) then ∅
    else file_tag_image_cache st in
  mkProvider (ass_track st)
    (omap (fun attachment =>
             match Group attachment with
             | GRAPHIC => decode_attachment_image attachment
             | _ => None
             end) (Attachments subs))
    cache (tag_image_paths st) script_dir (tag_images_dirty st).

(** What a call either returns or throws. *)
Inductive outcome :=
  | Returned
  | Thrown (what : string).

(** [LoadSubtitles] (lines 840-848).  [ass_free_track] releases memory
    only; the assignment of line 842 overwrites the member either way. *)
Definition LoadSubtitles (data : list ascii) (st : provider) : provider * outcome :=
  let st1 := mkProvider (ass_read_memory data) (attachment_tag_images st)
               (file_tag_image_cache st) (tag_image_paths st)
               (tag_image_script_dir st) (tag_images_dirty st) in
  match ass_track st1 with
  | None => (st1, Thrown "libassmod failed to load subtitles.")
  | Some _ =>
      (mkProvider (ass_track st1) (attachment_tag_images st1)
         (file_tag_image_cache st1) (collect_img_paths data)
         (tag_image_script_dir st1) true,
       Returned)
  end.

(** The state of one pass of [RegisterTagImages]: the file memo, the
    keys registered so far with the image each was accepted with (its
    domain is [registered_paths]; after [ass_clear_tag_images] this is the
    engine's table), and the paths [decode_file_image] was called on, the
    only place where the pass reads the file system. *)
Record pass_state := mkPass {
  pass_cache : gmap (list ascii) TagImage;
  registered : gmap (list ascii) image_data;
  fs_calls : list (list ascii)
}.

(** The lambda [register_key] (lines 731-741). *)
Definition register_key (key : list ascii) (image : image_data)
    (reg : gmap (list ascii) image_data) : gmap (list ascii) image_data :=
  if is_nil key then reg
  else
    match reg !! key with
    | Some _ => reg
    | None =>
        if (0 <=? ass_set_tag_image_rgba key image)%Z then <[key := image]> reg else reg
    end.

(** The lambda [register_path_variants] (lines 742-749). *)
Definition register_path_variants (key : list ascii) (image : image_data)
    (reg : gmap (list ascii) image_data) : gmap (list ascii) image_data :=
  let clean := strip_matching_quotes key in
  if is_nil clean then reg
  else register_key (add_double_quotes clean) image (register_key clean image reg).

(** Lines 752-756: [emplace] keeps the first image of a basename. *)
Definition attachment_step
    (acc : gmap (list ascii) TagImage * gmap (list ascii) image_data) (image : TagImage)
    : gmap (list ascii) TagImage * gmap (list ascii) image_data :=
  (match acc.1 !! basename_lower image with
   | Some _ => acc.1
   | None => <[basename_lower image := image]> acc.1
   end,
   register_path_variants (key image) (image_of image) acc.2).

(** Lines 769-777: the memo lookup, and on a miss the decode whose result
    is memoized under [path]. *)
Definition resolve_file (fs : FileSystem) (script_dir : wxString) (path : list ascii)
    (ps : pass_state) : option TagImage * pass_state :=
  match pass_cache ps !! path with
  | Some image => (Some image, ps)
  | None =>
      match decode_file_image fs path script_dir with
      | Some (file_image, resolved_file_path) =>
          let file_image :=
            mkTagImage (if is_nil resolved_file_path then path else resolved_file_path)
              (basename_lower file_image) (format file_image) (width file_image)
              (height file_image) (stride file_image) (rgba file_image) in
          (Some file_image,
           mkPass (<[path := file_image]> (pass_cache ps)) (registered ps)
             (fs_calls ps ++ [path]))
      | None => (None, mkPass (pass_cache ps) (registered ps) (fs_calls ps ++ [path]))
      end
  end.

Definition format_eqb (a b : ASS_TagImageFormat) : bool :=
  match a, b with
  | ASS_TAG_IMAGE_FORMAT_PNG, ASS_TAG_IMAGE_FORMAT_PNG
  | ASS_TAG_IMAGE_FORMAT_JPEG, ASS_TAG_IMAGE_FORMAT_JPEG
  | ASS_TAG_IMAGE_FORMAT_WEBP, ASS_TAG_IMAGE_FORMAT_WEBP => true
  | _, _ => false
  end.

Definition register_both (path : list ascii) (image : TagImage) (ps : pass_state)
    : pass_state :=
  mkPass (pass_cache ps)
    (register_path_variants (key image) (image_of image)
       (register_path_variants path (image_of image) (registered ps)))
    (fs_calls ps).

(** Lines 788-803: the attachment fallback of one path. *)
Definition attachment_fallback (attachment_by_name : gmap (list ascii) TagImage)
    (path : list ascii) (fmt : ASS_TagImageFormat) (absolute_path : bool)
    (ps : pass_state) : pass_state :=
  if absolute_path then ps
  else
    match attachment_by_name !! to_lower_copy (path_basename path) with
    | None => ps
    | Some image =>
        if negb (format_eqb (format image) fmt) then ps
        else register_both path image ps
    end.

(** The body of the loop over [tag_image_paths] (lines 758-804). *)
Definition register_tag_path (fs : FileSystem) (script_dir : wxString)
    (attachment_by_name : gmap (list ascii) TagImage)
    (ps : pass_state) (raw_path : list ascii) : pass_state :=
  let path := strip_matching_quotes raw_path in
  if is_nil path then ps
  else
    match parse_tag_image_format path with
    | None => ps
    | Some fmt =>
        let absolute_path := path_is_absolute path in
        let '(file_it, ps) := resolve_file fs script_dir path ps in
        match file_it with
        | Some image =>
            if format_eqb (format image) fmt then register_both path image ps
            else attachment_fallback attachment_by_name path fmt absolute_path ps
        | None => attachment_fallback attachment_by_name path fmt absolute_path ps
        end
    end.

(** What [RegisterTagImages] leaves behind: the provider, the engine's
    tag-image table, and the file-system calls it made. *)
Record register_result := mkRegisterResult {
  provider_after : provider;
  engine_images : gmap (list ascii) image_data;
  fs_calls_made : list (list ascii)
}.

Definition set_dirty (st : provider) (dirty : bool) : provider :=
  mkProvider (ass_track st) (attachment_tag_images st) (file_tag_image_cache st)
    (tag_image_paths st) (tag_image_script_dir st) dirty.

(** [RegisterTagImages] (lines 711-807).  [have_renderer] is the result
    of [renderer()] being non-null, [have_tag_api] the presence of the two
    entry points, [engine] the engine's table before the call. *)
Definition RegisterTagImages (fs : FileSystem) (have_renderer have_tag_api : bool)
    (engine : gmap (list ascii) image_data) (st : provider) : register_result :=
  if negb (tag_images_dirty st) then mkRegisterResult st engine []
  else if negb have_renderer then mkRegisterResult st engine []
  else if negb have_tag_api then mkRegisterResult (set_dirty st false) engine []
  else
    let '(attachment_by_name, reg) :=
      foldl attachment_step (∅, ∅) (attachment_tag_images st) in
    let ps :=
      foldl (register_tag_path fs (tag_image_script_dir st) attachment_by_name)
        (mkPass (file_tag_image_cache st) reg []) (tag_image_paths st) in
    mkRegisterResult
      (mkProvider (ass_track st) (attachment_tag_images st) (pass_cache ps)
         (tag_image_paths st) (tag_image_script_dir st) false)
      (registered ps) (fs_calls ps).

(** The head of [DrawSubtitles] (lines 897-903): tag images are pushed
    only when a renderer and a track are present. *)
Definition DrawSubtitles_register (fs : FileSystem) (have_renderer have_tag_api : bool)
    (engine : gmap (list ascii) image_data) (st : provider) : register_result :=
  if negb have_renderer || negb (bool_decide (is_Some (ass_track st)))
  then mkRegisterResult st engine []
  else RegisterTagImages fs have_renderer have_tag_api engine st.

(** An attachment image as [decode_attachment_image] builds it: format and
    lower-case basename are both derived from its file name. *)
Definition wf_attachment (image : TagImage) : Prop :=
  parse_tag_image_format (key image) = Some (format image)
  /\ basename_lower image = to_lower_copy (path_basename (key image))
  /\ trim_copy (key image) = key image.

(** Where a registration of the pass can come from when no reference
    resolves to a file: an attachment image [a] registered under its own
    key, or under a non-absolute reference with [a]'s basename and format;
    each time under the bare and the double-quoted key. *)
Definition from_attachment (attachments : list TagImage) (paths : list (list ascii))
    (k : list ascii) (d : image_data) : Prop :=
  exists a, a ∈ attachments /\ d = image_of a /\
    ((k = strip_matching_quotes (key a)
      \/ k = add_double_quotes (strip_matching_quotes (key a)))
     \/ exists raw, raw ∈ paths
          /\ path_is_absolute (strip_matching_quotes raw) = false
          /\ basename_lower a = to_lower_copy (path_basename (strip_matching_quotes raw))
          /\ parse_tag_image_format (strip_matching_quotes raw) = Some (format a)
          /\ (k = strip_matching_quotes (strip_matching_quotes raw)
              \/ k = add_double_quotes
                       (strip_matching_quotes (strip_matching_quotes raw)))).

Definition all_from_attachments (attachments : list TagImage)
    (paths : list (list ascii)) (reg : gmap (list ascii) image_data) : Prop :=
  forall k d, reg !! k = Some d -> from_attachment attachments paths k d.

(** The shape [decode_image_to_rgba] gives an [int_sized] image (lines
    454-457): positive dimensions, rows of four bytes per pixel, a buffer
    of exactly [stride * height] bytes. *)
Definition tag_image_ok (image : TagImage) : Prop :=
  (0 < width image)%Z /\ (0 < height image)%Z
  /\ stride image = (width image * 4)%Z
  /\ length (rgba image) = Z.to_nat (stride image * height image).

Definition image_data_ok (d : image_data) : Prop :=
  (0 < img_width d)%Z /\ (0 < img_height d)%Z
  /\ img_stride d = (img_width d * 4)%Z
  /\ length (img_rgba d) = Z.to_nat (img_stride d * img_height d).

(** The members of a freshly constructed provider (lines 683-690). *)
Definition new_provider : provider :=
  mkProvider None [] ∅ [] wx_empty_string false.

(** [Reinitialize] (lines 852-864) on the members of [provider]; [ready]
    is [shared->ready].  The renderer it replaces lives in [shared]. *)
Definition Reinitialize (ready : bool) (st : provider) : provider :=
  if negb ready then st else set_dirty st true.

(** The members [PrepareSubtitles] leaves when the conversion of the
    graphic attachment of index [n] raises (an image that is not
    [int_sized] can make [resize] raise at line 457): script directory and
    memo are already updated (lines 693-698), the attachments before the
    failing one are decoded (lines 700-708). *)
Definition PrepareSubtitles_raised (n : nat) (subs : AssFile) (st : provider) : provider :=
  PrepareSubtitles (mkAssFile (Filename subs) (take n (Attachments subs))) st.

(** The members [RegisterTagImages] leaves when the conversion of the
    file of the path of index [n] raises: the memo holds what the paths
    before it stored (line 775), and the dirty flag is still set, line 806
    not being reached. *)
Definition RegisterTagImages_raised (fs : FileSystem) (n : nat) (st : provider)
    : provider :=
  let '(attachment_by_name, reg) :=
    foldl attachment_step (∅, ∅) (attachment_tag_images st) in
  let ps :=
    foldl (register_tag_path fs (tag_image_script_dir st) attachment_by_name)
      (mkPass (file_tag_image_cache st) reg []) (take n (tag_image_paths st)) in
  mkProvider (ass_track st) (attachment_tag_images st) (pass_cache ps)
    (tag_image_paths st) (tag_image_script_dir st) (tag_images_dirty st).

(** The states a provider goes through: construction, then any sequence
    of [PrepareSubtitles], [LoadSubtitles] (returning or throwing),
    [DrawSubtitles] and [Reinitialize], each call returning or, where an
    image is converted, raising part-way. *)
Inductive reachable : provider -> Prop :=
  | reachable_new : reachable new_provider
  | reachable_prepare subs st :
      reachable st -> reachable (PrepareSubtitles subs st)
  | reachable_load data st :
      reachable st -> reachable (LoadSubtitles data st).1
  | reachable_draw fs have_renderer have_tag_api engine st :
      reachable st ->
      reachable (provider_after
                   (DrawSubtitles_register fs have_renderer have_tag_api engine st))
  | reachable_reinitialize ready st :
      reachable st -> reachable (Reinitialize ready st)
  | reachable_prepare_raised n subs st :
      reachable st -> reachable (PrepareSubtitles_raised n subs st)
  | reachable_draw_raised fs n st :
      tag_images_dirty st = true -> is_Some (ass_track st) ->
      reachable st -> reachable (RegisterTagImages_raised fs n st).

(** A memo entry as [RegisterTagImages] stores it under [path]. *)
Definition memo_entry_ok (path : list ascii) (image : TagImage) : Prop :=
  parse_tag_image_format path = Some (format image)
  /\ basename_lower image = to_lower_copy (path_basename path)
  /\ key image ≠ [].

Definition provider_ok (st : provider) : Prop :=
  Forall wf_attachment (attachment_tag_images st)
  /\ map_Forall memo_entry_ok (file_tag_image_cache st)
  /\ NoDup (tag_image_paths st)
  /\ Forall (fun p => p ≠ [] /\ trim_copy p = p) (tag_image_paths st).

(** An entry of the engine's tag-image table as a pass leaves it. *)
Definition table_entry_ok (k : list ascii) (d : image_data) : Prop :=
  k ≠ []
  /\ (0 <= ass_set_tag_image_rgba k d)%Z
  /\ image_data_ok d
  /\ exists c, c ≠ [] /\ trim_copy c = c /\ (k = c \/ k = add_double_quotes c).

(** Bare and double-quoted key of a path with a recognised extension are
    bound alike. *)
Definition paired (reg : gmap (list ascii) image_data) : Prop :=
  forall c fmt, parse_tag_image_format c = Some fmt ->
    reg !! add_double_quotes c = reg !! c.

End WithEnv.

(** A small concrete environment for the worked examples: a [wxString]
    is its bytes, a path is absolute when it starts with a slash, joining
    puts a slash between directory and name, every attachment payload
    decodes to one opaque white pixel. *)
Definition example_wx : WxEnv := {|
  wxString := list ascii;
  wx_empty_string := [];
  wx_is_empty := is_nil;
  FromUTF8 := id;
  FromUTF8Unchecked := id;
  FromLocal := id;
  utf8_str := id;
  IsAbsolute := fun s => match s with c :: _ => ascii_eqb c slash | [] => false end;
  MakeAbsolute := fun base dir => dir ++ slash :: base;
  DirEntryPath := fun dir entry => dir ++ slash :: entry;
  parent_path := fun file =>
    match find_last_of file [slash] with Some cut => take cut file | None => [] end;
  UUDecode := map (fun c => Z.of_N (N_of_ascii c));
  LoadStream := fun _ => Some (mkWxImage true 1 1 (Some [255; 255; 255]%Z) None)
|}.

(** An engine that parses every buffer not starting with ['!'] (the track
    is the buffer) and accepts every tag image. *)
Definition example_engine : EngineEnv := {|
  ASS_Track := list ascii;
  ass_read_memory := fun data =>
    match data with
    | c :: _ => if ascii_eqb c "!" then None else Some data
    | [] => Some data
    end;
  ass_set_tag_image_rgba := fun _ _ => 0%Z
|}.

(** A file system without files. *)
Definition empty_fs : @FileSystem example_wx :=
  @mkFileSystem example_wx (fun _ => false) (fun _ => None) (fun _ => None).

(** A file system holding one image, [/d/foo.png], of one pixel. *)
Definition example_fs : @FileSystem example_wx :=
  @mkFileSystem example_wx
    (fun s => bool_decide (s = chars "/d/foo.png"))
    (fun s => if bool_decide (s = chars "/d/foo.png")
              then Some (mkWxImage true 1 1 (Some [1; 2; 3]%Z) (Some [4]%Z))
              else None)
    (fun _ => None).

(** A file system where [/d/foo.png] exists and loads as an image that is
    not ok, while the raw name [foo.png] would load as a pixel. *)
Definition broken_fs : @FileSystem example_wx :=
  @mkFileSystem example_wx
    (fun s => bool_decide (s = chars "/d/foo.png") || bool_decide (s = chars "foo.png"))
    (fun s => if bool_decide (s = chars "/d/foo.png")
              then Some (mkWxImage false 0 0 None None)
              else if bool_decide (s = chars "foo.png")
              then Some (mkWxImage true 1 1 (Some [1; 2; 3]%Z) None)
              else None)
    (fun _ => None).

(** The worked example of the attachment fallback: one graphic
    attachment named [foo.png], a script that references [foo.png],
    [sub/foo.png] and [/abs/other/foo.png], no file on disk. *)
Definition example_subs : AssFile :=
  mkAssFile []
    [mkAttachment GRAPHIC (chars "filename: foo.png" ++ newline :: chars "payload")].

Definition example_script : list ascii :=
  chars "Dialogue: 0,{\img(foo.png)}{\img(sub/foo.png)}{\img(/abs/other/foo.png)}".

Definition example_attachment : TagImage :=
  mkTagImage (chars "foo.png") (chars "foo.png") ASS_TAG_IMAGE_FORMAT_PNG 1 1 4
    [255; 255; 255; 255]%Z.

Definition example_provider : @provider example_wx example_engine :=
  (@LoadSubtitles example_wx example_engine example_script
     (@PrepareSubtitles example_wx example_engine example_subs
        (@mkProvider example_wx example_engine None [] ∅ [] [] false))).1.

End Provider.

(** ** Loading the shared library (lines 130-281) *)

Module Loader.

(** The three preprocessor configurations of the loader. *)
Inductive platform := Windows | Apple | Other.

(** [kLibassmodNames] (lines 215, 227, 229). *)
Definition kLibassmodNames (p : platform) : list string :=
  match p with
  | Windows => ["libassmod.dll"; "assmod.dll"; "ass.dll"; "libass.dll"]
  | Apple => ["libassmod.dylib"; "libassmod.so"; "libass.dylib"; "libass.so"]
  | Other => ["libassmod.so"; "libass.so"]
  end%string.

(** The message of lines 222 and 237. *)
Definition could_not_load (p : platform) : string :=
  match p with
  | Windows =>
      "Could not load libassmod (tried libassmod.dll, assmod.dll, ass.dll, libass.dll)."
  | _ => "Could not load libassmod (tried libassmod and libass shared library names)."
  end%string.

(** The symbols of the [LoadSymbol] chain (lines 242-254), in its order. *)
Definition required_symbols : list string :=
  ["ass_library_init"; "ass_library_done"; "ass_set_message_cb";
   "ass_renderer_init"; "ass_renderer_done"; "ass_set_font_scale";
   "ass_set_fonts"; "ass_read_memory"; "ass_free_track";
   "ass_set_frame_size"; "ass_set_storage_size"; "ass_render_frame_auto";
   "ass_free_images_rgba"]%string.

(** The symbols of the [LoadOptionalSymbol] calls (lines 259-260). *)
Definition optional_symbols : list string :=
  ["ass_clear_tag_images"; "ass_set_tag_image_rgba"]%string.

Section WithTypes.
Context {Handle Symbol Library : Type}.

(** The dynamic linker as one call observes it: [dlopen] or
    [LoadLibraryW], [dlsym] or [GetProcAddress], and what calling the
    loaded [ass_library_init] returns; [None] is a null pointer. *)
Record DynEnv := mkDynEnv {
  dlopen : string -> option Handle;
  dlsym : Handle -> string -> option Symbol;
  call_library_init : Symbol -> option Library
}.

(** [LibassModApi] (lines 130-149): the handle, and the function-pointer
    members as a map from member name to pointer, a null member being
    absent.  Every member is named after the symbol it is loaded from. *)
Record LibassModApi := mkApi {
  handle : option Handle;
  symbols : gmap string Symbol
}.

(** The globals of lines 151-155; [api_once] tells whether the
    [std::call_once] of [EnsureLibassMod] has run. *)
Record globals := mkGlobals {
  api : LibassModApi;
  api_loaded : bool;
  api_error : string;
  api_once : bool;
  library : option Library
}.

Definition initial_globals : globals :=
  mkGlobals (mkApi None ∅) false EmptyString false None.

(** The loop of lines 216-220 and 231-235: the handle of the first name
    that opens. *)
Fixpoint open_first (env : DynEnv) (names : list string) : option Handle :=
  match names with
  | [] => None
  | name :: rest =>
      match dlopen env name with
      | Some h => Some h
      | None => open_first env rest
      end
  end.

(** The chain of [LoadSymbol] calls joined by [||] (lines 242-254):
    members are assigned until a symbol is missing; the second component
    is the error [LoadSymbol] wrote (lines 195-197). *)
Fixpoint LoadSymbols (env : DynEnv) (h : Handle) (names : list string)
    (members : gmap string Symbol) : gmap string Symbol * option string :=
  match names with
  | [] => (members, None)
  | name :: rest =>
      match dlsym env h name with
      | None => (members, Some ("Missing libassmod symbol: " ++ name)%string)
      | Some sym => LoadSymbols env h rest (<[name := sym]> members)
      end
  end.

(** [LoadOptionalSymbol] (lines 203-211): the member takes whatever the
    lookup returned, null included. *)
Definition LoadOptionalSymbol (env : DynEnv) (h : Handle)
    (members : gmap string Symbol) (name : string) : gmap string Symbol :=
  match dlsym env h name with
  | Some sym => <[name := sym]> members
  | None => delete name members
  end.

(** [LoadLibassModApi] (lines 213-272), with the tag-image feature
    compiled in: the globals, the string behind [error], the result.
    [CloseLibassModHandle] (lines 174-186) resets the handle. *)
Definition LoadLibassModApi (p : platform) (env : DynEnv) (g : globals) (error : string)
    : globals * string * bool :=
  match open_first env (kLibassmodNames p) with
  | None =>
      (mkGlobals (mkApi None (symbols (api g))) (api_loaded g) (api_error g)
         (api_once g) (library g),
       could_not_load p, false)
  | Some h =>
      match LoadSymbols env h required_symbols (symbols (api g)) with
      | (members, Some missing) =>
          (mkGlobals (mkApi None members) (api_loaded g) (api_error g)
             (api_once g) (library g),
           missing, false)
      | (members, None) =>
          let members := foldl (LoadOptionalSymbol env h) members optional_symbols in
          let lib := members !! "ass_library_init"%string ≫= call_library_init env in
          match lib with
          | None =>
              (mkGlobals (mkApi None members) (api_loaded g) (api_error g)
                 (api_once g) None,
               "libassmod initialization failed."%string, false)
          | Some _ =>
              (mkGlobals (mkApi (Some h) members) (api_loaded g) (api_error g)
                 (api_once g) lib,
               error, true)
          end
      end
  end.

(** [EnsureLibassMod] (lines 274-281): the globals and the return value,
    with the text stored through [error] when the call fails. *)
Definition EnsureLibassMod (p : platform) (env : DynEnv) (g : globals)
    : globals * bool * option string :=
  let g :=
    if api_once g then g
    else
      let '(g', error, loaded) := LoadLibassModApi p env g (api_error g) in
      mkGlobals (api g') loaded error true (library g') in
  (g, api_loaded g, if api_loaded g then None else Some (api_error g)).

(** The test of line 718 on the loaded members. *)
Definition have_tag_api (g : globals) : bool :=
  bool_decide (is_Some (symbols (api g) !! "ass_clear_tag_images"%string))
  && bool_decide (is_Some (symbols (api g) !! "ass_set_tag_image_rgba"%string)).

End WithTypes.

Arguments DynEnv : clear implicits.
Arguments LibassModApi : clear implicits.
Arguments globals : clear implicits.

(** A system where only [libass.so] opens; it has every symbol, and its
    [ass_library_init] succeeds. *)
Definition example_dyn : DynEnv unit string unit :=
  mkDynEnv (fun name => if String.eqb name "libass.so" then Some tt else None)
    (fun _ name => Some name) (fun _ => Some tt).

(** A system without any of the libraries. *)
Definition empty_dyn : DynEnv unit string unit :=
  mkDynEnv (fun _ => None) (fun _ _ => None) (fun _ => None).

End Loader.

(** * Theorems *)

(** ** The compositor *)

Section CompositorFacts.
Import Compositor.

Lemma length_write_pixel buf off p : length (write_pixel buf off p) = length buf.
Proof. unfold write_pixel. by rewrite !length_insert. Qed.

Lemma write_pixel_lookup_other buf off p (i : nat) :
  i < off \/ off + 4 <= i ->
  write_pixel buf off p !! i = buf !! i.
Proof.
  intros Hi. unfold write_pixel.
  rewrite !list_lookup_insert_ne by lia. done.
Qed.

Lemma read_write_pixel_same buf off p :
  off + 3 < length buf ->
  read_pixel (write_pixel buf off p) off = p.
Proof.
  intros Hlen. destruct p as [a b c d]. unfold read_pixel, write_pixel; simpl.
  f_equal.
  - rewrite !list_lookup_total_insert_ne by lia.
    apply list_lookup_total_insert_eq; lia.
  - rewrite !list_lookup_total_insert_ne by lia.
    apply list_lookup_total_insert_eq. rewrite length_insert; lia.
  - rewrite !list_lookup_total_insert_ne by lia.
    apply list_lookup_total_insert_eq. rewrite !length_insert; lia.
  - apply list_lookup_total_insert_eq. rewrite !length_insert; lia.
Qed.

Lemma read_pixel_ext buf buf' off :
  (forall i : nat, off <= i < off + 4 -> buf' !! i = buf !! i) ->
  read_pixel buf' off = read_pixel buf off.
Proof.
  intros H. unfold read_pixel.
  rewrite !list_lookup_total_alt, !H by lia. done.
Qed.

Section Cells.
Context {K S : Type} (off : K -> nat) (sv : K -> S) (f : pixel -> S -> pixel).

Let step (buf : list Z) (k : K) : list Z := blend_at f buf (off k, sv k).

Lemma blend_cells_length cells buf : length (foldl step buf cells) = length buf.
Proof.
  revert buf. induction cells as [|k cells IH]; intros buf; simpl; [done|].
  rewrite IH. apply length_write_pixel.
Qed.

Lemma blend_cells_other cells buf (i : nat) :
  (forall k, k ∈ cells -> i < off k \/ off k + 4 <= i) ->
  foldl step buf cells !! i = buf !! i.
Proof.
  revert buf. induction cells as [|k cells IH]; intros buf Hout; simpl; [done|].
  rewrite IH by (intros k' Hk'; apply Hout; by right).
  apply write_pixel_lookup_other. simpl. apply Hout. by left.
Qed.

Lemma blend_cells_pixel cells buf k :
  NoDup cells ->
  (forall a b, a ∈ cells -> b ∈ cells -> a ≠ b ->
     off a + 4 <= off b \/ off b + 4 <= off a) ->
  (forall a, a ∈ cells -> off a + 3 < length buf) ->
  k ∈ cells ->
  read_pixel (foldl step buf cells) (off k) = f (read_pixel buf (off k)) (sv k).
Proof.
  revert buf. induction cells as [|c cells IH]; intros buf Hnd Hdisj Hin Hk.
  - by apply elem_of_nil in Hk.
  - apply NoDup_cons in Hnd as [Hc Hnd]. simpl.
    apply elem_of_cons in Hk as [->|Hk].
    + rewrite (read_pixel_ext (step buf c)).
      * unfold step, blend_at; simpl. apply read_write_pixel_same.
        apply Hin. by left.
      * intros i Hi. apply blend_cells_other. intros k' Hk'.
        assert (c ≠ k') as Hne by (intros ->; done).
        destruct (Hdisj c k') as [?|?]; [by left|by right|done|lia|lia].
    + assert (c ≠ k) as Hne by (intros ->; done).
      rewrite IH; try done.
      * f_equal. apply read_pixel_ext. intros i Hi.
        unfold step, blend_at; simpl. apply write_pixel_lookup_other.
        destruct (Hdisj c k) as [?|?]; [by left|by right|done|lia|lia].
      * intros a b Ha Hb. apply Hdisj; by right.
      * intros a Ha. unfold step, blend_at. rewrite length_write_pixel.
        apply Hin. by right.
Qed.

End Cells.

Lemma elem_of_tile_coords w h x y : (x, y) ∈ tile_coords w h <-> x < w /\ y < h.
Proof.
  unfold tile_coords. rewrite list_elem_of_bind. split.
  - intros (y' & Hx & Hy). apply list_elem_of_fmap in Hx as (x' & Heq & Hx).
    inversion Heq; subst. apply elem_of_seq in Hx, Hy. lia.
  - intros [Hx Hy]. exists y. split.
    + apply list_elem_of_fmap. exists x. split; [done|]. apply elem_of_seq. lia.
    + apply elem_of_seq. lia.
Qed.

Lemma NoDup_tile_coords w h : NoDup (tile_coords w h).
Proof.
  unfold tile_coords. apply NoDup_bind.
  - intros y1 y2 [x y] _ _ H1 H2.
    apply list_elem_of_fmap in H1 as (? & H1 & _), H2 as (? & H2 & _).
    congruence.
  - intros y _. apply NoDup_fmap_2; [|apply NoDup_seq].
    intros ?? Heq. congruence.
  - apply NoDup_seq.
Qed.

Lemma transform_pixels_cells {S} fr x0 y0 w h (src : nat -> nat -> S) f buf :
  transform_pixels fr x0 y0 w h src f buf =
  foldl (fun buf c => blend_at f buf (dst_offset fr (x0 + c.1) (y0 + c.2), src c.1 c.2))
        buf (tile_coords w h).
Proof.
  unfold transform_pixels, tile_coords.
  generalize (seq 0 h) as ys. intros ys. revert buf.
  induction ys as [|y ys IH]; intros buf; [done|].
  simpl. rewrite foldl_app, foldl_fmap, IH. done.
Qed.

(** Distinct pixels of a frame occupy disjoint groups of four bytes, all
    inside the buffer. *)
Lemma dst_offset_apart fr x y x' y' :
  x < width fr -> x' < width fr -> y < height fr -> y' < height fr ->
  (x, y) ≠ (x', y') ->
  dst_offset fr x y + 4 <= dst_offset fr x' y' \/
  dst_offset fr x' y' + 4 <= dst_offset fr x y.
Proof.
  intros Hx Hx' Hy Hy' Hne. unfold dst_offset.
  assert (x ≠ x' \/ dst_row fr y ≠ dst_row fr y') as Hd.
  { destruct (decide (x = x')) as [->|]; [right|left; done].
    assert (y ≠ y') by congruence. unfold dst_row. destruct (flipped fr); lia. }
  set (W := width fr) in *.
  generalize dependent (dst_row fr y). generalize dependent (dst_row fr y').
  intros r' r Hd.
  destruct (lt_eq_lt_dec r r') as [[Hlt| ->]|Hlt].
  - left. assert (r * (W * 4) + W * 4 <= r' * (W * 4)) by nia. lia.
  - lia.
  - right. assert (r' * (W * 4) + W * 4 <= r * (W * 4)) by nia. lia.
Qed.

Lemma dst_offset_in_bounds fr x y :
  x < width fr -> y < height fr ->
  dst_offset fr x y + 3 < width fr * height fr * 4.
Proof.
  intros Hx Hy. unfold dst_offset.
  assert (dst_row fr y < height fr) as Hr.
  { unfold dst_row. destruct (flipped fr); lia. }
  generalize dependent (dst_row fr y). intros r Hr.
  assert (r * (width fr * 4) + width fr * 4 <= height fr * (width fr * 4)) by nia.
  lia.
Qed.

(** The effect of [transform_pixels] on a pixel the tile covers. *)
Lemma transform_pixels_covered {S} fr x0 y0 w h (src : nat -> nat -> S) f buf x y :
  tile_in_frame fr buf x0 y0 w h -> x < w -> y < h ->
  read_pixel (transform_pixels fr x0 y0 w h src f buf) (dst_offset fr (x0 + x) (y0 + y))
  = f (read_pixel buf (dst_offset fr (x0 + x) (y0 + y))) (src x y).
Proof.
  intros (Hlen & Hw & Hh) Hx Hy. rewrite transform_pixels_cells.
  apply (blend_cells_pixel (fun c => dst_offset fr (x0 + c.1) (y0 + c.2))
           (fun c => src c.1 c.2) f (tile_coords w h) buf (x, y)).
  - apply NoDup_tile_coords.
  - intros [a1 a2] [b1 b2] Ha Hb Hne. apply elem_of_tile_coords in Ha, Hb. simpl.
    apply dst_offset_apart; try lia. intros Heq. apply Hne.
    inversion Heq. f_equal; lia.
  - intros [a1 a2] Ha. apply elem_of_tile_coords in Ha. simpl.
    rewrite Hlen. apply dst_offset_in_bounds; lia.
  - apply elem_of_tile_coords. done.
Qed.

(** Bytes outside the tile keep their value. *)
Lemma transform_pixels_outside {S} fr x0 y0 w h (src : nat -> nat -> S) f buf (i : nat) :
  (forall x y, x < w -> y < h ->
     i < dst_offset fr (x0 + x) (y0 + y) \/ dst_offset fr (x0 + x) (y0 + y) + 4 <= i) ->
  transform_pixels fr x0 y0 w h src f buf !! i = buf !! i.
Proof.
  intros Hout. rewrite transform_pixels_cells.
  apply (blend_cells_other (fun c => dst_offset fr (x0 + c.1) (y0 + c.2))
           (fun c => src c.1 c.2) f).
  intros [a1 a2] Ha. apply elem_of_tile_coords in Ha. simpl. apply Hout; lia.
Qed.

Lemma transform_pixels_length {S} fr x0 y0 w h (src : nat -> nat -> S) f buf :
  length (transform_pixels fr x0 y0 w h src f buf) = length buf.
Proof.
  rewrite transform_pixels_cells.
  apply (blend_cells_length (fun c => dst_offset fr (x0 + c.1) (y0 + c.2))
           (fun c => src c.1 c.2) f).
Qed.

(** *** Arithmetic of the two pixel functors *)

Lemma u32_small z : (0 <= z < 2 ^ 32)%Z -> u32 z = z.
Proof. intros. unfold u32. by apply Z.mod_small. Qed.

Lemma u8_small z : is_u8 z -> u8 z = z.
Proof. unfold is_u8, u8. intros. apply Z.mod_small. lia. Qed.

Lemma land_255 z : Z.land z 255 = (z mod 256)%Z.
Proof. change 255%Z with (Z.ones 8). rewrite Z.land_ones by lia. done. Qed.

Lemma scaled_byte_bound a b : is_u8 a -> is_u8 b -> (0 <= a * b / 255 <= b)%Z.
Proof.
  unfold is_u8. intros Ha Hb. split.
  - apply Z.div_pos; nia.
  - apply Z.div_le_upper_bound; nia.
Qed.

(** On bytes no 32-bit operation of [blend_rgba] wraps; what remains is
    the conversion of the sum to [unsigned char]. *)
Lemma blend_rgba_bytes d s :
  pixel_u8 d -> pixel_u8 s ->
  blend_rgba d s =
  Pixel (u8 (ch2 s + ch0 d * (255 - ch3 s) / 255))
        (u8 (ch1 s + ch1 d * (255 - ch3 s) / 255))
        (u8 (ch0 s + ch2 d * (255 - ch3 s) / 255)) 0.
Proof.
  intros (Hd0 & Hd1 & Hd2 & _) (Hs0 & Hs1 & Hs2 & Hs3). unfold blend_rgba.
  unfold is_u8 in *.
  assert (is_u8 (255 - ch3 s)) as Hinv by (unfold is_u8; lia).
  rewrite (u32_small (255 - ch3 s)) by lia.
  pose proof (scaled_byte_bound (ch0 d) (255 - ch3 s) Hd0 Hinv).
  pose proof (scaled_byte_bound (ch1 d) (255 - ch3 s) Hd1 Hinv).
  pose proof (scaled_byte_bound (ch2 d) (255 - ch3 s) Hd2 Hinv).
  rewrite !(u32_small (_ * _)) by nia.
  rewrite !(u32_small (_ + _)) by lia.
  done.
Qed.

Lemma blend_rgba_premultiplied d s :
  pixel_u8 d -> pixel_u8 s -> premultiplied s ->
  blend_rgba d s =
  Pixel (ch2 s + ch0 d * (255 - ch3 s) / 255)
        (ch1 s + ch1 d * (255 - ch3 s) / 255)
        (ch0 s + ch2 d * (255 - ch3 s) / 255) 0.
Proof.
  intros Hd Hs (Hp0 & Hp1 & Hp2). rewrite blend_rgba_bytes by done.
  destruct Hd as (Hd0 & Hd1 & Hd2 & _), Hs as (Hs0 & Hs1 & Hs2 & Hs3).
  assert (is_u8 (255 - ch3 s)) as Hinv by (unfold is_u8 in *; lia).
  pose proof (scaled_byte_bound (ch0 d) (255 - ch3 s) Hd0 Hinv).
  pose proof (scaled_byte_bound (ch1 d) (255 - ch3 s) Hd1 Hinv).
  pose proof (scaled_byte_bound (ch2 d) (255 - ch3 s) Hd2 Hinv).
  unfold is_u8 in *.
  rewrite !u8_small by (unfold is_u8; lia). done.
Qed.

(** Without premultiplication the sum can exceed 255 and the stored
    channel is its low byte. *)
Example blend_rgba_wraps :
  blend_rgba (Pixel 255 255 255 255) (Pixel 255 255 255 0) = Pixel 254 254 254 0.
Proof. reflexivity. Qed.

Lemma color_fields c :
  (0 <= c < 2 ^ 32)%Z ->
  is_u8 (_a c) /\ is_u8 (_r c) /\ is_u8 (_g c) /\ is_u8 (_b c)
  /\ _r c = Z.land (Z.shiftr c 24) 255.
Proof.
  intros Hc. unfold _a, _r, _g, _b, is_u8. rewrite !land_255.
  rewrite !Z.shiftr_div_pow2 by lia.
  assert (0 <= c / 2 ^ 24 < 256)%Z.
  { split; [apply Z.div_pos; lia|]. apply Z.div_lt_upper_bound; lia. }
  rewrite (Z.mod_small (c / 2 ^ 24)) by lia.
  pose proof (Z.mod_pos_bound c 256).
  pose proof (Z.mod_pos_bound (c / 2 ^ 16) 256).
  pose proof (Z.mod_pos_bound (c / 2 ^ 8) 256).
  lia.
Qed.

Lemma blend_mask_bytes opacity r g b d m :
  is_u8 opacity -> is_u8 r -> is_u8 g -> is_u8 b -> pixel_u8 d -> is_u8 m ->
  let k := (m * opacity / 255)%Z in
  blend_mask opacity r g b d m =
  Pixel ((k * b + (255 - k) * ch0 d) / 255)
        ((k * g + (255 - k) * ch1 d) / 255)
        ((k * r + (255 - k) * ch2 d) / 255) 0.
Proof.
  intros Ho Hr Hg Hb (Hd0 & Hd1 & Hd2 & _) Hm k. unfold blend_mask.
  pose proof (scaled_byte_bound m opacity Hm Ho) as Hk. fold k in Hk.
  unfold is_u8 in *.
  rewrite (u32_small (m * opacity)) by nia. fold k.
  rewrite (u32_small (255 - k)) by lia.
  rewrite !(u32_small (_ * _)) by nia.
  rewrite !(u32_small (_ + _)) by nia.
  assert (forall c e, (0 <= c <= 255 -> 0 <= e <= 255 ->
            0 <= (k * c + (255 - k) * e) / 255 <= 255)%Z) as Hch.
  { intros c e Hc He. split; [apply Z.div_pos; nia|].
    apply Z.div_le_upper_bound; nia. }
  rewrite !u8_small by (unfold is_u8; apply Hch; lia). done.
Qed.

(** C1.  For a tile of the premultiplied-RGBA list lying inside the frame
    and every pixel [(x, y)] it covers, the destination pixel (B, G, R, A
    in memory order) becomes: B = source B + old B * (255 - alpha) / 255,
    G and R likewise from the source's G and R (the source being R, G, B, A
    in memory order), with truncating division, and A = 0. *)
Theorem DrawSubtitles_rgba_blend fr buf img x y :
  tile_in_frame fr buf (rgba_dst_x img) (rgba_dst_y img) (rgba_w img) (rgba_h img) ->
  x < rgba_w img -> y < rgba_h img ->
  let off := dst_offset fr (rgba_dst_x img + x) (rgba_dst_y img + y) in
  let d := read_pixel buf off in
  let s := src_rgba img x y in
  pixel_u8 d -> pixel_u8 s -> premultiplied s ->
  read_pixel (blend_image_rgba fr buf img) off =
  Pixel (ch2 s + ch0 d * (255 - ch3 s) / 255)
        (ch1 s + ch1 d * (255 - ch3 s) / 255)
        (ch0 s + ch2 d * (255 - ch3 s) / 255) 0.
Proof.
  intros Hin Hx Hy off d s Hd Hs Hp. unfold blend_image_rgba.
  subst off. rewrite transform_pixels_covered by done.
  by apply blend_rgba_premultiplied.
Qed.

(** The spec's instance of C1: an opaque 1x1 tile (R=10, G=20, B=30,
    A=255) over the pixel (B=200, G=200, R=200) gives (B=30, G=20, R=10),
    alpha 0. *)
Lemma DrawSubtitles_rgba_blend_witness :
  read_pixel
    (data (DrawSubtitles true true
             (mkRenderResult [] [mkImageRGBA 1 1 4 [10; 20; 30; 255]%Z 0 0] true)
             (mkFrame [200; 200; 200; 255]%Z 1 1 false))) 0
  = Pixel 30 20 10 0.
Proof.
  apply (DrawSubtitles_rgba_blend (mkFrame [200; 200; 200; 255]%Z 1 1 false)
           [200; 200; 200; 255]%Z (mkImageRGBA 1 1 4 [10; 20; 30; 255]%Z 0 0) 0 0).
  - unfold tile_in_frame; simpl; lia.
  - simpl; lia.
  - simpl; lia.
  - unfold pixel_u8, is_u8; simpl; lia.
  - unfold pixel_u8, is_u8; simpl; lia.
  - unfold premultiplied; simpl; lia.
Defined.

(** C2.  For a tile of the alpha-mask list with packed colour [c]:
    opacity = 255 - (c & 0xFF), r, g, b are bits 24-31, 16-23 and 8-15 of
    [c]; for a covered pixel with mask value [m], k = m * opacity / 255 and
    every destination colour channel becomes
    (k * tile channel + (255 - k) * old channel) / 255, alpha becomes 0. *)
Theorem DrawSubtitles_mask_blend fr buf img x y :
  tile_in_frame fr buf (dst_x img) (dst_y img) (w img) (h img) ->
  x < w img -> y < h img ->
  (0 <= color img < 2 ^ 32)%Z ->
  let off := dst_offset fr (dst_x img + x) (dst_y img + y) in
  let d := read_pixel buf off in
  let m := src_gray img x y in
  pixel_u8 d -> is_u8 m ->
  let opacity := (255 - Z.land (color img) 255)%Z in
  let r := Z.land (Z.shiftr (color img) 24) 255 in
  let g := Z.land (Z.shiftr (color img) 16) 255 in
  let b := Z.land (Z.shiftr (color img) 8) 255 in
  let k := (m * opacity / 255)%Z in
  read_pixel (blend_image_mask fr buf img) off =
  Pixel ((k * b + (255 - k) * ch0 d) / 255)
        ((k * g + (255 - k) * ch1 d) / 255)
        ((k * r + (255 - k) * ch2 d) / 255) 0.
Proof.
  intros Hin Hx Hy Hc off d m Hd Hm opacity r g b k. unfold blend_image_mask.
  subst off. rewrite transform_pixels_covered by done.
  destruct (color_fields (color img) Hc) as (Ha & Hr & Hg & Hb & Hr').
  assert (u32 (255 - _a (color img)) = opacity) as ->.
  { unfold is_u8 in Ha. rewrite u32_small by lia. done. }
  rewrite Hr' in *.
  apply blend_mask_bytes; try done.
  subst opacity. unfold is_u8, _a in *. lia.
Qed.

(** The spec's instance of C2: mask 255, colour alpha byte 0, tile colour
    RGB = (1, 2, 3), over (B=9, G=9, R=9) gives (B=3, G=2, R=1). *)
Lemma DrawSubtitles_mask_blend_witness :
  read_pixel
    (data (DrawSubtitles true true
             (mkRenderResult [mkImage 1 1 1 [255%Z] 16909056 0 0] [] false)
             (mkFrame [9; 9; 9; 255]%Z 1 1 false))) 0
  = Pixel 3 2 1 0.
Proof.
  apply (DrawSubtitles_mask_blend (mkFrame [9; 9; 9; 255]%Z 1 1 false)
           [9; 9; 9; 255]%Z (mkImage 1 1 1 [255%Z] 16909056 0 0) 0 0).
  - unfold tile_in_frame; simpl; lia.
  - simpl; lia.
  - simpl; lia.
  - cbn [color]; lia.
  - unfold pixel_u8, is_u8; simpl; lia.
  - change (is_u8 255); unfold is_u8; lia.
Defined.

(** With mask value 0 the functor is the identity on the three colour
    channels, whatever the tile's colour and opacity. *)
Lemma blend_mask_zero opacity r g b d :
  pixel_u8 d -> blend_mask opacity r g b d 0 = Pixel (ch0 d) (ch1 d) (ch2 d) 0.
Proof.
  intros (Hd0 & Hd1 & Hd2 & _). unfold blend_mask. rewrite Z.mul_0_l.
  change (u32 0 / 255)%Z with 0%Z. change (u32 (255 - 0)) with 255%Z.
  rewrite !Z.mul_0_l. change (u32 0) with 0%Z. rewrite !Z.add_0_l.
  unfold is_u8 in *.
  rewrite !(u32_small (255 * _)) by lia.
  rewrite !(Z.mul_comm 255), !Z.div_mul by lia.
  rewrite !u8_small by done. done.
Qed.

(** C10.  In the alpha-mask branch a covered pixel whose mask value is 0
    keeps its B, G and R bytes, yet its alpha byte is overwritten with 0:
    when the old alpha was not 0 the buffer has changed. *)
Theorem DrawSubtitles_mask_zero fr buf img x y :
  tile_in_frame fr buf (dst_x img) (dst_y img) (w img) (h img) ->
  x < w img -> y < h img ->
  let off := dst_offset fr (dst_x img + x) (dst_y img + y) in
  let d := read_pixel buf off in
  pixel_u8 d -> src_gray img x y = 0%Z ->
  read_pixel (blend_image_mask fr buf img) off = Pixel (ch0 d) (ch1 d) (ch2 d) 0
  /\ (ch3 d ≠ 0%Z -> blend_image_mask fr buf img ≠ buf).
Proof.
  intros Hin Hx Hy off d Hd Hm.
  assert (read_pixel (blend_image_mask fr buf img) off = Pixel (ch0 d) (ch1 d) (ch2 d) 0)
    as Heq.
  { unfold blend_image_mask. subst off. rewrite transform_pixels_covered by done.
    rewrite Hm. by apply blend_mask_zero. }
  split; [done|].
  intros Ha Hsame. rewrite Hsame in Heq.
  fold d in Heq. destruct d as [d0 d1 d2 d3]. simpl in *. congruence.
Qed.

Lemma DrawSubtitles_mask_zero_witness :
  read_pixel
    (blend_image_mask (mkFrame [9; 8; 7; 255]%Z 1 1 false) [9; 8; 7; 255]%Z
       (mkImage 1 1 1 [0%Z] 16909056 0 0)) 0
  = Pixel 9 8 7 0
  /\ blend_image_mask (mkFrame [9; 8; 7; 255]%Z 1 1 false) [9; 8; 7; 255]%Z
       (mkImage 1 1 1 [0%Z] 16909056 0 0) ≠ [9; 8; 7; 255]%Z.
Proof.
  destruct (DrawSubtitles_mask_zero (mkFrame [9; 8; 7; 255]%Z 1 1 false)
              [9; 8; 7; 255]%Z (mkImage 1 1 1 [0%Z] 16909056 0 0) 0 0) as [H1 H2].
  - unfold tile_in_frame; simpl; lia.
  - simpl; lia.
  - simpl; lia.
  - unfold pixel_u8, is_u8; simpl; lia.
  - reflexivity.
  - split; [exact H1|]. apply H2. simpl. lia.
Defined.

(** *** What a draw leaves outside its tiles *)

Lemma blend_images_outside {I} (blend : list Z -> I -> list Z)
    (P : I -> Prop) (i : nat) :
  (forall buf img, P img -> blend buf img !! i = buf !! i) ->
  forall tiles buf, (forall img, img ∈ tiles -> P img) ->
    foldl blend buf tiles !! i = buf !! i.
Proof.
  intros Hone. induction tiles as [|img tiles IH]; intros buf Hall; [done|].
  simpl. rewrite IH.
  - apply Hone, Hall. by left.
  - intros img' Hin. apply Hall. by right.
Qed.

Lemma transform_pixels_not_in_tile {S} fr x0 y0 w h (src : nat -> nat -> S) f buf i :
  ~ byte_in_tile fr i (x0, y0, w, h) ->
  transform_pixels fr x0 y0 w h src f buf !! i = buf !! i.
Proof.
  intros Hout. apply transform_pixels_outside. intros x y Hx Hy.
  destruct (decide (i < dst_offset fr (x0 + x) (y0 + y))) as [|Hlo]; [by left|].
  destruct (decide (dst_offset fr (x0 + x) (y0 + y) + 4 <= i)) as [|Hhi]; [by right|].
  exfalso. apply Hout. exists x, y. simpl. lia.
Qed.



(** *** A pixel under one tile of the list *)

Lemma blend_images_length {I} (blend : list Z -> I -> list Z) :
  (forall buf img, length (blend buf img) = length buf) ->
  forall tiles buf, length (foldl blend buf tiles) = length buf.
Proof.
  intros Hone. induction tiles as [|img tiles IH]; intros buf; [done|].
  simpl. by rewrite IH.
Qed.

(** A pixel covered by one tile of a list only: the fold over the list
    applies that tile's functor to the pixel once. *)
Lemma blend_images_single {I S} fr (rect : I -> nat * nat * nat * nat)
    (src : I -> nat -> nat -> S) (f : I -> pixel -> S -> pixel)
    (before : list I) (img : I) (after : list I) buf x y :
  let blend := fun buf img =>
    transform_pixels fr (rect img).1.1.1 (rect img).1.1.2 (rect img).1.2 (rect img).2
      (src img) (f img) buf in
  let off := dst_offset fr ((rect img).1.1.1 + x) ((rect img).1.1.2 + y) in
  length buf = width fr * height fr * 4 ->
  (rect img).1.1.1 + (rect img).1.2 <= width fr ->
  (rect img).1.1.2 + (rect img).2 <= height fr ->
  x < (rect img).1.2 -> y < (rect img).2 ->
  (forall t i, t ∈ before ++ after -> off <= i < off + 4 ->
     ~ byte_in_tile fr i (rect t)) ->
  read_pixel (foldl blend buf (before ++ img :: after)) off
  = f img (read_pixel buf off) (src img x y).
Proof.
  intros blend off Hlen Hw Hh Hx Hy Hout.
  assert (forall tiles b (i : nat),
            (forall t, t ∈ tiles -> t ∈ before ++ after) ->
            off <= i < off + 4 -> foldl blend b tiles !! i = b !! i) as Hkeep.
  { intros tiles b i Hsub Hi.
    apply (blend_images_outside blend (fun t => ~ byte_in_tile fr i (rect t))).
    - intros b' t Ht. subst blend. cbv beta.
      apply transform_pixels_not_in_tile.
      by destruct (rect t) as [[[x0 y0] w0] h0].
    - intros t Ht. apply Hout; [by apply Hsub|done]. }
  assert (forall b t, length (blend b t) = length b) as Hlen1.
  { intros b t. apply transform_pixels_length. }
  rewrite foldl_app. cbn [foldl].
  rewrite (read_pixel_ext (blend (foldl blend buf before) img)).
  2:{ intros i Hi. apply Hkeep; [|done].
      intros t Ht. apply elem_of_app. by right. }
  subst blend off. cbv beta.
  rewrite transform_pixels_covered; [|split; [|done]|done|done].
  - f_equal. apply read_pixel_ext. intros i Hi. apply Hkeep; [|done].
    intros t Ht. apply elem_of_app. by left.
  - rewrite blend_images_length; [done|]. intros b t. apply transform_pixels_length.
Qed.

(** Over a whole draw: when all blended tiles lie inside the frame and a
    pixel is covered by exactly one tile of the blended list, the pixel
    ends as that tile's blend of the pixel's original value, whatever the
    other tiles are and wherever the tile stands in the list.  This holds
    for the premultiplied-RGBA list (used when [use_rgba] is set and the
    list is not empty) and for the alpha-mask list (used otherwise). *)
Theorem DrawSubtitles_single_tile_pixel render_result frame x y :
  length (data frame) = width frame * height frame * 4 ->
  tiles_in_frame frame (drawn_tiles render_result) ->
  (forall before img after,
     use_rgba render_result = true ->
     imgs_rgba render_result = before ++ img :: after ->
     x < rgba_w img -> y < rgba_h img ->
     let off := dst_offset frame (rgba_dst_x img + x) (rgba_dst_y img + y) in
     (forall t i, t ∈ before ++ after -> off <= i < off + 4 ->
        ~ byte_in_tile frame i (rgba_dst_x t, rgba_dst_y t, rgba_w t, rgba_h t)) ->
     read_pixel (data (DrawSubtitles true true render_result frame)) off
     = blend_rgba (read_pixel (data frame) off) (src_rgba img x y))
  /\ (forall before img after,
        use_rgba render_result = false \/ imgs_rgba render_result = [] ->
        imgs render_result = before ++ img :: after ->
        x < w img -> y < h img ->
        let off := dst_offset frame (dst_x img + x) (dst_y img + y) in
        (forall t i, t ∈ before ++ after -> off <= i < off + 4 ->
           ~ byte_in_tile frame i (dst_x t, dst_y t, w t, h t)) ->
        read_pixel (data (DrawSubtitles true true render_result frame)) off
        = blend_mask (u32 (255 - _a (color img))) (_r (color img)) (_g (color img))
            (_b (color img)) (read_pixel (data frame) off) (src_gray img x y)).
Proof.
  intros Hlen Hin. unfold tiles_in_frame, drawn_tiles in Hin. split.
  - intros before img after Huse Hlist Hx Hy off Hout.
    unfold DrawSubtitles. cbn [negb orb data]. rewrite Huse, Hlist in *.
    rewrite (bool_decide_eq_false_2 (before ++ img :: after = [])) in *
      by (by destruct before).
    cbn [andb negb] in *.
    rewrite Forall_fmap in Hin. apply Forall_app in Hin as [_ Himg].
    apply Forall_inv in Himg. cbn [fst snd] in Himg. destruct Himg as [Hw Hh].
    apply (blend_images_single frame
             (fun t => (rgba_dst_x t, rgba_dst_y t, rgba_w t, rgba_h t))
             src_rgba (fun _ => blend_rgba) before img after (data frame) x y);
      done.
  - intros before img after Hmask Hlist Hx Hy off Hout.
    unfold DrawSubtitles. cbn [negb orb data].
    assert (use_rgba render_result
            && negb (bool_decide (imgs_rgba render_result = [])) = false) as Hsel.
    { destruct Hmask as [-> | ->]; [done|]. by rewrite andb_false_r. }
    rewrite Hsel, Hlist in *.
    rewrite Forall_fmap in Hin. apply Forall_app in Hin as [_ Himg].
    apply Forall_inv in Himg. cbn [fst snd] in Himg. destruct Himg as [Hw Hh].
    apply (blend_images_single frame
             (fun t => (dst_x t, dst_y t, w t, h t)) src_gray
             (fun t => blend_mask (u32 (255 - _a (color t))) (_r (color t))
                         (_g (color t)) (_b (color t)))
             before img after (data frame) x y);
      done.
Qed.

(** Two 1x1 tiles side by side on a 2x1 frame: the second pixel is the
    second tile's blend of its original value. *)
Lemma DrawSubtitles_single_tile_pixel_witness :
  read_pixel
    (data (DrawSubtitles true true
             (mkRenderResult [] [mkImageRGBA 1 1 4 [1; 2; 3; 255]%Z 0 0;
                                 mkImageRGBA 1 1 4 [10; 20; 30; 255]%Z 1 0] true)
             (mkFrame [9; 9; 9; 255; 200; 200; 200; 255]%Z 2 1 false))) 4
  = Pixel 30 20 10 0.
Proof.
  destruct (DrawSubtitles_single_tile_pixel
              (mkRenderResult [] [mkImageRGBA 1 1 4 [1; 2; 3; 255]%Z 0 0;
                                  mkImageRGBA 1 1 4 [10; 20; 30; 255]%Z 1 0] true)
              (mkFrame [9; 9; 9; 255; 200; 200; 200; 255]%Z 2 1 false) 0 0)
    as [Hrgba _].
  - reflexivity.
  - repeat constructor; simpl; lia.
  - apply (Hrgba [mkImageRGBA 1 1 4 [1; 2; 3; 255]%Z 0 0]
             (mkImageRGBA 1 1 4 [10; 20; 30; 255]%Z 1 0) []).
    + reflexivity.
    + reflexivity.
    + simpl; lia.
    + simpl; lia.
    + intros t i Ht Hi. apply list_elem_of_singleton in Ht. subst t.
      intros (x & y & Hx & Hy & Hlo & Hhi). simpl in Hx, Hy.
      assert (x = 0) as -> by lia. assert (y = 0) as -> by lia.
      vm_compute in Hi, Hlo, Hhi. lia.
Defined.

(** *** Fully opaque and fully transparent pixels *)

(** In the premultiplied-RGBA branch a source pixel of alpha 255 replaces
    the destination colour by the source colour, and a premultiplied
    source pixel of alpha 0 leaves the destination colour as it was; the
    destination alpha byte becomes 0 in both cases. *)
Theorem DrawSubtitles_rgba_opaque_transparent fr buf img x y :
  tile_in_frame fr buf (rgba_dst_x img) (rgba_dst_y img) (rgba_w img) (rgba_h img) ->
  x < rgba_w img -> y < rgba_h img ->
  let off := dst_offset fr (rgba_dst_x img + x) (rgba_dst_y img + y) in
  let d := read_pixel buf off in
  let s := src_rgba img x y in
  pixel_u8 d -> pixel_u8 s ->
  (ch3 s = 255%Z ->
   read_pixel (blend_image_rgba fr buf img) off = Pixel (ch2 s) (ch1 s) (ch0 s) 0)
  /\ (ch3 s = 0%Z -> premultiplied s ->
      read_pixel (blend_image_rgba fr buf img) off = Pixel (ch0 d) (ch1 d) (ch2 d) 0).
Proof.
  intros Hin Hx Hy off d s Hd Hs. unfold blend_image_rgba.
  subst off. rewrite transform_pixels_covered by done. fold s.
  fold (dst_offset fr (rgba_dst_x img + x) (rgba_dst_y img + y)). fold d.
  rewrite blend_rgba_bytes by done.
  destruct Hd as (Hd0 & Hd1 & Hd2 & _), Hs as (Hs0 & Hs1 & Hs2 & Hs3).
  unfold is_u8 in *. split.
  - intros ->. change (255 - 255)%Z with 0%Z. rewrite !Z.mul_0_r.
    change (0 / 255)%Z with 0%Z. rewrite !Z.add_0_r.
    by rewrite !u8_small.
  - intros Ha (Hp0 & Hp1 & Hp2). rewrite Ha in *.
    assert (ch0 s = 0%Z) as -> by lia.
    assert (ch1 s = 0%Z) as -> by lia.
    assert (ch2 s = 0%Z) as -> by lia.
    change (255 - 0)%Z with 255%Z. rewrite !Z.div_mul by lia.
    rewrite !Z.add_0_l. by rewrite !u8_small.
Qed.

Lemma DrawSubtitles_rgba_opaque_transparent_witness :
  read_pixel
    (blend_image_rgba (mkFrame [200; 200; 200; 255]%Z 1 1 false) [200; 200; 200; 255]%Z
       (mkImageRGBA 1 1 4 [10; 20; 30; 255]%Z 0 0)) 0
  = Pixel 30 20 10 0.
Proof.
  destruct (DrawSubtitles_rgba_opaque_transparent
              (mkFrame [200; 200; 200; 255]%Z 1 1 false) [200; 200; 200; 255]%Z
              (mkImageRGBA 1 1 4 [10; 20; 30; 255]%Z 0 0) 0 0) as [H1 _].
  - unfold tile_in_frame; simpl; lia.
  - simpl; lia.
  - simpl; lia.
  - unfold pixel_u8, is_u8; simpl; lia.
  - unfold pixel_u8, is_u8; simpl; lia.
  - apply H1. reflexivity.
Defined.

Lemma mix_between k c e :
  (0 <= k <= 255)%Z ->
  (Z.min c e <= (k * c + (255 - k) * e) / 255 <= Z.max c e)%Z.
Proof.
  intros Hk. split.
  - apply Z.div_le_lower_bound; [lia|]. nia.
  - apply Z.div_le_upper_bound; [lia|]. nia.
Qed.

(** In the alpha-mask branch every colour channel of a covered pixel ends
    between its old value and the tile's colour channel.  A tile whose
    colour has alpha byte 255 (opacity 0) leaves the colour channels as
    they were whatever the mask; where the alpha byte is 0 and the mask is
    255 the pixel takes exactly the tile's colour. *)
Theorem DrawSubtitles_mask_between fr buf img x y :
  tile_in_frame fr buf (dst_x img) (dst_y img) (w img) (h img) ->
  x < w img -> y < h img ->
  (0 <= color img < 2 ^ 32)%Z ->
  let off := dst_offset fr (dst_x img + x) (dst_y img + y) in
  let d := read_pixel buf off in
  let m := src_gray img x y in
  pixel_u8 d -> is_u8 m ->
  let p := read_pixel (blend_image_mask fr buf img) off in
  ((Z.min (_b (color img)) (ch0 d) <= ch0 p <= Z.max (_b (color img)) (ch0 d))%Z
   /\ (Z.min (_g (color img)) (ch1 d) <= ch1 p <= Z.max (_g (color img)) (ch1 d))%Z
   /\ (Z.min (_r (color img)) (ch2 d) <= ch2 p <= Z.max (_r (color img)) (ch2 d))%Z
   /\ ch3 p = 0%Z)
  /\ (_a (color img) = 255%Z -> p = Pixel (ch0 d) (ch1 d) (ch2 d) 0)
  /\ (_a (color img) = 0%Z -> m = 255%Z ->
      p = Pixel (_b (color img)) (_g (color img)) (_r (color img)) 0).
Proof.
  intros Hin Hx Hy Hc off d m Hd Hm p. subst p. unfold blend_image_mask.
  subst off. rewrite transform_pixels_covered by done. fold m.
  fold (dst_offset fr (dst_x img + x) (dst_y img + y)). fold d.
  destruct (color_fields (color img) Hc) as (Ha & Hr & Hg & Hb & _).
  assert (is_u8 (255 - _a (color img))) as Ho by (unfold is_u8 in *; lia).
  rewrite (u32_small (255 - _a (color img))) by (unfold is_u8 in *; lia).
  rewrite blend_mask_bytes by done. cbv zeta.
  pose proof (scaled_byte_bound m _ Hm Ho) as Hk.
  set (k := (m * (255 - _a (color img)) / 255)%Z) in *.
  assert (0 <= k <= 255)%Z as Hk' by (unfold is_u8 in *; lia).
  cbn [ch0 ch1 ch2 ch3]. split; [|split].
  - repeat split; try apply mix_between; done.
  - intros Ha255. subst k. rewrite Ha255. change (255 - 255)%Z with 0%Z.
    rewrite Z.mul_0_r. change (0 / 255)%Z with 0%Z. rewrite !Z.mul_0_l, !Z.add_0_l.
    change (255 - 0)%Z with 255%Z. rewrite !(Z.mul_comm 255), !Z.div_mul by lia. done.
  - intros Ha0 Hm255. subst k. rewrite Ha0, Hm255.
    change (255 * (255 - 0) / 255)%Z with 255%Z. change (255 - 255)%Z with 0%Z.
    rewrite !Z.mul_0_l, !Z.add_0_r, !(Z.mul_comm 255), !Z.div_mul by lia. done.
Qed.

Lemma DrawSubtitles_mask_between_witness :
  read_pixel
    (blend_image_mask (mkFrame [9; 9; 9; 255]%Z 1 1 false) [9; 9; 9; 255]%Z
       (mkImage 1 1 1 [255%Z] 16909056 0 0)) 0
  = Pixel 3 2 1 0.
Proof.
  destruct (DrawSubtitles_mask_between (mkFrame [9; 9; 9; 255]%Z 1 1 false)
              [9; 9; 9; 255]%Z (mkImage 1 1 1 [255%Z] 16909056 0 0) 0 0)
    as (_ & _ & H3).
  - unfold tile_in_frame; simpl; lia.
  - simpl; lia.
  - simpl; lia.
  - cbn [color]; lia.
  - unfold pixel_u8, is_u8; simpl; lia.
  - change (is_u8 255); unfold is_u8; lia.
  - apply H3; reflexivity.
Defined.

(** *** Tiles without a common pixel *)

Lemma insert_write_pixel buf off p (j : nat) (v : Z) :
  j < off \/ off + 4 <= j ->
  <[j := v]> (write_pixel buf off p) = write_pixel (<[j := v]> buf) off p.
Proof.
  intros Hj. unfold write_pixel.
  rewrite (list_insert_insert_ne _ j (off + 3)) by lia.
  rewrite (list_insert_insert_ne _ j (off + 2)) by lia.
  rewrite (list_insert_insert_ne _ j (off + 1)) by lia.
  rewrite (list_insert_insert_ne _ j off) by lia.
  done.
Qed.

Lemma write_pixel_commute buf o1 p o2 q :
  o1 + 4 <= o2 \/ o2 + 4 <= o1 ->
  write_pixel (write_pixel buf o1 p) o2 q = write_pixel (write_pixel buf o2 q) o1 p.
Proof.
  intros Hap. unfold write_pixel at 1. rewrite !insert_write_pixel by lia. done.
Qed.

Lemma read_pixel_write_pixel_apart buf o1 p o2 :
  o1 + 4 <= o2 \/ o2 + 4 <= o1 ->
  read_pixel (write_pixel buf o1 p) o2 = read_pixel buf o2.
Proof.
  intros Hap. apply read_pixel_ext. intros i Hi.
  apply write_pixel_lookup_other. lia.
Qed.

Lemma blend_at_commute {S T} (f : pixel -> S -> pixel) (g : pixel -> T -> pixel)
    buf (c1 : nat * S) (c2 : nat * T) :
  c1.1 + 4 <= c2.1 \/ c2.1 + 4 <= c1.1 ->
  blend_at g (blend_at f buf c1) c2 = blend_at f (blend_at g buf c2) c1.
Proof.
  intros Hap. unfold blend_at.
  rewrite !read_pixel_write_pixel_apart by lia.
  by apply write_pixel_commute.
Qed.

Lemma blend_cells_commute_one {S T} (f : pixel -> S -> pixel) (g : pixel -> T -> pixel)
    (c1 : nat * S) (cells2 : list (nat * T)) buf :
  (forall c2, c2 ∈ cells2 -> c1.1 + 4 <= c2.1 \/ c2.1 + 4 <= c1.1) ->
  foldl (blend_at g) (blend_at f buf c1) cells2
  = blend_at f (foldl (blend_at g) buf cells2) c1.
Proof.
  revert buf. induction cells2 as [|c2 cells2 IH]; intros buf Hap; [done|].
  simpl. rewrite blend_at_commute by (apply Hap; by left).
  apply IH. intros c Hc. apply Hap. by right.
Qed.

Lemma blend_cells_commute {S T} (f : pixel -> S -> pixel) (g : pixel -> T -> pixel)
    (cells1 : list (nat * S)) (cells2 : list (nat * T)) buf :
  (forall c1 c2, c1 ∈ cells1 -> c2 ∈ cells2 ->
     c1.1 + 4 <= c2.1 \/ c2.1 + 4 <= c1.1) ->
  foldl (blend_at g) (foldl (blend_at f) buf cells1) cells2
  = foldl (blend_at f) (foldl (blend_at g) buf cells2) cells1.
Proof.
  revert buf. induction cells1 as [|c1 cells1 IH]; intros buf Hap; [done|].
  simpl. rewrite IH by (intros; apply Hap; [by right|done]).
  rewrite <- blend_cells_commute_one by (intros; apply Hap; [by left|done]).
  done.
Qed.

Lemma transform_pixels_as_cells {S} fr x0 y0 w h (src : nat -> nat -> S) f buf :
  transform_pixels fr x0 y0 w h src f buf =
  foldl (blend_at f) buf
    ((fun c => (dst_offset fr (x0 + c.1) (y0 + c.2), src c.1 c.2)) <$> tile_coords w h).
Proof. rewrite transform_pixels_cells. by rewrite foldl_fmap. Qed.

Lemma transform_pixels_commute {S T} fr buf
    x0 y0 w h (src : nat -> nat -> S) f
    x0' y0' w' h' (src' : nat -> nat -> T) g :
  x0 + w <= width fr -> y0 + h <= height fr ->
  x0' + w' <= width fr -> y0' + h' <= height fr ->
  tiles_apart x0 y0 w h x0' y0' w' h' ->
  transform_pixels fr x0' y0' w' h' src' g (transform_pixels fr x0 y0 w h src f buf)
  = transform_pixels fr x0 y0 w h src f (transform_pixels fr x0' y0' w' h' src' g buf).
Proof.
  intros Hw Hh Hw' Hh' Hap. rewrite !transform_pixels_as_cells.
  apply blend_cells_commute.
  intros c1 c2 (xy & -> & Hxy)%list_elem_of_fmap (xy' & -> & Hxy')%list_elem_of_fmap.
  destruct xy as [x y], xy' as [x' y'].
  apply elem_of_tile_coords in Hxy as [Hx Hy].
  apply elem_of_tile_coords in Hxy' as [Hx' Hy'].
  cbn [fst snd]. apply dst_offset_apart; try lia.
  unfold tiles_apart in Hap. intros [= Hex Hey]. lia.
Qed.

(** Tiles that share no pixel can be blended in either order: for two
    tiles of the same list that lie inside the frame and whose rectangles
    are disjoint, blending one then the other gives the same buffer as
    the reverse order. *)
Theorem DrawSubtitles_disjoint_tiles_commute fr buf :
  (forall a b : ASS_ImageRGBA,
     tile_in_frame fr buf (rgba_dst_x a) (rgba_dst_y a) (rgba_w a) (rgba_h a) ->
     tile_in_frame fr buf (rgba_dst_x b) (rgba_dst_y b) (rgba_w b) (rgba_h b) ->
     tiles_apart (rgba_dst_x a) (rgba_dst_y a) (rgba_w a) (rgba_h a)
                 (rgba_dst_x b) (rgba_dst_y b) (rgba_w b) (rgba_h b) ->
     foldl (blend_image_rgba fr) buf [a; b] = foldl (blend_image_rgba fr) buf [b; a])
  /\ (forall a b : ASS_Image,
        tile_in_frame fr buf (dst_x a) (dst_y a) (w a) (h a) ->
        tile_in_frame fr buf (dst_x b) (dst_y b) (w b) (h b) ->
        tiles_apart (dst_x a) (dst_y a) (w a) (h a) (dst_x b) (dst_y b) (w b) (h b) ->
        foldl (blend_image_mask fr) buf [a; b] = foldl (blend_image_mask fr) buf [b; a]).
Proof.
  split.
  - intros a b (_ & Hwa & Hha) (_ & Hwb & Hhb) Hap. simpl.
    unfold blend_image_rgba. by apply transform_pixels_commute.
  - intros a b (_ & Hwa & Hha) (_ & Hwb & Hhb) Hap. simpl.
    unfold blend_image_mask. by apply transform_pixels_commute.
Qed.

End CompositorFacts.

(** ** Trimming and quote stripping *)

Section TextFacts.
Import Text.

Lemma ascii_eqb_false a b : a ≠ b -> ascii_eqb a b = false.
Proof. apply Ascii.eqb_neq. Qed.

Lemma skip_while_head p s :
  skip_while p s = [] \/ exists c t, skip_while p s = c :: t /\ p c = false.
Proof.
  induction s as [|c s IH]; simpl; [by left|].
  destruct (p c) eqn:Hc; [done|]. right. by exists c, s.
Qed.

Lemma skip_while_stop p c s : p c = false -> skip_while p (c :: s) = c :: s.
Proof. intros H. simpl. by rewrite H. Qed.

Lemma skip_while_idem p s : skip_while p (skip_while p s) = skip_while p s.
Proof.
  destruct (skip_while_head p s) as [->|(c & t & -> & Hc)]; [done|].
  by apply skip_while_stop.
Qed.

Lemma skip_while_all p ws s :
  Forall (fun c => p c = true) ws -> skip_while p (ws ++ s) = skip_while p s.
Proof. induction 1 as [|c ws Hc _ IH]; simpl; [done|]. by rewrite Hc. Qed.

Lemma skip_while_snoc p l c :
  p c = false -> skip_while p (l ++ [c]) = skip_while p l ++ [c].
Proof.
  intros Hc. induction l as [|x l IH]; simpl; [by rewrite Hc|].
  destruct (p x); done.
Qed.

Lemma length_skip_while p s : length (skip_while p s) <= length s.
Proof.
  induction s as [|c s IH]; simpl; [done|]. destruct (p c); simpl; lia.
Qed.

Lemma skip_while_back_idem p s :
  skip_while_back p (skip_while_back p s) = skip_while_back p s.
Proof.
  unfold skip_while_back. by rewrite rev_involutive, skip_while_idem.
Qed.

Lemma length_skip_while_back p s : length (skip_while_back p s) <= length s.
Proof.
  unfold skip_while_back. rewrite length_rev.
  etrans; [apply length_skip_while|]. by rewrite length_rev.
Qed.

(** Trailing trimming keeps a leading character that is not trimmed. *)
Lemma skip_while_back_cons p c s :
  p c = false -> exists t, skip_while_back p (c :: s) = c :: t.
Proof.
  intros Hc. unfold skip_while_back. simpl.
  rewrite skip_while_snoc by done. rewrite rev_app_distr. simpl. eauto.
Qed.

Lemma trim_copy_idem s : trim_copy (trim_copy s) = trim_copy s.
Proof.
  unfold trim_copy at 2 3.
  destruct (skip_while_head isspace s) as [->|(c & t & -> & Hc)]; [done|].
  destruct (skip_while_back_cons isspace c t Hc) as [u Hu].
  unfold trim_copy. rewrite Hu, (skip_while_stop _ _ _ Hc), <- Hu.
  apply skip_while_back_idem.
Qed.

(** [trim_copy] is idempotent. *)
Theorem trim_copy_idempotent s : trim_copy (trim_copy s) = trim_copy s.
Proof. apply trim_copy_idem. Qed.

Lemma length_trim_copy s : length (trim_copy s) <= length s.
Proof.
  unfold trim_copy. pose proof (length_skip_while isspace s).
  destruct (skip_while isspace s) eqn:E; simpl; [lia|].
  etrans; [apply length_skip_while_back|]. done.
Qed.

Lemma strip_matching_quotes_trimmed p :
  trim_copy (strip_matching_quotes p) = strip_matching_quotes p.
Proof. unfold strip_matching_quotes. apply trim_copy_idem. Qed.

(** A second application does nothing to a result that is not quoted. *)
Lemma strip_matching_quotes_unquoted p :
  quoted (strip_matching_quotes p) = false ->
  strip_matching_quotes (strip_matching_quotes p) = strip_matching_quotes p.
Proof.
  intros Hq. unfold strip_matching_quotes at 1.
  rewrite strip_matching_quotes_trimmed, Hq.
  apply strip_matching_quotes_trimmed.
Qed.

(** A second application shortens a result that is still quoted. *)
Lemma strip_matching_quotes_quoted p :
  quoted (strip_matching_quotes p) = true ->
  length (strip_matching_quotes (strip_matching_quotes p))
  < length (strip_matching_quotes p).
Proof.
  intros Hq. unfold strip_matching_quotes at 1.
  rewrite strip_matching_quotes_trimmed, Hq.
  set (q := strip_matching_quotes p) in *.
  assert (2 <= length q) as Hlen.
  { unfold quoted in Hq. apply andb_prop in Hq as [Hq _].
    by apply Nat.leb_le in Hq. }
  etrans; [apply Nat.lt_succ_r, length_trim_copy|].
  unfold substr. rewrite length_take. lia.
Qed.

(** C4, the counterexample: on the name [a] wrapped in two pairs of double
    quotes the first application leaves [a] in one pair of quotes and the
    second yields the bare [a]. *)
Lemma strip_matching_quotes_twice_differs :
  strip_matching_quotes [dquote; dquote; "a"%char; dquote; dquote]
    = [dquote; "a"%char; dquote]
  /\ strip_matching_quotes
       (strip_matching_quotes [dquote; dquote; "a"%char; dquote; dquote])
    = ["a"%char]
  /\ strip_matching_quotes
       (strip_matching_quotes [dquote; dquote; "a"%char; dquote; dquote])
    ≠ strip_matching_quotes [dquote; dquote; "a"%char; dquote; dquote].
Proof. repeat split; try reflexivity. intros H. vm_compute in H. discriminate H. Qed.

(** C4, as amended.  [strip_matching_quotes] removes one pair of quotes;
    applying it twice gives the same result as applying it once exactly
    when the first result is not itself enclosed in a matching pair of
    quotes. *)
Theorem strip_matching_quotes_idempotent_iff p :
  strip_matching_quotes (strip_matching_quotes p) = strip_matching_quotes p
  <-> quoted (strip_matching_quotes p) = false.
Proof.
  split.
  - intros Heq. destruct (quoted (strip_matching_quotes p)) eqn:Hq; [|done].
    pose proof (strip_matching_quotes_quoted p Hq) as Hlt.
    rewrite Heq in Hlt. lia.
  - apply strip_matching_quotes_unquoted.
Qed.

(** *** Basename and declared format *)

Lemma find_last_of_from_snoc i set s c found :
  find_last_of_from i set (s ++ [c]) found
  = if existsb (ascii_eqb c) set then Some (i + length s)
    else find_last_of_from i set s found.
Proof.
  revert i found. induction s as [|x s IH]; intros i found; simpl.
  - by rewrite Nat.add_0_r.
  - rewrite IH. by rewrite Nat.add_succ_r.
Qed.

Lemma find_last_of_from_bound i set s found j :
  find_last_of_from i set s found = Some j ->
  found = Some j \/ (i <= j < i + length s).
Proof.
  revert i found. induction s as [|x s IH]; intros i found; simpl; [by left|].
  intros H. apply IH in H as [H|H]; [|right; lia].
  destruct (existsb _ _); [|by left]. injection H as <-. right. lia.
Qed.

Lemma path_basename_snoc s c :
  path_basename (s ++ [c]) = if is_sep c then [] else path_basename s ++ [c].
Proof.
  unfold path_basename, find_last_of, is_sep. rewrite find_last_of_from_snoc.
  destruct (existsb _ _).
  - simpl. rewrite drop_ge; [done|]. rewrite length_app. simpl. lia.
  - destruct (find_last_of_from 0 _ s None) as [cut|] eqn:Hcut; [|done].
    apply find_last_of_from_bound in Hcut as [?|?]; [done|].
    rewrite drop_app_le by lia. done.
Qed.

(** The basename is the part of the path after its last separator. *)
Lemma path_basename_split p :
  exists pre, p = pre ++ path_basename p
    /\ (pre = [] \/ exists pre' c, pre = pre' ++ [c] /\ is_sep c = true).
Proof.
  induction p as [|c s IH] using rev_ind.
  - exists []. split; [done|by left].
  - rewrite path_basename_snoc. destruct (is_sep c) eqn:Hc.
    + exists (s ++ [c]). split; [by rewrite app_nil_r|]. right. by exists s, c.
    + destruct IH as (pre & Hs & Hpre). exists pre. split; [|done].
      rewrite app_assoc. by rewrite <- Hs.
Qed.

Lemma img_ascii_tolower_sep c : is_sep c = true -> img_ascii_tolower c = c.
Proof.
  unfold is_sep. simpl. rewrite orb_false_r. intros H.
  apply orb_prop in H as [H|H]; apply Ascii.eqb_eq in H; by subst.
Qed.

Lemma ends_with_app_r x y suf :
  length suf <= length y -> ends_with (x ++ y) suf = ends_with y suf.
Proof.
  intros Hlen. unfold ends_with. rewrite length_app.
  rewrite drop_app_ge by lia.
  replace (length x + length y - length suf - length x)
    with (length y - length suf) by lia.
  destruct (length suf <=? length y) eqn:H1; [|apply Nat.leb_gt in H1; lia].
  destruct (length suf <=? length x + length y) eqn:H2; [done|].
  apply Nat.leb_gt in H2. lia.
Qed.

(** Whether a path ends in a given extension is decided by its basename. *)
Lemma ends_with_basename p suf :
  Forall (fun c => is_sep c = false) suf ->
  ends_with (to_lower_copy p) suf = ends_with (to_lower_copy (path_basename p)) suf.
Proof.
  intros Hsuf. destruct (path_basename_split p) as (pre & Hp & Hpre).
  set (b := path_basename p) in *. rewrite Hp at 1.
  unfold to_lower_copy. rewrite map_app.
  destruct (decide (length suf <= length b)) as [Hle|Hgt].
  - apply ends_with_app_r. by rewrite length_map.
  - transitivity false; [|symmetry].
    + destruct (ends_with _ suf) eqn:Hends; [exfalso|done].
      unfold ends_with in Hends. apply andb_prop in Hends as [Hlen Hdrop].
      apply Nat.leb_le in Hlen. apply bool_decide_eq_true_1 in Hdrop.
      rewrite length_app, !length_map in *.
      destruct Hpre as [->|(pre' & c & -> & Hc)]; [simpl in *; lia|].
      rewrite map_app, <- app_assoc in Hdrop. simpl in Hdrop.
      rewrite length_app in *. simpl in *.
      rewrite drop_app_le in Hdrop by (rewrite length_map; lia).
      rewrite (img_ascii_tolower_sep c Hc) in Hdrop.
      assert (c ∈ suf) as Hin.
      { rewrite <- Hdrop. apply elem_of_app. right. by left. }
      rewrite Forall_forall in Hsuf. apply Hsuf in Hin. congruence.
    + unfold ends_with. rewrite length_map.
      destruct (length suf <=? length b) eqn:H1; [|done].
      apply Nat.leb_le in H1. lia.
Qed.

(** The declared format of a path is a function of its lower-case
    basename. *)
Lemma parse_tag_image_format_basename p k :
  to_lower_copy (path_basename p) = to_lower_copy (path_basename k) ->
  parse_tag_image_format p = parse_tag_image_format k.
Proof.
  intros Heq. unfold parse_tag_image_format.
  rewrite !(ends_with_basename p), !(ends_with_basename k), Heq;
    by repeat constructor.
Qed.

Lemma last_app_nonempty (a b : list ascii) d : b ≠ [] -> List.last (a ++ b) d = List.last b d.
Proof.
  intros Hb. induction a as [|x a IH]; [done|].
  simpl. rewrite IH. destruct (a ++ b) eqn:E; [|done].
  by apply app_eq_nil in E as [_ ?].
Qed.

Lemma back_map (f : ascii -> ascii) s : s ≠ [] -> back (map f s) = f (back s).
Proof.
  unfold back. induction s as [|x s IH]; [done|]. intros _.
  destruct s as [|y s]; [done|]. simpl in *. by apply IH.
Qed.

Lemma ends_with_back s suf :
  ends_with s suf = true -> suf ≠ [] -> back s = back suf.
Proof.
  unfold ends_with. intros H Hsuf. apply andb_prop in H as [_ H].
  apply bool_decide_eq_true_1 in H.
  rewrite <- (take_drop (length s - length suf) s) at 1.
  unfold back. rewrite last_app_nonempty by (by rewrite H). by rewrite H.
Qed.

(** A path with a recognised extension does not end in a quote. *)
Lemma parse_tag_image_format_back p fmt :
  parse_tag_image_format p = Some fmt ->
  back p ≠ dquote /\ back p ≠ squote /\ p ≠ [].
Proof.
  unfold parse_tag_image_format. intros H.
  assert (exists x, back (to_lower_copy p) = x /\ x ≠ dquote /\ x ≠ squote /\ p ≠ [])
    as (x & Hx & Hd & Hs & Hp).
  { destruct (ends_with _ (chars ".png")) eqn:E1.
    { apply ends_with_back in E1; [|done]. eexists; split; [exact E1|].
      repeat split; try done. by intros ->. }
    destruct (ends_with _ (chars ".jpg")) eqn:E2.
    { apply ends_with_back in E2; [|done]. eexists; split; [exact E2|].
      repeat split; try done. by intros ->. }
    destruct (ends_with _ (chars ".jpeg")) eqn:E3.
    { apply ends_with_back in E3; [|done]. eexists; split; [exact E3|].
      repeat split; try done. by intros ->. }
    destruct (ends_with _ (chars ".webp")) eqn:E4; [|done].
    apply ends_with_back in E4; [|done]. eexists; split; [exact E4|].
    repeat split; try done. by intros ->. }
  unfold to_lower_copy in Hx. rewrite back_map in Hx by done.
  split; [|split; [|done]]; intros Hb; rewrite Hb in Hx; by subst x.
Qed.

Lemma parse_tag_image_format_not_quoted p fmt :
  parse_tag_image_format p = Some fmt -> quoted p = false.
Proof.
  intros H. apply parse_tag_image_format_back in H as (Hd & Hs & _).
  unfold quoted. apply ascii_eqb_false in Hd, Hs. rewrite Hd, Hs.
  by rewrite !andb_false_r.
Qed.

Lemma back_add_double_quotes x : back (add_double_quotes x) = dquote.
Proof.
  unfold back, add_double_quotes.
  rewrite (app_comm_cons x [dquote] dquote). apply last_last.
Qed.

(** A path with a recognised extension is never a double-quoted key. *)
Lemma parsed_not_double_quoted p fmt x :
  parse_tag_image_format p = Some fmt -> p ≠ add_double_quotes x.
Proof.
  intros H ->. apply parse_tag_image_format_back in H as (Hd & _).
  by rewrite back_add_double_quotes in Hd.
Qed.

(** A trimmed path with a recognised extension is a fixed point of
    [strip_matching_quotes]. *)
Lemma strip_matching_quotes_fixed p fmt :
  parse_tag_image_format p = Some fmt -> trim_copy p = p ->
  strip_matching_quotes p = p.
Proof.
  intros Hfmt Htrim. unfold strip_matching_quotes.
  rewrite Htrim, (parse_tag_image_format_not_quoted p fmt Hfmt). done.
Qed.

(** A stripped path with a recognised extension is a fixed point of
    [strip_matching_quotes]: it is registered under itself. *)
Lemma strip_matching_quotes_parsed raw fmt :
  parse_tag_image_format (strip_matching_quotes raw) = Some fmt ->
  strip_matching_quotes (strip_matching_quotes raw) = strip_matching_quotes raw.
Proof.
  intros H. apply strip_matching_quotes_unquoted.
  by eapply parse_tag_image_format_not_quoted.
Qed.

Lemma skip_while_split p s :
  exists pre, s = pre ++ skip_while p s /\ Forall (fun c => p c = true) pre.
Proof.
  induction s as [|c s IH]; simpl.
  - by exists [].
  - destruct (p c) eqn:Hc.
    + destruct IH as (pre & Hs & Hpre). exists (c :: pre). split.
      * simpl. by rewrite <- Hs.
      * by constructor.
    + by exists [].
Qed.

Lemma skip_while_back_split p s :
  exists post, s = skip_while_back p s ++ post /\ Forall (fun c => p c = true) post.
Proof.
  unfold skip_while_back.
  destruct (skip_while_split p (rev s)) as (pre & Hs & Hpre).
  exists (rev pre). split.
  - apply (f_equal (@rev ascii)) in Hs.
    by rewrite rev_involutive, rev_app_distr in Hs.
  - by apply Forall_rev.
Qed.

Lemma back_snoc s c : back (s ++ [c]) = c.
Proof. unfold back. apply last_last. Qed.

Lemma skip_while_back_last p s :
  skip_while_back p s = [] \/ p (back (skip_while_back p s)) = false.
Proof.
  unfold skip_while_back.
  destruct (skip_while_head p (rev s)) as [->|(c & t & -> & Hc)]; [by left|].
  right. simpl. by rewrite back_snoc.
Qed.

(** [trim_copy] cuts whitespace, and nothing else, from both ends: the
    input is the result between two runs of whitespace, and a non-empty
    result neither starts nor ends with whitespace. *)
Theorem trim_copy_spec s :
  exists pre post,
    s = pre ++ trim_copy s ++ post
    /\ Forall (fun c => isspace c = true) pre
    /\ Forall (fun c => isspace c = true) post
    /\ (trim_copy s = []
        \/ (isspace (front (trim_copy s)) = false
            /\ isspace (back (trim_copy s)) = false)).
Proof.
  destruct (skip_while_split isspace s) as (pre & Hs & Hpre).
  unfold trim_copy.
  destruct (skip_while_head isspace s) as [He|(c & t & He & Hc)].
  - rewrite He in *. exists pre, []. repeat split; try done. by left.
  - rewrite He in *.
    destruct (skip_while_back_split isspace (c :: t)) as (post & Ht & Hpost).
    exists pre, post. split; [by rewrite <- Ht|]. split; [done|]. split; [done|].
    right. destruct (skip_while_back_cons isspace c t Hc) as [u Hu]. split.
    + by rewrite Hu.
    + destruct (skip_while_back_last isspace (c :: t)) as [Hnil|Hb]; [|done].
      by rewrite Hu in Hnil.
Qed.

Lemma trim_copy_no_space_ends c s d :
  isspace c = false -> isspace d = false ->
  trim_copy (c :: s ++ [d]) = c :: s ++ [d].
Proof.
  intros Hc Hd. unfold trim_copy. rewrite (skip_while_stop _ _ _ Hc).
  unfold skip_while_back. change (c :: s ++ [d]) with ((c :: s) ++ [d]).
  rewrite rev_unit, (skip_while_stop _ _ _ Hd), <- rev_unit.
  by rewrite rev_involutive.
Qed.

(** Stripping undoes quoting: the double-quoted key of a path strips back
    to the trimmed path. *)
Theorem strip_matching_quotes_add_double_quotes p :
  strip_matching_quotes (add_double_quotes p) = trim_copy p.
Proof.
  unfold strip_matching_quotes, add_double_quotes.
  rewrite trim_copy_no_space_ends by done.
  assert (quoted (dquote :: p ++ [dquote]) = true) as ->.
  { unfold quoted. apply andb_true_intro. split.
    - apply Nat.leb_le. simpl. rewrite length_app. simpl. lia.
    - apply orb_true_intro. left. apply andb_true_intro. split; [done|].
      change (dquote :: p ++ [dquote]) with ((dquote :: p) ++ [dquote]).
      by rewrite back_snoc. }
  f_equal. unfold substr. simpl. rewrite length_app. simpl.
  replace (length p + 1 - 1) with (length p) by lia.
  by rewrite drop_0, take_app_length.
Qed.

Lemma path_basename_no_sep p : Forall (fun c => is_sep c = false) (path_basename p).
Proof.
  induction p as [|c s IH] using rev_ind; [by constructor|].
  rewrite path_basename_snoc. destruct (is_sep c) eqn:Hc; [by constructor|].
  apply Forall_app. split; [done|]. by constructor.
Qed.

Lemma path_basename_join dir c name :
  is_sep c = true -> Forall (fun x => is_sep x = false) name ->
  path_basename (dir ++ c :: name) = name.
Proof.
  intros Hc. induction name as [|x name IH] using rev_ind; intros Hname.
  - by rewrite path_basename_snoc, Hc.
  - apply Forall_app in Hname as [Hname Hx]. apply Forall_inv in Hx.
    change (dir ++ c :: name ++ [x]) with (dir ++ (c :: name) ++ [x]).
    rewrite app_assoc, path_basename_snoc, Hx. by rewrite IH.
Qed.

(** [path_basename] returns the part of the path after its last
    separator: the path is a directory part, empty or ending in a
    separator, followed by the basename, which holds no separator; and a
    separator-free name is recovered from any directory joined to it. *)
Theorem path_basename_spec :
  (forall path, exists dir,
     path = dir ++ path_basename path
     /\ (dir = [] \/ is_sep (back dir) = true)
     /\ Forall (fun c => is_sep c = false) (path_basename path))
  /\ (forall dir c name,
        is_sep c = true -> Forall (fun x => is_sep x = false) name ->
        path_basename (dir ++ c :: name) = name).
Proof.
  split.
  - intros path. destruct (path_basename_split path) as (dir & Hp & Hdir).
    exists dir. split; [done|]. split; [|apply path_basename_no_sep].
    destruct Hdir as [->|(pre' & c & -> & Hc)]; [by left|].
    right. by rewrite back_snoc.
  - apply path_basename_join.
Qed.

Lemma img_ascii_tolower_idem c :
  img_ascii_tolower (img_ascii_tolower c) = img_ascii_tolower c.
Proof. by destruct c as [[] [] [] [] [] [] [] []]. Qed.

Lemma to_lower_copy_idem s : to_lower_copy (to_lower_copy s) = to_lower_copy s.
Proof.
  unfold to_lower_copy. rewrite map_map. apply map_ext.
  intros c. apply img_ascii_tolower_idem.
Qed.

Lemma path_basename_idem p : path_basename (path_basename p) = path_basename p.
Proof.
  pose proof (path_basename_no_sep p) as H.
  induction (path_basename p) as [|c s IH] using rev_ind; [done|].
  apply Forall_app in H as [Hs Hc]. apply Forall_inv in Hc.
  rewrite path_basename_snoc, Hc. by rewrite IH.
Qed.

(** The declared format of a path depends neither on letter case nor on
    the directory part: it is that of the lower-cased path and that of the
    basename. *)
Theorem parse_tag_image_format_case_and_directory path :
  parse_tag_image_format (to_lower_copy path) = parse_tag_image_format path
  /\ parse_tag_image_format (path_basename path) = parse_tag_image_format path.
Proof.
  split.
  - unfold parse_tag_image_format. by rewrite to_lower_copy_idem.
  - apply parse_tag_image_format_basename. by rewrite path_basename_idem.
Qed.

(** *** What trimming and stripping leave at the ends *)

Lemma trim_copy_ends s :
  trim_copy s ≠ [] ->
  isspace (front (trim_copy s)) = false /\ isspace (back (trim_copy s)) = false.
Proof.
  unfold trim_copy.
  destruct (skip_while_head isspace s) as [He|(c & t & He & Hc)]; rewrite He; [done|].
  intros _. destruct (skip_while_back_cons isspace c t Hc) as [u Hu]. split.
  - by rewrite Hu.
  - destruct (skip_while_back_last isspace (c :: t)) as [Hnil|Hb]; [|done].
    by rewrite Hu in Hnil.
Qed.

Lemma trim_copy_core lead core trail :
  Forall (fun c => isspace c = true) lead ->
  Forall (fun c => isspace c = true) trail ->
  core ≠ [] -> isspace (front core) = false -> isspace (back core) = false ->
  trim_copy (lead ++ core ++ trail) = core.
Proof.
  intros Hlead Htrail Hne Hfront Hback. unfold trim_copy.
  rewrite skip_while_all by done.
  destruct core as [|c s]; [done|]. simpl in Hfront.
  change ((c :: s) ++ trail) with (c :: s ++ trail).
  rewrite (skip_while_stop _ _ _ Hfront).
  unfold skip_while_back. change (c :: s ++ trail) with ((c :: s) ++ trail).
  rewrite rev_app_distr, skip_while_all by by apply Forall_rev.
  destruct (@exists_last _ (c :: s)) as (s' & d & Heq); [done|].
  rewrite Heq in *. rewrite back_snoc in Hback.
  rewrite rev_unit, (skip_while_stop _ _ _ Hback), <- rev_unit.
  apply rev_involutive.
Qed.

Lemma quoted_front p : is_nil p = false ->
  ascii_eqb (front p) dquote || ascii_eqb (front p) squote = false -> quoted p = false.
Proof.
  intros _ Hq. unfold quoted. apply orb_false_elim in Hq as [-> ->].
  by rewrite andb_false_r.
Qed.

Lemma strip_matching_quotes_core lead core trail :
  Forall (fun c => isspace c = true) lead ->
  Forall (fun c => isspace c = true) trail ->
  core ≠ [] -> isspace (front core) = false -> isspace (back core) = false ->
  quoted core = false ->
  strip_matching_quotes (lead ++ core ++ trail) = core.
Proof.
  intros Hlead Htrail Hne Hfront Hback Hq. unfold strip_matching_quotes.
  rewrite trim_copy_core, Hq by done.
  pose proof (trim_copy_core [] core [] (Forall_nil_2 _) (Forall_nil_2 _) Hne Hfront Hback)
    as H.
  simpl in H. by rewrite app_nil_r in H.
Qed.

Lemma strip_matching_quotes_ends p :
  strip_matching_quotes p ≠ [] ->
  isspace (front (strip_matching_quotes p)) = false
  /\ isspace (back (strip_matching_quotes p)) = false.
Proof. unfold strip_matching_quotes. apply trim_copy_ends. Qed.

End TextFacts.

(** ** The image-tag extractor *)

Section ExtractorFacts.
Import Text Extractor.

Lemma take_while_stop p l tail :
  Forall (fun c => p c = true) l ->
  (tail = [] \/ exists e t, tail = e :: t /\ p e = false) ->
  take_while p (l ++ tail) = l.
Proof.
  intros Hl Htail. induction Hl as [|c l Hc _ IH]; simpl.
  - destruct Htail as [->|(e & t & -> & He)]; [done|]. simpl. by rewrite He.
  - by rewrite Hc, IH.
Qed.

Lemma ascii_eqb_eq a b : ascii_eqb a b = true <-> a = b.
Proof. apply Ascii.eqb_eq. Qed.

Lemma ascii_eqb_neq a b : ascii_eqb a b = false <-> a ≠ b.
Proof. apply Ascii.eqb_neq. Qed.

(** At the start of a well-formed tag the scanner reaches the argument. *)
Lemma img_argument_tag digit ws1 ws2 rest :
  tag_ok digit ws1 ws2 ->
  img_argument (tag digit ws1 ws2 rest) = argument_text (skip_while is_blank rest).
Proof.
  intros (Hd & Hws1 & Hws2). unfold tag, img_argument.
  change (negb (ascii_eqb backslash backslash)) with false. cbv iota.
  assert (forall t, skip_while is_blank (ws1 ++ "("%char :: ws2 ++ t)
                    = "("%char :: ws2 ++ t) as Hskip1.
  { intros t. by rewrite skip_while_all. }
  destruct digit as [d|]; simpl option_list.
  - simpl. rewrite Hd. rewrite Hskip1. simpl. by rewrite skip_while_all.
  - simpl. rewrite Hskip1. simpl. by rewrite skip_while_all.
Qed.

(** An unquoted argument: characters up to the first [','] or [')'], or
    up to the end of the text when there is none. *)
Lemma argument_text_unquoted c arg tail :
  is_quote_char c = false ->
  Forall (fun x => is_arg_end x = false) (c :: arg) ->
  (tail = [] \/ exists e t, tail = e :: t /\ is_arg_end e = true) ->
  argument_text (c :: arg ++ tail) = Some (c :: arg).
Proof.
  intros Hq Harg Htail. unfold argument_text. rewrite Hq.
  rewrite (app_comm_cons arg tail c), take_while_stop; [done| |].
  - eapply Forall_impl; [exact Harg|]. intros x Hx. simpl in Hx. by rewrite Hx.
  - destruct Htail as [->|(e & t & -> & He)]; [by left|right].
    exists e, t. by rewrite He.
Qed.

(** A quoted argument: characters up to the matching quote, or up to the
    end of the text when the quote is never closed. *)
Lemma argument_text_quoted q arg tail :
  is_quote_char q = true -> arg ≠ [] ->
  Forall (fun x => x ≠ q) arg ->
  (tail = [] \/ exists t, tail = q :: t) ->
  argument_text (q :: arg ++ tail) = Some arg.
Proof.
  intros Hq Hne Harg Htail. unfold argument_text. rewrite Hq.
  rewrite take_while_stop.
  - by destruct arg.
  - eapply Forall_impl; [exact Harg|]. intros x Hx. simpl in Hx.
    apply ascii_eqb_neq in Hx. by rewrite Hx.
  - destruct Htail as [->|(t & ->)]; [by left|right].
    exists q, t. split; [done|].
    assert (ascii_eqb q q = true) as -> by by apply ascii_eqb_eq. done.
Qed.

Lemma argument_text_empty_unquoted e post :
  is_arg_end e = true -> argument_text (e :: post) = None.
Proof.
  intros He. unfold argument_text.
  assert (is_quote_char e = false) as ->.
  { unfold is_arg_end in He. apply orb_prop in He as [He|He];
      apply ascii_eqb_eq in He; by subst. }
  simpl. by rewrite He.
Qed.

Lemma argument_text_empty_quoted q post :
  is_quote_char q = true -> argument_text (q :: q :: post) = None.
Proof.
  intros Hq. unfold argument_text. rewrite Hq. simpl.
  assert (ascii_eqb q q = true) as -> by by apply ascii_eqb_eq. done.
Qed.

Lemma skip_blank_stop c s : is_blank c = false -> skip_while is_blank (c :: s) = c :: s.
Proof. apply skip_while_stop. Qed.

Lemma is_arg_end_not_blank e : is_arg_end e = true -> is_blank e = false.
Proof.
  unfold is_arg_end. intros He. apply orb_prop in He as [He|He];
    apply ascii_eqb_eq in He; by subst.
Qed.

Lemma is_quote_not_blank q : is_quote_char q = true -> is_blank q = false.
Proof.
  unfold is_quote_char. intros He. apply orb_prop in He as [He|He];
    apply ascii_eqb_eq in He; by subst.
Qed.

(** C3, the counterexamples: an argument that is never terminated, quoted
    or not, still contributes the rest of the text as a path. *)
Lemma unterminated_argument_yields_path :
  (collect_img_paths_from_span (chars "\img(abc") ([], ∅)).1 = [chars "abc"]
  /\ (collect_img_paths_from_span (chars "\img(" ++ dquote :: chars "abc") ([], ∅)).1
     = [chars "abc"].
Proof. split; vm_compute; reflexivity. Qed.

(** C3, as amended.  At an image tag (optional digit 1-4, blanks around the
    parenthesis) an empty argument contributes nothing: a [','] or [')']
    directly after the blanks, a closing quote directly after the opening
    quote, or the end of the text.  An unterminated argument is not
    rejected: it extends to the end of the scanned text and is pushed like
    a terminated one (stripped, unless empty or already seen). *)
Theorem img_tag_empty_or_unterminated digit ws1 ws2 acc :
  tag_ok digit ws1 ws2 ->
  (forall e post, is_arg_end e = true ->
     scan_position (tag digit ws1 ws2 (e :: post)) acc = acc)
  /\ (forall q post, is_quote_char q = true ->
        scan_position (tag digit ws1 ws2 (q :: q :: post)) acc = acc)
  /\ scan_position (tag digit ws1 ws2 []) acc = acc
  /\ (forall c arg, is_blank c = false -> is_quote_char c = false ->
        Forall (fun x => is_arg_end x = false) (c :: arg) ->
        scan_position (tag digit ws1 ws2 (c :: arg)) acc = push_path (c :: arg) acc)
  /\ (forall q arg, is_quote_char q = true -> arg ≠ [] ->
        Forall (fun x => x ≠ q) arg ->
        scan_position (tag digit ws1 ws2 (q :: arg)) acc = push_path arg acc).
Proof.
  intros Hok. unfold scan_position. repeat split.
  - intros e post He. rewrite img_argument_tag by done.
    rewrite skip_blank_stop by by apply is_arg_end_not_blank.
    by rewrite argument_text_empty_unquoted.
  - intros q post Hq. rewrite img_argument_tag by done.
    rewrite skip_blank_stop by by apply is_quote_not_blank.
    by rewrite argument_text_empty_quoted.
  - by rewrite img_argument_tag.
  - intros c arg Hb Hq Harg. rewrite img_argument_tag by done.
    rewrite skip_blank_stop by done.
    rewrite <- (app_nil_r arg) at 1.
    rewrite argument_text_unquoted; [done..|by left].
  - intros q arg Hq Hne Harg. rewrite img_argument_tag by done.
    rewrite skip_blank_stop by by apply is_quote_not_blank.
    rewrite <- (app_nil_r arg) at 1.
    rewrite argument_text_quoted; [done..|by left].
Qed.

Lemma img_tag_empty_or_unterminated_witness :
  scan_position (chars "\img()") ([], ∅) = ([], ∅)
  /\ scan_position (chars "\img(abc") ([], ∅) = push_path (chars "abc") ([], ∅).
Proof.
  assert (tag_ok None [] []) as Hok by (repeat split; constructor).
  destruct (img_tag_empty_or_unterminated None [] [] ([], ∅) Hok)
    as (Hempty & _ & _ & Hopen & _).
  split.
  - apply (Hempty ")"%char []). reflexivity.
  - apply (Hopen "a"%char (chars "bc")); [reflexivity|reflexivity|].
    repeat constructor.
Defined.

(** *** The scan as a fold over positions, and deduplication *)

Lemma scanned_suffixes_short data :
  length data <= 4 -> filter (fun s => 4 < length s) (suffixes data) = [].
Proof.
  induction data as [|c data IH]; intros Hlen; [done|].
  simpl suffixes. rewrite filter_cons_False by lia.
  apply IH. simpl in Hlen. lia.
Qed.

Lemma collect_img_paths_from_span_fold data acc :
  collect_img_paths_from_span data acc
  = foldl (fun acc s => scan_position s acc) acc
      (filter (fun s => 4 < length s) (suffixes data)).
Proof.
  revert acc. induction data as [|c data IH]; intros acc; [done|].
  simpl collect_img_paths_from_span. simpl suffixes.
  destruct (4 <? S (length data)) eqn:Hlen.
  - apply Nat.ltb_lt in Hlen. rewrite filter_cons_True by (simpl; lia).
    simpl. apply IH.
  - apply Nat.ltb_ge in Hlen. rewrite filter_cons_False by (simpl; lia).
    rewrite scanned_suffixes_short; [done|]. lia.
Qed.

Lemma scan_position_candidate s acc :
  scan_position s acc =
  match candidate s with Some path => add_path acc path | None => acc end.
Proof.
  unfold scan_position, candidate, push_path.
  destruct (img_argument s) as [raw|]; [|done].
  by destruct (is_nil (strip_matching_quotes raw)).
Qed.

Lemma fold_scan_positions l acc :
  foldl (fun acc s => scan_position s acc) acc l
  = foldl add_path acc (omap candidate l).
Proof.
  revert acc. induction l as [|s l IH]; intros acc; [done|].
  simpl. rewrite IH, scan_position_candidate.
  by destruct (candidate s).
Qed.

Lemma first_occurrences_filter (P : list ascii -> Prop) `{!forall x, Decision (P x)} l :
  first_occurrences (filter P l) = filter P (first_occurrences l).
Proof.
  induction l as [|x l IH]; [done|]. simpl first_occurrences.
  destruct (decide (P x)) as [HP|HP].
  - rewrite !filter_cons_True by done. simpl. f_equal.
    rewrite IH, !list_filter_filter. apply list_filter_iff. tauto.
  - rewrite !filter_cons_False by done. rewrite IH.
    symmetry. apply list_filter_filter_l. intros y Hy ->. done.
Qed.

Lemma elem_of_first_occurrences l x : x ∈ first_occurrences l <-> x ∈ l.
Proof.
  induction l as [|y l IH]; [done|]. simpl.
  rewrite !elem_of_cons, list_elem_of_filter, IH.
  destruct (decide (x = y)); tauto.
Qed.

Lemma NoDup_first_occurrences l : NoDup (first_occurrences l).
Proof.
  induction l as [|y l IH]; simpl; [constructor|].
  apply NoDup_cons. split; [|by apply NoDup_filter].
  rewrite list_elem_of_filter. tauto.
Qed.

(** With [seen] holding exactly the values of [paths], the pushes append
    the first occurrences of the new values. *)
Lemma fold_add_path l (acc : scan_acc) :
  (forall x, x ∈ acc.2 <-> x ∈ acc.1) ->
  (foldl add_path acc l).1
  = acc.1 ++ first_occurrences (filter (fun x => x ∉ acc.1) l).
Proof.
  revert acc. induction l as [|x l IH]; intros [paths seen] Hinv; simpl in *.
  - by rewrite app_nil_r.
  - unfold add_path at 2. simpl. destruct (decide (x ∈ seen)) as [Hx|Hx].
    + rewrite IH by done. simpl. rewrite filter_cons_False; [done|].
      intros Hn. apply Hn. by apply Hinv.
    + rewrite IH; simpl.
      * rewrite filter_cons_True by (by rewrite <- Hinv).
        simpl. rewrite <- app_assoc. simpl. do 2 f_equal.
        rewrite <- first_occurrences_filter, list_filter_filter.
        f_equal. apply list_filter_iff. intros y.
        rewrite elem_of_app, list_elem_of_singleton. tauto.
      * intros y. rewrite elem_of_union, elem_of_singleton, elem_of_app,
          list_elem_of_singleton, Hinv. tauto.
Qed.

Lemma collect_img_paths_from_span_first_occurrences data :
  (collect_img_paths_from_span data ([], ∅)).1 = first_occurrences (candidates data).
Proof.
  rewrite collect_img_paths_from_span_fold, fold_scan_positions, fold_add_path.
  - simpl. unfold candidates. f_equal.
    induction (omap _ _) as [|y l IH]; [done|].
    rewrite filter_cons_True by apply not_elem_of_nil. by rewrite IH.
  - intros x. simpl. split; [by intros ?%not_elem_of_empty|by intros ?%not_elem_of_nil].
Qed.

Lemma elem_of_suffixes pre s : s ≠ [] -> s ∈ suffixes (pre ++ s).
Proof.
  intros Hs. induction pre as [|c pre IH]; simpl.
  - destruct s; [done|]. simpl. by left.
  - by right.
Qed.

Lemma length_tag digit ws1 ws2 rest :
  5 + length rest <= length (tag digit ws1 ws2 rest).
Proof.
  unfold tag. simpl length. repeat (rewrite length_app; simpl length). lia.
Qed.

(** A tag whose argument strips to a non-empty value is found wherever it
    stands in the text. *)
Lemma tag_candidate_collected pre digit ws1 ws2 rest raw :
  tag_ok digit ws1 ws2 ->
  argument_text (skip_while is_blank rest) = Some raw ->
  strip_matching_quotes raw ≠ [] ->
  strip_matching_quotes raw
    ∈ (collect_img_paths_from_span (pre ++ tag digit ws1 ws2 rest) ([], ∅)).1.
Proof.
  intros Hok Harg Hne.
  rewrite collect_img_paths_from_span_first_occurrences, elem_of_first_occurrences.
  unfold candidates. apply list_elem_of_omap.
  exists (tag digit ws1 ws2 rest). split.
  - apply list_elem_of_filter. split.
    + pose proof (length_tag digit ws1 ws2 rest).
      destruct rest; [done|]. simpl in *. lia.
    + apply elem_of_suffixes. by unfold tag.
  - unfold candidate. rewrite img_argument_tag, Harg by done.
    by destruct (strip_matching_quotes raw).
Qed.

Lemma is_blank_isspace c : is_blank c = true -> isspace c = true.
Proof.
  unfold is_blank. intros [H|H]%orb_prop; apply ascii_eqb_eq in H; by subst.
Qed.

Lemma not_space_not_blank c : isspace c = false -> is_blank c = false.
Proof.
  intros Hc. destruct (is_blank c) eqn:Hb; [|done].
  apply is_blank_isspace in Hb. congruence.
Qed.

Lemma collected_path_ends data p :
  p ∈ (collect_img_paths_from_span data ([], ∅)).1 ->
  p ≠ [] /\ isspace (front p) = false /\ isspace (back p) = false.
Proof.
  rewrite collect_img_paths_from_span_first_occurrences, elem_of_first_occurrences.
  unfold candidates. intros (s & _ & Hs)%list_elem_of_omap.
  unfold candidate in Hs. destruct (img_argument s) as [raw|]; [|done].
  destruct (strip_matching_quotes raw) as [|c path] eqn:Hraw; [done|].
  injection Hs as <-. split; [done|]. rewrite <- Hraw.
  apply strip_matching_quotes_ends. by rewrite Hraw.
Qed.

Lemma unquoted_tag_collected pre digit ws1 ws2 core trail e post :
  tag_ok digit ws1 ws2 ->
  core ≠ [] -> isspace (front core) = false -> isspace (back core) = false ->
  is_quote_char (front core) = false ->
  Forall (fun x => is_arg_end x = false) (core ++ trail) ->
  Forall (fun x => isspace x = true) trail ->
  is_arg_end e = true ->
  core ∈ (collect_img_paths_from_span
            (pre ++ tag digit ws1 ws2 (core ++ trail ++ e :: post)) ([], ∅)).1.
Proof.
  intros Hok Hne Hfront Hback Hq Hend Htrail He.
  assert (strip_matching_quotes (core ++ trail) = core) as Hstrip.
  { apply (strip_matching_quotes_core [] core trail); try done.
    apply quoted_front; [by destruct core|done]. }
  rewrite <- Hstrip at 1.
  apply tag_candidate_collected; [done| |by rewrite Hstrip].
  destruct core as [|c rest]; [done|]. simpl in Hfront, Hq.
  change ((c :: rest) ++ trail ++ e :: post) with (c :: rest ++ trail ++ e :: post).
  rewrite skip_blank_stop by by apply not_space_not_blank.
  rewrite (app_assoc rest trail).
  change ((c :: rest) ++ trail) with (c :: rest ++ trail).
  apply argument_text_unquoted; [done|done|]. right. by exists e, post.
Qed.

Lemma quoted_tag_collected pre digit ws1 ws2 q lead core trail post :
  tag_ok digit ws1 ws2 ->
  is_quote_char q = true ->
  core ≠ [] -> isspace (front core) = false -> isspace (back core) = false ->
  quoted core = false ->
  Forall (fun x => x ≠ q) (lead ++ core ++ trail) ->
  Forall (fun x => isspace x = true) lead ->
  Forall (fun x => isspace x = true) trail ->
  core ∈ (collect_img_paths_from_span
            (pre ++ tag digit ws1 ws2 (q :: (lead ++ core ++ trail) ++ q :: post))
            ([], ∅)).1.
Proof.
  intros Hok Hq Hne Hfront Hback Hquoted Hin Hlead Htrail.
  assert (strip_matching_quotes (lead ++ core ++ trail) = core) as Hstrip
    by by apply strip_matching_quotes_core.
  rewrite <- Hstrip at 1.
  apply tag_candidate_collected; [done| |by rewrite Hstrip].
  rewrite skip_blank_stop by by apply is_quote_not_blank.
  apply argument_text_quoted; [done| |done|].
  - destruct lead; [by destruct core|done].
  - right. by exists post.
Qed.

(** C7.  The scan returns the stripped, non-empty tag arguments in the
    order of their positions, each value once, the first occurrence
    deciding its place.  Every returned path is non-empty and neither
    starts nor ends with whitespace.  For a tag (optional digit 1-4, blanks
    around the parenthesis) anywhere in the text: an unquoted argument
    followed by whitespace and ended by [','] or [')'] contributes the
    argument without that whitespace; a quoted argument contributes what
    stands between the quotes without the whitespace around it.  On the
    spec's input the result is [a.png; b.jpg]; an argument written four
    ways (bare, with a trailing space, in single quotes around double
    quotes, in double quotes with spaces inside) is returned once. *)
Theorem collect_img_paths_from_span_spec :
  (forall data,
     (collect_img_paths_from_span data ([], ∅)).1 = first_occurrences (candidates data)
     /\ NoDup (collect_img_paths_from_span data ([], ∅)).1
     /\ forall p, p ∈ (collect_img_paths_from_span data ([], ∅)).1 ->
          p ≠ [] /\ isspace (front p) = false /\ isspace (back p) = false)
  /\ (forall pre digit ws1 ws2 core trail e post,
        tag_ok digit ws1 ws2 ->
        core ≠ [] -> isspace (front core) = false -> isspace (back core) = false ->
        is_quote_char (front core) = false ->
        Forall (fun x => is_arg_end x = false) (core ++ trail) ->
        Forall (fun x => isspace x = true) trail ->
        is_arg_end e = true ->
        core ∈ (collect_img_paths_from_span
                  (pre ++ tag digit ws1 ws2 (core ++ trail ++ e :: post)) ([], ∅)).1)
  /\ (forall pre digit ws1 ws2 q lead core trail post,
        tag_ok digit ws1 ws2 ->
        is_quote_char q = true ->
        core ≠ [] -> isspace (front core) = false -> isspace (back core) = false ->
        quoted core = false ->
        Forall (fun x => x ≠ q) (lead ++ core ++ trail) ->
        Forall (fun x => isspace x = true) lead ->
        Forall (fun x => isspace x = true) trail ->
        core ∈ (collect_img_paths_from_span
                  (pre ++ tag digit ws1 ws2 (q :: (lead ++ core ++ trail) ++ q :: post))
                  ([], ∅)).1)
  /\ (collect_img_paths_from_span
        (chars "\img(a.png)...\2img(" ++ dquote :: chars "a.png" ++ dquote
           :: chars ")...\img(b.jpg)") ([], ∅)).1
     = [chars "a.png"; chars "b.jpg"]
  /\ (collect_img_paths_from_span
        (chars "\img(a.png )\2img(" ++ squote :: dquote :: chars "a.png" ++ dquote
           :: squote :: chars ")\img(" ++ dquote :: chars " a.png " ++ dquote
           :: chars ")\img(b.jpg)\img(a.png)") ([], ∅)).1
     = [chars "a.png"; chars "b.jpg"].
Proof.
  split; [|split; [|split; [|split]]].
  - intros data. split; [|split].
    + apply collect_img_paths_from_span_first_occurrences.
    + rewrite collect_img_paths_from_span_first_occurrences.
      apply NoDup_first_occurrences.
    + apply collected_path_ends.
  - apply unquoted_tag_collected.
  - apply quoted_tag_collected.
  - vm_compute. reflexivity.
  - vm_compute. reflexivity.
Qed.

(** *** Section tracking *)

Lemma img_starts_with_icase_spec text prefix :
  img_starts_with_icase text prefix
  = bool_decide (to_lower_copy (take (length prefix) text) = prefix).
Proof.
  revert text. induction prefix as [|p prefix IH]; intros text.
  - done.
  - destruct text as [|c text]; simpl; [done|].
    destruct (ascii_eqb (img_ascii_tolower c) p) eqn:Hc.
    + apply ascii_eqb_eq in Hc. rewrite IH. apply bool_decide_ext.
      unfold to_lower_copy. split; [by intros ->; rewrite Hc|by intros [=]].
    + apply ascii_eqb_neq in Hc. symmetry. apply bool_decide_eq_false_2.
      by intros [=].
Qed.

(** The test of line 652 is equality with "events" without regard to case. *)
Lemma in_events_spec sec :
  (length sec =? 6) && img_starts_with_icase sec (chars "events")
  = bool_decide (to_lower_copy sec = chars "events").
Proof.
  rewrite img_starts_with_icase_spec.
  destruct (length sec =? 6) eqn:Hlen; simpl.
  - apply Nat.eqb_eq in Hlen. rewrite take_ge; [done|]. simpl. lia.
  - apply Nat.eqb_neq in Hlen. symmetry. apply bool_decide_eq_false_2.
    intros Heq. apply (f_equal length) in Heq.
    unfold to_lower_copy in Heq. rewrite length_map in Heq. done.
Qed.

Lemma line_steps_scanned lines st current :
  negb (saw_section st && negb (in_events st)) = scope_of current ->
  acc (foldl line_step st lines)
  = foldl (fun a line => collect_img_paths_from_span line a) (acc st)
      (scanned_lines current lines).
Proof.
  revert st current. induction lines as [|raw lines IH]; intros st current Hinv; [done|].
  simpl foldl. simpl scanned_lines. unfold line_step at 2.
  destruct (line_body raw) as [|c line] eqn:Hline; [by apply IH|].
  simpl is_nil. cbv iota.
  destruct (is_section_header (c :: line)) eqn:Hhdr.
  - rewrite (IH _ (Some (section_name (c :: line)))); [done|].
    simpl. rewrite in_events_spec. by destruct (bool_decide _).
  - rewrite <- Hinv.
    destruct (saw_section st && negb (in_events st)) eqn:Hout; cbn [negb andb].
    + apply IH. by rewrite Hout.
    + rewrite img_starts_with_icase_spec.
      change (length (chars "dialogue:")) with 9.
      destruct (bool_decide _) eqn:Hdlg; cbn [negb].
      * rewrite (IH _ current); [done|]. cbn [saw_section in_events]. by rewrite Hout.
      * apply IH. by rewrite Hout.
Qed.

Lemma scanned_lines_other_section name lines :
  to_lower_copy name ≠ chars "events" ->
  Forall (fun raw => is_section_header (line_body raw) = false) lines ->
  scanned_lines (Some name) lines = [].
Proof.
  intros Hname Hlines. induction Hlines as [|raw lines Hraw _ IH]; [done|].
  simpl. destruct (is_nil (line_body raw)); [done|].
  rewrite Hraw. simpl. by rewrite bool_decide_eq_false_2.
Qed.

(** C6.  [collect_img_paths] scans exactly the [Dialogue:] lines (prefix
    compared without regard to case) that stand before any bracketed
    section header or inside a section whose name is Events without regard
    to case, in order, with one deduplication across all of them.  Lines
    of any other section contribute nothing: a tag under [[V4+ Styles]] is
    not returned, one before any header is, and so is one under
    [[ eVeNts ]]. *)
Theorem collect_img_paths_scans_events_dialogue :
  (forall data,
     collect_img_paths data
     = (foldl (fun a line => collect_img_paths_from_span line a) ([], ∅)
          (scanned_lines None (split_lines data))).1)
  /\ (forall name lines,
        to_lower_copy name ≠ chars "events" ->
        Forall (fun raw => is_section_header (line_body raw) = false) lines ->
        scanned_lines (Some name) lines = [])
  /\ collect_img_paths
       (chars "[V4+ Styles]" ++ newline :: chars "Dialogue: 0,{\img(x.png)}") = []
  /\ collect_img_paths
       (chars "Dialogue: 0,{\img(x.png)}" ++ newline :: chars "[V4+ Styles]"
          ++ newline :: chars "Dialogue: 0,{\img(y.png)}")
     = [chars "x.png"]
  /\ collect_img_paths
       (chars "[ eVeNts ]" ++ carriage_return :: newline
          :: chars "  dialogue: 0,{\img(x.png)}")
     = [chars "x.png"].
Proof.
  split; [|split; [|split; [|split]]].
  - intros data. unfold collect_img_paths.
    by rewrite (line_steps_scanned _ _ None).
  - apply scanned_lines_other_section.
  - vm_compute. reflexivity.
  - vm_compute. reflexivity.
  - vm_compute. reflexivity.
Qed.

(** [img_starts_with_icase] lower-cases the text only: it holds exactly
    when the text begins with a run of characters whose lower-case form is
    the prefix as written. *)
Theorem img_starts_with_icase_iff text prefix :
  img_starts_with_icase text prefix = true
  <-> exists t rest, text = t ++ rest /\ to_lower_copy t = prefix.
Proof.
  rewrite img_starts_with_icase_spec, bool_decide_eq_true. split.
  - intros H. exists (take (length prefix) text), (drop (length prefix) text).
    split; [by rewrite take_drop|done].
  - intros (t & rest & -> & <-). unfold to_lower_copy.
    by rewrite length_map, take_app_length.
Qed.

Lemma add_path_ok a p : acc_ok a -> p ≠ [] -> trim_copy p = p -> acc_ok (add_path a p).
Proof.
  intros (Hset & Hnd & Hall) Hp Ht. unfold add_path.
  destruct (decide (p ∈ a.2)) as [Hin|Hin]; [done|]. unfold acc_ok. cbn [fst snd].
  split; [|split].
  - intros x. rewrite elem_of_union, elem_of_singleton, elem_of_app,
      list_elem_of_singleton, Hset. tauto.
  - apply NoDup_app. split; [done|]. split; [|apply NoDup_singleton].
    intros x Hx ->%list_elem_of_singleton. apply Hin. by apply Hset.
  - apply Forall_app. split; [done|]. by repeat constructor.
Qed.

Lemma scan_position_ok s a : acc_ok a -> acc_ok (scan_position s a).
Proof.
  intros Ha. unfold scan_position. destruct (img_argument s) as [raw|]; [|done].
  unfold push_path. destruct (strip_matching_quotes raw) as [|c p] eqn:Hp; [done|].
  simpl. apply add_path_ok; [done|done|].
  rewrite <- Hp. apply strip_matching_quotes_trimmed.
Qed.

Lemma collect_img_paths_from_span_ok data a :
  acc_ok a -> acc_ok (collect_img_paths_from_span data a).
Proof.
  revert a. induction data as [|c data IH]; intros a Ha; [done|].
  cbn [collect_img_paths_from_span]. destruct (4 <? _); [|done].
  apply IH. by apply scan_position_ok.
Qed.

Lemma line_step_ok st raw : acc_ok (acc st) -> acc_ok (acc (line_step st raw)).
Proof.
  intros Ha. unfold line_step. destruct (line_body raw) as [|c l]; [done|].
  destruct (is_section_header _); [done|].
  destruct (saw_section st && negb (in_events st)); [done|].
  destruct (negb _); [done|]. cbn [acc]. by apply collect_img_paths_from_span_ok.
Qed.

Lemma line_steps_ok lines st : acc_ok (acc st) -> acc_ok (acc (foldl line_step st lines)).
Proof.
  revert st. induction lines as [|raw lines IH]; intros st Ha; [done|].
  simpl. apply IH. by apply line_step_ok.
Qed.

Lemma collect_img_paths_acc_ok data :
  NoDup (collect_img_paths data)
  /\ Forall (fun p => p ≠ [] /\ trim_copy p = p) (collect_img_paths data).
Proof.
  assert (acc_ok (acc initial_line_state)) as H0.
  { split; [|split]; simpl.
    - intros x. rewrite elem_of_empty. split; [done|]. by intros ?%elem_of_nil.
    - constructor.
    - constructor. }
  by destruct (line_steps_ok (split_lines data) _ H0) as (_ & Hnd & Hall).
Qed.

(** The paths [collect_img_paths] returns for a script are pairwise
    distinct, also across lines, and each is non-empty and free of
    surrounding whitespace. *)
Theorem collect_img_paths_distinct_trimmed data :
  NoDup (collect_img_paths data)
  /\ forall p, p ∈ collect_img_paths data -> p ≠ [] /\ trim_copy p = p.
Proof.
  destruct (collect_img_paths_acc_ok data) as [Hnd Hall].
  split; [done|]. intros p Hp. rewrite Forall_forall in Hall. by apply Hall.
Qed.

(** *** A script of one dialogue line *)








End ExtractorFacts.

(** ** The provider: loading, memoization, registration *)

Section ProviderFacts.
Import Text Extractor Provider.
Context `{Wx : WxEnv} `{Engine : EngineEnv}.



(** *** The file memo *)



Lemma register_both_cache path image ps :
  pass_cache (register_both path image ps) = pass_cache ps
  /\ fs_calls (register_both path image ps) = fs_calls ps.
Proof. done. Qed.

Lemma attachment_fallback_cache abn path fmt absolute ps :
  pass_cache (attachment_fallback abn path fmt absolute ps) = pass_cache ps
  /\ fs_calls (attachment_fallback abn path fmt absolute ps) = fs_calls ps.
Proof.
  unfold attachment_fallback. destruct absolute; [done|].
  destruct (abn !! _) as [image|]; [|done].
  by destruct (negb _).
Qed.




(** *** Registration keys: the first writer wins *)

Lemma register_key_keeps k d reg k' d' :
  reg !! k = Some d -> register_key k' d' reg !! k = Some d.
Proof.
  intros H. unfold register_key. destruct (is_nil k'); [done|].
  destruct (reg !! k') eqn:Hk'; [done|].
  destruct (0 <=? _)%Z; [|done].
  rewrite lookup_insert_ne; [done|]. intros ->. congruence.
Qed.

Lemma register_path_variants_keeps k d reg k' d' :
  reg !! k = Some d -> register_path_variants k' d' reg !! k = Some d.
Proof.
  intros H. unfold register_path_variants. destruct (is_nil _); [done|].
  by do 2 apply register_key_keeps.
Qed.

Lemma register_key_fresh k d reg :
  k ≠ [] -> reg !! k = None -> (0 <= ass_set_tag_image_rgba k d)%Z ->
  register_key k d reg !! k = Some d.
Proof.
  intros Hk Hnone Hok. unfold register_key. destruct k; [done|]. simpl.
  rewrite Hnone. apply Z.leb_le in Hok. rewrite Hok. apply lookup_insert_eq.
Qed.

Lemma register_path_variants_fresh k d reg :
  strip_matching_quotes k = k -> k ≠ [] ->
  reg !! k = None -> (0 <= ass_set_tag_image_rgba k d)%Z ->
  register_path_variants k d reg !! k = Some d.
Proof.
  intros Hstrip Hk Hnone Hok. unfold register_path_variants. rewrite Hstrip.
  destruct k; [done|]. simpl is_nil. cbv iota.
  apply register_key_keeps. by apply register_key_fresh.
Qed.

(** An attachment found under the basename of a path has the format the
    path's extension declares. *)
Lemma wf_attachment_format image path fmt :
  wf_attachment image ->
  parse_tag_image_format path = Some fmt ->
  basename_lower image = to_lower_copy (path_basename path) ->
  format image = fmt.
Proof.
  intros (Hfmt & Hbase & _) Hpath Heq. rewrite Hbase in Heq.
  rewrite (parse_tag_image_format_basename _ _ Heq) in Hfmt. congruence.
Qed.

Lemma format_eqb_refl fmt : format_eqb fmt fmt = true.
Proof. by destruct fmt. Qed.

Lemma decode_image_to_rgba_format image out out' :
  decode_image_to_rgba image out = Some out' -> format out' = format out.
Proof.
  unfold decode_image_to_rgba. destruct (negb _); [done|].
  destruct (_ || _); [done|]. destruct (GetData image); [|done].
  by intros [= <-].
Qed.

(** [decode_attachment_image] only builds well-formed attachment images,
    so the images [PrepareSubtitles] stores are well formed. *)
Lemma decode_attachment_image_wf attachment image :
  decode_attachment_image attachment = Some image -> wf_attachment image.
Proof.
  unfold decode_attachment_image.
  destruct (list_find _ _) as [[header_end ?]|]; [|done].
  destruct (_ || _); [done|].
  set (filename := trim_copy _).
  destruct (is_nil filename); [done|].
  destruct (parse_tag_image_format filename) as [fmt|] eqn:Hfmt; [|done].
  destruct (is_nil _); [done|].
  destruct (LoadStream _) as [wximage|]; [|done].
  destruct (decode_image_to_rgba _ _) as [out|] eqn:Hout; [|done].
  intros [= <-]. apply decode_image_to_rgba_format in Hout.
  split; [|split]; simpl; [by rewrite Hout|done|apply trim_copy_idem].
Qed.

Lemma PrepareSubtitles_attachments_wf subs st :
  Forall wf_attachment (attachment_tag_images (PrepareSubtitles subs st)).
Proof.
  unfold PrepareSubtitles. simpl. apply Forall_forall. intros image Hin.
  apply list_elem_of_omap in Hin as (attachment & _ & Hdec).
  destruct (Group attachment); [|done]. by eapply decode_attachment_image_wf.
Qed.

(** The map [attachment_by_name] only holds images of the attachment list,
    each under its own lower-case basename. *)
Lemma attachment_by_name_from_list (all : list TagImage) attachments acc base image :
  (forall a, a ∈ attachments -> a ∈ all) ->
  (forall b a, acc.1 !! b = Some a -> a ∈ all /\ basename_lower a = b) ->
  (foldl attachment_step acc attachments).1 !! base = Some image ->
  image ∈ all /\ basename_lower image = base.
Proof.
  revert acc. induction attachments as [|a attachments IH]; intros acc Hsub Hacc; simpl.
  - apply Hacc.
  - apply IH.
    + intros x Hx. apply Hsub. by right.
    + intros b a' Hb. unfold attachment_step in Hb. simpl in Hb.
      destruct (acc.1 !! basename_lower a) eqn:Ha; [by apply Hacc|].
      destruct (decide (basename_lower a = b)) as [<-|Hne].
      * rewrite lookup_insert_eq in Hb. injection Hb as <-.
        split; [|done]. apply Hsub. by left.
      * rewrite lookup_insert_ne in Hb by done. by apply Hacc.
Qed.

Lemma is_nil_false {A} (l : list A) : l ≠ [] -> is_nil l = false.
Proof. by destruct l. Qed.

(** The loop body on a path without memo entry and without file is the
    attachment fallback, after one logged call of [decode_file_image]. *)
Lemma register_tag_path_no_file fs dir abn ps raw fmt :
  strip_matching_quotes raw ≠ [] ->
  parse_tag_image_format (strip_matching_quotes raw) = Some fmt ->
  pass_cache ps !! strip_matching_quotes raw = None ->
  decode_file_image fs (strip_matching_quotes raw) dir = None ->
  register_tag_path fs dir abn ps raw
  = attachment_fallback abn (strip_matching_quotes raw) fmt
      (path_is_absolute (strip_matching_quotes raw))
      (mkPass (pass_cache ps) (registered ps)
         (fs_calls ps ++ [strip_matching_quotes raw])).
Proof.
  intros Hne Hfmt Hmiss Hnofile. unfold register_tag_path. cbv zeta.
  rewrite (is_nil_false _ Hne), Hfmt.
  unfold resolve_file. rewrite Hmiss, Hnofile. done.
Qed.

(** The fallback of a non-absolute path registers the attachment image
    found under its basename, for the path and for the attachment's key. *)
Lemma attachment_fallback_relative abn path fmt ps image :
  parse_tag_image_format path = Some fmt ->
  strip_matching_quotes path = path ->
  abn !! to_lower_copy (path_basename path) = Some image ->
  basename_lower image = to_lower_copy (path_basename path) ->
  wf_attachment image ->
  format image = fmt
  /\ registered (attachment_fallback abn path fmt false ps)
     = register_path_variants (key image) (image_of image)
         (register_path_variants path (image_of image) (registered ps))
  /\ (registered ps !! path = None ->
      (0 <= ass_set_tag_image_rgba path (image_of image))%Z ->
      registered (attachment_fallback abn path fmt false ps) !! path
      = Some (image_of image))
  /\ (forall d, registered ps !! path = Some d ->
        registered (attachment_fallback abn path fmt false ps) !! path = Some d).
Proof.
  intros Hfmt Hfix Habn Hbase Hwf.
  assert (format image = fmt) as Hformat by (by eapply wf_attachment_format).
  assert (path ≠ []) as Hne by (by eapply parse_tag_image_format_back).
  unfold attachment_fallback. rewrite Habn, Hformat, format_eqb_refl.
  cbn [negb]. unfold register_both. cbn [registered].
  split; [done|]. split; [done|]. split.
  - intros Hfresh Hok. apply register_path_variants_keeps.
    by apply register_path_variants_fresh.
  - intros d Hd. by do 2 apply register_path_variants_keeps.
Qed.

(** C5.  For a referenced path (stripped, with a recognised extension)
    that has no memo entry and that [decode_file_image] finds no file for:
    when the path is not absolute and [attachment_by_name] holds, under the
    path's lower-case basename, a (well-formed) attachment image with that
    basename, the image has the format the path declares and is what the
    path and the attachment's own key are registered with -- the path's
    key ends up bound to it when the engine accepts the call and the key
    was still free, and keeps its earlier binding otherwise; when the path
    is absolute nothing is registered, whatever the attachments are. *)
Theorem register_tag_path_attachment_fallback fs dir abn ps raw fmt :
  let path := strip_matching_quotes raw in
  path ≠ [] ->
  parse_tag_image_format path = Some fmt ->
  pass_cache ps !! path = None ->
  decode_file_image fs path dir = None ->
  let ps' := register_tag_path fs dir abn ps raw in
  (path_is_absolute path = false ->
   forall image,
     abn !! to_lower_copy (path_basename path) = Some image ->
     basename_lower image = to_lower_copy (path_basename path) ->
     wf_attachment image ->
     format image = fmt
     /\ registered ps'
        = register_path_variants (key image) (image_of image)
            (register_path_variants path (image_of image) (registered ps))
     /\ (registered ps !! path = None ->
         (0 <= ass_set_tag_image_rgba path (image_of image))%Z ->
         registered ps' !! path = Some (image_of image))
     /\ (forall d, registered ps !! path = Some d -> registered ps' !! path = Some d))
  /\ (path_is_absolute path = true -> registered ps' = registered ps).
Proof.
  intros path Hne Hfmt Hmiss Hnofile ps'. subst ps'.
  rewrite (register_tag_path_no_file fs dir abn ps raw fmt) by done.
  fold path. split.
  - intros Hrel image Habn Hbase Hwf. rewrite Hrel.
    apply (attachment_fallback_relative abn path fmt
             (mkPass (pass_cache ps) (registered ps) (fs_calls ps ++ [path])) image);
      try done.
    by apply (strip_matching_quotes_parsed raw fmt).
  - intros Habs. by rewrite Habs.
Qed.

(** *** The whole pass when no reference resolves to a file *)


Lemma register_key_from attachments paths reg k d :
  all_from_attachments attachments paths reg ->
  from_attachment attachments paths k d ->
  all_from_attachments attachments paths (register_key k d reg).
Proof.
  intros Hreg Hk. unfold register_key. destruct (is_nil k); [done|].
  destruct (reg !! k) eqn:Hlook; [done|].
  destruct (0 <=? _)%Z; [|done].
  intros k' d' Hk'. destruct (decide (k = k')) as [<-|Hne].
  - rewrite lookup_insert_eq in Hk'. by injection Hk' as <-.
  - rewrite lookup_insert_ne in Hk' by done. by apply Hreg.
Qed.

Lemma register_path_variants_from attachments paths reg key d :
  all_from_attachments attachments paths reg ->
  from_attachment attachments paths (strip_matching_quotes key) d ->
  from_attachment attachments paths (add_double_quotes (strip_matching_quotes key)) d ->
  all_from_attachments attachments paths (register_path_variants key d reg).
Proof.
  intros Hreg H1 H2. unfold register_path_variants. destruct (is_nil _); [done|].
  apply register_key_from; [|done]. by apply register_key_from.
Qed.

Lemma attachment_loop_from attachments paths l acc :
  (forall a, a ∈ l -> a ∈ attachments) ->
  all_from_attachments attachments paths acc.2 ->
  all_from_attachments attachments paths (foldl attachment_step acc l).2.
Proof.
  revert acc. induction l as [|a l IH]; intros acc Hsub Hacc; [done|].
  simpl. apply IH; [intros x Hx; apply Hsub; by right|].
  unfold attachment_step. simpl.
  assert (a ∈ attachments) as Ha by (apply Hsub; by left).
  apply register_path_variants_from; [done| |].
  - exists a. split; [done|]. split; [done|]. left. by left.
  - exists a. split; [done|]. split; [done|]. left. by right.
Qed.



(** Registrations are never overwritten by later iterations. *)
Lemma register_tag_path_keeps fs dir abn ps raw k d :
  registered ps !! k = Some d ->
  registered (register_tag_path fs dir abn ps raw) !! k = Some d.
Proof.
  intros Hk. unfold register_tag_path.
  destruct (is_nil _); [done|].
  destruct (parse_tag_image_format _) as [fmt|]; [|done].
  assert (registered (resolve_file fs dir (strip_matching_quotes raw) ps).2 !! k = Some d)
    as Hk1.
  { unfold resolve_file. destruct (pass_cache ps !! _); [done|].
    by destruct (decode_file_image _ _ _) as [[? ?]|]. }
  destruct (resolve_file _ _ _ _) as [file_it ps1]. simpl in Hk1.
  assert (forall absolute,
            registered (attachment_fallback abn (strip_matching_quotes raw) fmt
                          absolute ps1) !! k = Some d) as Hfb.
  { intros absolute. unfold attachment_fallback. destruct absolute; [done|].
    destruct (abn !! _) as [image|]; [|done]. destruct (negb _); [done|].
    unfold register_both. simpl. by do 2 apply register_path_variants_keeps. }
  destruct file_it as [image|]; [|done].
  destruct (format_eqb _ _); [|done].
  unfold register_both. simpl. by do 2 apply register_path_variants_keeps.
Qed.

Lemma register_pass_keeps fs dir abn l ps k d :
  registered ps !! k = Some d ->
  registered (foldl (register_tag_path fs dir abn) ps l) !! k = Some d.
Proof.
  revert ps. induction l as [|raw l IH]; intros ps Hk; [done|].
  simpl. apply IH. by apply register_tag_path_keeps.
Qed.





Lemma length_flat_map_seq (f : nat -> list Z) n :
  (forall j, length (f j) = 4) -> length (flat_map f (seq 0 n)) = 4 * n.
Proof.
  intros Hf. induction n as [|n IH]; [done|].
  rewrite seq_S, flat_map_app, length_app, IH. simpl. rewrite app_nil_r, Hf. lia.
Qed.

Lemma flat_map_seq_lookup (f : nat -> list Z) n i c :
  (forall j, length (f j) = 4) -> i < n -> c < 4 ->
  flat_map f (seq 0 n) !! (i * 4 + c) = f i !! c.
Proof.
  intros Hf. induction n as [|n IH]; intros Hi Hc; [lia|].
  rewrite seq_S, flat_map_app. simpl. rewrite app_nil_r.
  destruct (decide (i = n)) as [ ->|Hne].
  - rewrite lookup_app_r by (rewrite length_flat_map_seq by done; lia).
    rewrite length_flat_map_seq by done. f_equal. lia.
  - rewrite lookup_app_l by (rewrite length_flat_map_seq by done; lia).
    apply IH; lia.
Qed.

(** On an image whose byte count fits [int] ([int_sized]),
    [decode_image_to_rgba] fails exactly when the image is not ok, has a
    non-positive dimension or has no data.  When it succeeds it keeps key,
    basename and format of [out], takes the image's dimensions, sets the
    stride to four bytes per pixel and fills a buffer of [stride * height]
    bytes whose pixel [i] is the R, G, B bytes of pixel [i] followed by its
    alpha, or by 255 when the image has no alpha channel; stride, pixel
    count and byte indices are within [int]. *)
Theorem decode_image_to_rgba_spec image out :
  int_sized image ->
  (decode_image_to_rgba image out = None
   <-> IsOk image = false \/ (GetWidth image <= 0)%Z \/ (GetHeight image <= 0)%Z
       \/ GetData image = None)
  /\ forall out', decode_image_to_rgba image out = Some out' ->
       key out' = key out /\ basename_lower out' = basename_lower out
       /\ format out' = format out
       /\ width out' = GetWidth image /\ height out' = GetHeight image
       /\ tag_image_ok out'
       /\ (stride out' * height out' < 2 ^ 31)%Z
       /\ exists rgb, GetData image = Some rgb
          /\ forall i : nat, i < Z.to_nat (GetWidth image * GetHeight image) ->
               rgba out' !! (i * 4) = Some (rgb !!! (i * 3))
               /\ rgba out' !! (i * 4 + 1) = Some (rgb !!! (i * 3 + 1))
               /\ rgba out' !! (i * 4 + 2) = Some (rgb !!! (i * 3 + 2))
               /\ rgba out' !! (i * 4 + 3)
                  = Some (match GetAlpha image with
                          | Some alpha => alpha !!! i
                          | None => 255%Z
                          end).
Proof.
  intros (_ & _ & Hsize). unfold decode_image_to_rgba. split.
  - destruct (IsOk image); simpl; [|by split; [left|]].
    destruct (GetWidth image <=? 0)%Z eqn:Hw; simpl.
    { apply Z.leb_le in Hw. split; [by right; left|done]. }
    destruct (GetHeight image <=? 0)%Z eqn:Hh; simpl.
    { apply Z.leb_le in Hh. split; [by right; right; left|done]. }
    apply Z.leb_gt in Hw, Hh.
    destruct (GetData image) as [rgb|].
    + split; [done|]. intros [?|[?|[?|?]]]; try done; lia.
    + split; [by right; right; right|done].
  - intros out'. destruct (IsOk image); cbn [negb orb]; [|done].
    destruct (GetWidth image <=? 0)%Z eqn:Hw; cbn [negb orb]; [done|].
    destruct (GetHeight image <=? 0)%Z eqn:Hh; cbn [negb orb]; [done|].
    apply Z.leb_gt in Hw, Hh.
    destruct (GetData image) as [rgb|]; [|done].
    set (pixel := fun i : nat =>
           [rgb !!! (i * 3); rgb !!! (i * 3 + 1); rgb !!! (i * 3 + 2);
            match GetAlpha image with Some alpha => alpha !!! i | None => 255%Z end]).
    intros [= Hout].
    assert (rgba out' = flat_map pixel (seq 0 (Z.to_nat (GetWidth image * GetHeight image))))
      as Hrgba by by rewrite <- Hout.
    assert (forall j, length (pixel j) = 4) as Hpix by done.
    do 5 (split; [by rewrite <- Hout|]). split; [|split].
    + unfold tag_image_ok. rewrite Hrgba, <- Hout. cbn [width height stride].
      split; [done|]. split; [done|]. split; [done|].
      rewrite length_flat_map_seq by done. lia.
    + rewrite <- Hout. cbn [width height stride]. specialize (Hsize Hw Hh). lia.
    + exists rgb. split; [done|]. intros i Hi. rewrite Hrgba.
      replace (i * 4) with (i * 4 + 0) at 1 by lia.
      rewrite !(flat_map_seq_lookup pixel) by (done || lia).
      subst pixel. by repeat split.
Qed.

Lemma decode_image_to_rgba_ok image out out' :
  int_sized image ->
  decode_image_to_rgba image out = Some out' -> tag_image_ok out'.
Proof.
  intros _. unfold decode_image_to_rgba. destruct (IsOk image); simpl; [|done].
  destruct (GetWidth image <=? 0)%Z eqn:Hw; simpl; [done|].
  destruct (GetHeight image <=? 0)%Z eqn:Hh; simpl; [done|].
  apply Z.leb_gt in Hw, Hh.
  destruct (GetData image) as [rgb|]; [|done].
  intros [= <-]. unfold tag_image_ok. cbn [width height stride rgba].
  split; [done|]. split; [done|]. split; [done|].
  rewrite length_flat_map_seq by done. lia.
Qed.

(** *** Candidate locations of a file reference *)

Lemma elem_of_append_unique_candidate candidates path x :
  x ∈ append_unique_candidate candidates path
  <-> x ∈ candidates \/ (x = path /\ wx_is_empty path = false).
Proof.
  unfold append_unique_candidate. destruct (wx_is_empty path) eqn:He.
  - split; [by left|]. by intros [?|[_ ?]].
  - destruct (bool_decide (path ∈ candidates)) eqn:Hin.
    + apply bool_decide_eq_true in Hin. split; [by left|].
      intros [?|[ -> _]]; done.
    + rewrite elem_of_app, list_elem_of_singleton. split.
      * intros [?| ->]; [by left|by right].
      * intros [?|[ -> _]]; [by left|by right].
Qed.

Lemma NoDup_append_unique_candidate candidates path :
  NoDup candidates -> NoDup (append_unique_candidate candidates path).
Proof.
  intros Hnd. unfold append_unique_candidate. destruct (wx_is_empty path); [done|].
  destruct (bool_decide (path ∈ candidates)) eqn:Hin; [done|].
  apply bool_decide_eq_false in Hin. apply NoDup_app. split; [done|].
  split; [|apply NoDup_singleton]. by intros x Hx ->%list_elem_of_singleton.
Qed.

Lemma elem_of_path_bases path base :
  base ∈ path_bases path
  <-> wx_is_empty base = false
      /\ (base = FromUTF8 path
          \/ (path ≠ [] /\ (base = FromUTF8Unchecked path \/ base = FromLocal path))).
Proof.
  unfold path_bases. destruct path as [|c path]; simpl.
  - rewrite elem_of_append_unique_candidate, elem_of_nil. split.
    + intros [[]|[ -> He]]. split; [done|by left].
    + intros [He [ ->|[? _]]]; [by right|done].
  - rewrite !elem_of_append_unique_candidate, elem_of_nil. split.
    + intros [[[[]|[ -> He]]|[ -> He]]|[ -> He]]; (split; [done|]).
      * by left.
      * right. split; [done|by left].
      * right. split; [done|by right].
    + intros [He [ ->|[_ [ ->| ->]]]].
      * left. left. by right.
      * left. by right.
      * by right.
Qed.

Lemma NoDup_path_bases path : NoDup (path_bases path).
Proof.
  unfold path_bases. destruct (is_nil path);
    repeat apply NoDup_append_unique_candidate; constructor.
Qed.

Lemma file_image_candidates_fold script_dir bases acc :
  NoDup acc ->
  let result :=
    foldl (fun candidates base =>
             let candidates :=
               if negb (IsAbsolute base) && negb (wx_is_empty script_dir)
               then append_unique_candidate candidates (MakeAbsolute base script_dir)
               else candidates in
             append_unique_candidate candidates base) acc bases in
  NoDup result
  /\ forall c, c ∈ result
       <-> c ∈ acc
           \/ (wx_is_empty c = false
               /\ exists base, base ∈ bases
                    /\ (c = base
                        \/ (IsAbsolute base = false /\ wx_is_empty script_dir = false
                            /\ c = MakeAbsolute base script_dir))).
Proof.
  revert acc. induction bases as [|b bases IH]; intros acc Hnd; simpl.
  - split; [done|]. intros c. split; [by left|].
    intros [?|(_ & base & []%elem_of_nil & _)]. done.
  - set (acc1 := if negb (IsAbsolute b) && negb (wx_is_empty script_dir)
                 then append_unique_candidate acc (MakeAbsolute b script_dir)
                 else acc).
    assert (NoDup acc1) as Hnd1.
    { subst acc1. destruct (_ && _); [|done]. by apply NoDup_append_unique_candidate. }
    destruct (IH (append_unique_candidate acc1 b)
                (NoDup_append_unique_candidate _ _ Hnd1)) as [Hres Hmem].
    split; [done|]. intros c. rewrite Hmem, elem_of_append_unique_candidate.
    assert (c ∈ acc1 <-> c ∈ acc \/ (wx_is_empty c = false /\ IsAbsolute b = false
                                      /\ wx_is_empty script_dir = false
                                      /\ c = MakeAbsolute b script_dir)) as ->.
    { subst acc1. destruct (IsAbsolute b), (wx_is_empty script_dir) eqn:Hd; simpl;
        rewrite ?elem_of_append_unique_candidate.
      - split; [by left|]. by intros [?|(_ & ? & _)].
      - split; [by left|]. by intros [?|(_ & ? & _)].
      - split; [by left|]. by intros [?|(_ & _ & ? & _)].
      - split.
        + intros [?|[ -> He]]; [by left|by right].
        + intros [?|(He & _ & _ & ->)]; [by left|by right]. }
    split.
    + intros [[[?|(He & Ha & Hd & ->)]|[ -> He]]|(He & base & Hb & Hc)].
      * by left.
      * right. split; [done|]. exists b. split; [by left|]. by right.
      * right. split; [done|]. exists b. split; [by left|]. by left.
      * right. split; [done|]. exists base. split; [by right|done].
    + intros [?|(He & base & Hb & Hc)]; [by left; left; left|].
      apply elem_of_cons in Hb as [ ->|Hb].
      * destruct Hc as [ ->|(Ha & Hd & ->)]; [left; by right|].
        left. left. by right.
      * right. split; [done|]. by exists base.
Qed.

(** The candidate locations of a file reference have no repetition and no
    empty string; they are exactly the non-empty decodings of the path
    (UTF-8, and for a non-empty path unchecked UTF-8 and the local
    encoding) and, for a decoding that is not absolute while the script
    directory is known, its resolution against the script directory. *)
Theorem file_image_candidates_spec path script_dir :
  NoDup (file_image_candidates path script_dir)
  /\ forall c, c ∈ file_image_candidates path script_dir
       <-> wx_is_empty c = false
           /\ exists base,
                wx_is_empty base = false
                /\ (base = FromUTF8 path
                    \/ (path ≠ []
                        /\ (base = FromUTF8Unchecked path \/ base = FromLocal path)))
                /\ (c = base
                    \/ (IsAbsolute base = false /\ wx_is_empty script_dir = false
                        /\ c = MakeAbsolute base script_dir)).
Proof.
  destruct (file_image_candidates_fold script_dir (path_bases path) [])
    as [Hnd Hmem]; [constructor|].
  split; [done|]. intros c. unfold file_image_candidates. rewrite Hmem. split.
  - intros [[]%elem_of_nil|(He & base & Hb & Hc)]. split; [done|].
    apply elem_of_path_bases in Hb as [Hbe Hb]. by exists base.
  - intros (He & base & Hbe & Hb & Hc). right. split; [done|].
    exists base. split; [|done]. by apply elem_of_path_bases.
Qed.

(** *** Resolving a file reference *)

Lemma try_candidates_true fs path out candidates image resolved :
  try_candidates fs path out candidates = ReturnedTrue image resolved ->
  exists c wximage out',
    c ∈ candidates /\ FileExists fs c = true /\ LoadFile fs c = Some wximage
    /\ decode_image_to_rgba wximage out = Some out'
    /\ image = mkTagImage path (to_lower_copy (path_basename path))
                 (format out') (width out') (height out') (stride out') (rgba out')
    /\ resolved = utf8_str c.
Proof.
  induction candidates as [|c candidates IH]; simpl; [done|].
  destruct (FileExists fs c) eqn:Hex; simpl.
  - destruct (LoadFile fs c) as [wximage|] eqn:Hload.
    + destruct (decode_image_to_rgba wximage out) as [out'|] eqn:Hdec; [|done].
      intros [= <- <-]. exists c, wximage, out'. repeat split; try done. by left.
    + intros (c' & wximage & out' & Hin & H)%IH.
      exists c', wximage, out'. split; [by right|done].
  - intros (c' & wximage & out' & Hin & H)%IH.
    exists c', wximage, out'. split; [by right|done].
Qed.

Lemma try_dir_entries_true fs path base dir out entries image resolved :
  try_dir_entries fs path base dir out entries = ReturnedTrue image resolved ->
  exists e wximage out',
    e ∈ entries /\ to_lower_copy (utf8_str e) = base
    /\ LoadFile fs (DirEntryPath dir e) = Some wximage
    /\ decode_image_to_rgba wximage out = Some out'
    /\ image = mkTagImage path base
                 (format out') (width out') (height out') (stride out') (rgba out')
    /\ resolved = utf8_str (DirEntryPath dir e).
Proof.
  induction entries as [|e entries IH]; simpl; [done|].
  destruct (bool_decide (to_lower_copy (utf8_str e) = base)) eqn:Hname.
  - apply bool_decide_eq_true in Hname.
    destruct (LoadFile fs (DirEntryPath dir e)) as [wximage|] eqn:Hload.
    + destruct (decode_image_to_rgba wximage out) as [out'|] eqn:Hdec; [|done].
      intros [= <- <-]. exists e, wximage, out'. repeat split; try done. by left.
    + intros (e' & wximage & out' & Hin & H)%IH.
      exists e', wximage, out'. split; [by right|done].
  - intros (e' & wximage & out' & Hin & H)%IH.
    exists e', wximage, out'. split; [by right|done].
Qed.

Lemma tag_image_ok_fields k b f image :
  tag_image_ok image ->
  tag_image_ok (mkTagImage k b f (width image) (height image) (stride image) (rgba image)).
Proof. done. Qed.

Lemma decode_file_image_facts fs path dir image resolved :
  decode_file_image fs path dir = Some (image, resolved) ->
  key image = path
  /\ basename_lower image = to_lower_copy (path_basename path)
  /\ parse_tag_image_format path = Some (format image)
  /\ exists c wximage, resolved = utf8_str c /\ LoadFile fs c = Some wximage
       /\ (int_sized wximage -> tag_image_ok image)
       /\ ((c ∈ file_image_candidates path dir /\ FileExists fs c = true)
           \/ (wx_is_empty dir = false
               /\ exists entries e, dir_files fs dir = Some entries /\ e ∈ entries
                    /\ to_lower_copy (utf8_str e) = to_lower_copy (path_basename path)
                    /\ c = DirEntryPath dir e)).
Proof.
  unfold decode_file_image.
  destruct (parse_tag_image_format path) as [fmt|] eqn:Hfmt; [|done].
  destruct (try_candidates _ _ _ _) as [| |image' resolved'] eqn:Htry; [|done|].
  - destruct (wx_is_empty dir) eqn:Hdir; simpl; [done|].
    destruct (is_nil _); simpl; [done|].
    destruct (dir_files fs dir) as [entries|] eqn:Hentries; [|done].
    destruct (try_dir_entries _ _ _ _ _ _) as [| |image' resolved'] eqn:Hscan;
      [done|done|].
    intros [= <- <-].
    apply try_dir_entries_true in Hscan
      as (e & wximage & out' & Hin & Hname & Hload & Hdec & -> & ->).
    pose proof (decode_image_to_rgba_format _ _ _ Hdec) as Hf.
    cbn [key basename_lower format]. split; [done|]. split; [done|].
    split; [by rewrite Hf|].
    exists (DirEntryPath dir e), wximage. split; [done|]. split; [done|]. split.
    { intros Hsized. apply tag_image_ok_fields.
      by apply (decode_image_to_rgba_ok _ _ _ Hsized Hdec). }
    right. split; [done|]. by exists entries, e.
  - intros [= <- <-].
    apply try_candidates_true in Htry
      as (c & wximage & out' & Hin & Hex & Hload & Hdec & -> & ->).
    pose proof (decode_image_to_rgba_format _ _ _ Hdec) as Hf.
    cbn [key basename_lower format]. split; [done|]. split; [done|].
    split; [by rewrite Hf|].
    exists c, wximage. split; [done|]. split; [done|]. split.
    { intros Hsized. apply tag_image_ok_fields.
      by apply (decode_image_to_rgba_ok _ _ _ Hsized Hdec). }
    by left.
Qed.

(** When [decode_file_image] succeeds, the image carries the path as its
    key, the lower-cased basename of the path and the format declared by
    the path's extension, and the resolved path is a location that loaded:
    an existing candidate, or an entry of the script directory whose
    lower-cased name is the lower-cased basename of the path.  When the
    loaded image is [int_sized], the result has the shape of a decoded
    image; nothing is said about stride and buffer otherwise. *)
Theorem decode_file_image_success fs path dir image resolved :
  decode_file_image fs path dir = Some (image, resolved) ->
  key image = path
  /\ basename_lower image = to_lower_copy (path_basename path)
  /\ parse_tag_image_format path = Some (format image)
  /\ exists c wximage, resolved = utf8_str c /\ LoadFile fs c = Some wximage
       /\ (int_sized wximage -> tag_image_ok image)
       /\ ((c ∈ file_image_candidates path dir /\ FileExists fs c = true)
           \/ (wx_is_empty dir = false
               /\ exists entries e, dir_files fs dir = Some entries /\ e ∈ entries
                    /\ to_lower_copy (utf8_str e) = to_lower_copy (path_basename path)
                    /\ c = DirEntryPath dir e)).
Proof. apply decode_file_image_facts. Qed.

Lemma try_candidates_skip fs path out pre rest :
  Forall (fun c => FileExists fs c = false \/ LoadFile fs c = None) pre ->
  try_candidates fs path out (pre ++ rest) = try_candidates fs path out rest.
Proof.
  induction 1 as [|c pre Hc _ IH]; [done|]. simpl.
  destruct Hc as [-> | Hc]; [done|]. rewrite Hc. by destruct (FileExists fs c).
Qed.

(** The first candidate that exists and loads decides the outcome: its
    image is converted and returned with the candidate as resolved path;
    if the conversion fails, [decode_file_image] fails at once, without
    trying a later candidate or scanning the script directory. *)
Theorem decode_file_image_first_loadable fs path dir fmt pre c rest wximage :
  parse_tag_image_format path = Some fmt ->
  file_image_candidates path dir = pre ++ c :: rest ->
  Forall (fun c => FileExists fs c = false \/ LoadFile fs c = None) pre ->
  FileExists fs c = true ->
  LoadFile fs c = Some wximage ->
  decode_file_image fs path dir
  = match decode_image_to_rgba wximage (mkTagImage [] [] fmt 0 0 0 []) with
    | Some out' =>
        Some (mkTagImage path (to_lower_copy (path_basename path))
                (format out') (width out') (height out') (stride out') (rgba out'),
              utf8_str c)
    | None => None
    end.
Proof.
  intros Hfmt Hcands Hpre Hex Hload. unfold decode_file_image.
  rewrite Hfmt, Hcands, try_candidates_skip by done. simpl.
  rewrite Hex, Hload. simpl. by destruct (decode_image_to_rgba _ _).
Qed.

(** *** The invariant of the provider state *)

Lemma resolve_file_ok fs dir path ps :
  map_Forall memo_entry_ok (pass_cache ps) ->
  map_Forall memo_entry_ok (pass_cache (resolve_file fs dir path ps).2)
  /\ forall image, (resolve_file fs dir path ps).1 = Some image ->
       memo_entry_ok path image.
Proof.
  intros Hmemo. unfold resolve_file.
  destruct (pass_cache ps !! path) as [cached|] eqn:Hc.
  - split; [done|]. intros image [= <-]. by apply (Hmemo path).
  - destruct (decode_file_image fs path dir) as [[file_image resolved]|] eqn:Hdec.
    + apply decode_file_image_facts in Hdec as (Hkey & Hbase & Hfmt & _).
      assert (memo_entry_ok path
                (mkTagImage (if is_nil resolved then path else resolved)
                   (basename_lower file_image) (format file_image) (width file_image)
                   (height file_image) (stride file_image) (rgba file_image))) as Hentry.
      { split; [done|]. split; [done|].
        cbn [key]. destruct resolved as [|r resolved]; [|done]. simpl.
        by destruct (parse_tag_image_format_back _ _ Hfmt) as (_ & _ & ?). }
      cbn [fst snd pass_cache]. split.
      * by apply map_Forall_insert_2.
      * by intros image [= <-].
    + by split.
Qed.

Lemma register_tag_path_cache fs dir abn ps raw :
  pass_cache (register_tag_path fs dir abn ps raw) = pass_cache ps
  \/ pass_cache (register_tag_path fs dir abn ps raw)
     = pass_cache (resolve_file fs dir (strip_matching_quotes raw) ps).2.
Proof.
  unfold register_tag_path.
  destruct (is_nil _); [by left|].
  destruct (parse_tag_image_format _) as [fmt|]; [|by left].
  right. destruct (resolve_file _ _ _ _) as [file_it ps1]. cbn [snd].
  destruct file_it as [image|].
  - destruct (format_eqb _ _); [done|]. apply attachment_fallback_cache.
  - apply attachment_fallback_cache.
Qed.

Lemma register_pass_memo_ok fs dir abn paths ps :
  map_Forall memo_entry_ok (pass_cache ps) ->
  map_Forall memo_entry_ok (pass_cache (foldl (register_tag_path fs dir abn) ps paths)).
Proof.
  revert ps. induction paths as [|raw paths IH]; intros ps Hmemo; [done|].
  simpl. apply IH.
  destruct (register_tag_path_cache fs dir abn ps raw) as [-> | ->]; [done|].
  by apply resolve_file_ok.
Qed.

Lemma RegisterTagImages_ok fs have_renderer have_tag_api engine st :
  provider_ok st ->
  provider_ok (provider_after (RegisterTagImages fs have_renderer have_tag_api engine st)).
Proof.
  intros (Hatt & Hmemo & Hnd & Hpaths). unfold RegisterTagImages.
  destruct (negb (tag_images_dirty st)); [done|].
  destruct (negb have_renderer); [done|].
  destruct (negb have_tag_api); [done|].
  destruct (foldl attachment_step _ _) as [abn reg]. cbn [provider_after].
  split; [done|]. split; [|done]. cbn [file_tag_image_cache].
  by apply register_pass_memo_ok.
Qed.

Lemma PrepareSubtitles_ok subs st :
  provider_ok st -> provider_ok (PrepareSubtitles subs st).
Proof.
  intros (Hatt & Hmemo & Hnd & Hpaths). split; [|split; [|done]].
  - unfold PrepareSubtitles. cbn [attachment_tag_images].
    apply Forall_forall. intros image Hin.
    apply list_elem_of_omap in Hin as (attachment & _ & Hdec).
    destruct (Group attachment); [|done].
    by eapply decode_attachment_image_wf.
  - unfold PrepareSubtitles. cbn [file_tag_image_cache].
    destruct (bool_decide _); [apply map_Forall_empty|done].
Qed.

Lemma RegisterTagImages_raised_ok fs n st :
  provider_ok st -> provider_ok (RegisterTagImages_raised fs n st).
Proof.
  intros (Hatt & Hmemo & Hnd & Hpaths). unfold RegisterTagImages_raised.
  destruct (foldl attachment_step _ _) as [abn reg].
  split; [done|]. split; [|done]. cbn [file_tag_image_cache].
  by apply register_pass_memo_ok.
Qed.

Lemma reachable_ok st : reachable st -> provider_ok st.
Proof.
  induction 1 as [|subs st _ IH|data st _ IH|fs hr api engine st _ IH|ready st _ IH
                 |n subs st _ IH|fs n st _ _ _ IH].
  - split; [constructor|]. split; [apply map_Forall_empty|].
    split; constructor.
  - by apply PrepareSubtitles_ok.
  - destruct IH as (Hatt & Hmemo & Hnd & Hpaths).
    unfold LoadSubtitles. cbn [ass_track].
    destruct (ass_read_memory data) as [track|]; [|done].
    cbn [fst]. split; [done|]. split; [done|].
    apply collect_img_paths_acc_ok.
  - unfold DrawSubtitles_register. destruct (_ || _); [done|].
    by apply RegisterTagImages_ok.
  - unfold Reinitialize. by destruct (negb ready).
  - by apply PrepareSubtitles_ok.
  - by apply RegisterTagImages_raised_ok.
Qed.

(** In every state a provider can reach, also through calls that throw
    ([LoadSubtitles] on a rejected buffer) or raise while an image is
    converted ([PrepareSubtitles], [DrawSubtitles]): each attachment image
    has the format and basename of its file name, which is trimmed; each
    memoized image has the format and basename of the path it is stored
    under and a non-empty key; and the tag paths are pairwise distinct,
    non-empty and trimmed. *)
Theorem provider_invariant st : reachable st -> provider_ok st.
Proof. apply reachable_ok. Qed.

(** *** What a pass hands to the engine *)

Lemma register_key_table_ok k d reg :
  image_data_ok d ->
  (exists c, c ≠ [] /\ trim_copy c = c /\ (k = c \/ k = add_double_quotes c)) ->
  map_Forall table_entry_ok reg ->
  map_Forall table_entry_ok (register_key k d reg).
Proof.
  intros Hd Hform Hreg. unfold register_key.
  destruct (is_nil k) eqn:Hk; [done|]. destruct (reg !! k); [done|].
  destruct (0 <=? _)%Z eqn:Hacc; [|done].
  apply map_Forall_insert_2; [|done].
  split; [by destruct k|]. split; [by apply Z.leb_le|done].
Qed.

Lemma register_path_variants_table_ok key d reg :
  image_data_ok d ->
  map_Forall table_entry_ok reg ->
  map_Forall table_entry_ok (register_path_variants key d reg).
Proof.
  intros Hd Hreg. unfold register_path_variants.
  destruct (is_nil (strip_matching_quotes key)) eqn:Hnil; [done|].
  assert (strip_matching_quotes key ≠ []) as Hne by (by destruct (strip_matching_quotes key)).
  pose proof (strip_matching_quotes_trimmed key) as Htrim.
  apply register_key_table_ok; [done| |].
  - exists (strip_matching_quotes key). split; [done|]. split; [done|by right].
  - apply register_key_table_ok; [done| |done].
    exists (strip_matching_quotes key). split; [done|]. split; [done|by left].
Qed.

Lemma image_data_ok_image_of image : tag_image_ok image -> image_data_ok (image_of image).
Proof. done. Qed.

Lemma register_both_table_ok path image ps :
  tag_image_ok image ->
  map_Forall table_entry_ok (registered ps) ->
  map_Forall table_entry_ok (registered (register_both path image ps)).
Proof.
  intros Hok Hreg. unfold register_both. cbn [registered].
  by do 2 (apply register_path_variants_table_ok; [by apply image_data_ok_image_of|]).
Qed.

Lemma attachment_loop_table_ok l acc :
  Forall tag_image_ok l ->
  map_Forall table_entry_ok acc.2 ->
  map_Forall table_entry_ok (foldl attachment_step acc l).2.
Proof.
  intros Hl. revert acc. induction Hl as [|a l Ha _ IH]; intros acc Hacc; [done|].
  simpl. apply IH. unfold attachment_step. cbn [snd].
  apply register_path_variants_table_ok; [by apply image_data_ok_image_of|done].
Qed.

Lemma resolve_file_registered fs dir path ps :
  registered (resolve_file fs dir path ps).2 = registered ps.
Proof.
  unfold resolve_file. destruct (pass_cache ps !! path); [done|].
  by destruct (decode_file_image fs path dir) as [[? ?]|].
Qed.

Lemma attachment_fallback_table_ok abn path fmt absolute ps :
  (forall b a, abn !! b = Some a -> tag_image_ok a) ->
  map_Forall table_entry_ok (registered ps) ->
  map_Forall table_entry_ok (registered (attachment_fallback abn path fmt absolute ps)).
Proof.
  intros Habn Hreg. unfold attachment_fallback. destruct absolute; [done|].
  destruct (abn !! _) as [image|] eqn:Hlook; [|done].
  destruct (negb _); [done|]. apply register_both_table_ok; [|done].
  by eapply Habn.
Qed.

Lemma resolve_file_shape fs dir path ps :
  (forall c wximage, LoadFile fs c = Some wximage -> int_sized wximage) ->
  map_Forall (fun _ image => tag_image_ok image) (pass_cache ps) ->
  map_Forall (fun _ image => tag_image_ok image)
    (pass_cache (resolve_file fs dir path ps).2)
  /\ forall image, (resolve_file fs dir path ps).1 = Some image -> tag_image_ok image.
Proof.
  intros Hfs Hmemo. unfold resolve_file.
  destruct (pass_cache ps !! path) as [cached|] eqn:Hc.
  - split; [done|]. intros image [= <-]. by apply (Hmemo path).
  - destruct (decode_file_image fs path dir) as [[file_image resolved]|] eqn:Hdec.
    + apply decode_file_image_facts in Hdec
        as (_ & _ & _ & c & wximage & _ & Hload & Hok & _).
      assert (tag_image_ok
                (mkTagImage (if is_nil resolved then path else resolved)
                   (basename_lower file_image) (format file_image) (width file_image)
                   (height file_image) (stride file_image) (rgba file_image))) as Hentry.
      { apply tag_image_ok_fields, Hok. by apply (Hfs c). }
      cbn [fst snd pass_cache]. split.
      * by apply map_Forall_insert_2.
      * by intros image [= <-].
    + by split.
Qed.

Lemma register_tag_path_table_ok fs dir abn ps raw :
  (forall c wximage, LoadFile fs c = Some wximage -> int_sized wximage) ->
  (forall b a, abn !! b = Some a -> tag_image_ok a) ->
  map_Forall (fun _ image => tag_image_ok image) (pass_cache ps) ->
  map_Forall table_entry_ok (registered ps) ->
  map_Forall table_entry_ok (registered (register_tag_path fs dir abn ps raw)).
Proof.
  intros Hfs Habn Hmemo Hreg. unfold register_tag_path.
  destruct (is_nil _); [done|].
  destruct (parse_tag_image_format _) as [fmt|]; [|done].
  destruct (resolve_file_shape fs dir (strip_matching_quotes raw) ps Hfs Hmemo)
    as [_ Himage].
  pose proof (resolve_file_registered fs dir (strip_matching_quotes raw) ps) as Hsame.
  destruct (resolve_file _ _ _ _) as [file_it ps1]. cbn [fst snd] in *.
  rewrite <- Hsame in Hreg.
  destruct file_it as [image|]; [|by apply attachment_fallback_table_ok].
  destruct (format_eqb _ _); [|by apply attachment_fallback_table_ok].
  apply register_both_table_ok; [|done].
  by apply Himage.
Qed.

Lemma register_pass_table_ok fs dir abn paths ps :
  (forall c wximage, LoadFile fs c = Some wximage -> int_sized wximage) ->
  (forall b a, abn !! b = Some a -> tag_image_ok a) ->
  map_Forall (fun _ image => tag_image_ok image) (pass_cache ps) ->
  map_Forall table_entry_ok (registered ps) ->
  map_Forall table_entry_ok (registered (foldl (register_tag_path fs dir abn) ps paths)).
Proof.
  intros Hfs Habn. revert ps.
  induction paths as [|raw paths IH]; intros ps Hmemo Hreg; [done|].
  simpl. apply IH.
  - destruct (register_tag_path_cache fs dir abn ps raw) as [-> | ->]; [done|].
    by apply resolve_file_shape.
  - by apply register_tag_path_table_ok.
Qed.

(** A registration pass over a provider whose attachment and memoized
    images have the shape of a decoded image, on a file system whose
    images are [int_sized]: every entry it leaves in the engine's
    tag-image table was accepted by the engine under a non-empty key that
    is a trimmed string or its double-quoted form, and carries an image
    with positive dimensions, a stride of four bytes per pixel and exactly
    [stride * height] bytes of pixel data. *)
Theorem RegisterTagImages_table_entries fs engine st :
  tag_images_dirty st = true ->
  (forall c wximage, LoadFile fs c = Some wximage -> int_sized wximage) ->
  Forall tag_image_ok (attachment_tag_images st) ->
  map_Forall (fun _ image => tag_image_ok image) (file_tag_image_cache st) ->
  map_Forall table_entry_ok (engine_images (RegisterTagImages fs true true engine st)).
Proof.
  intros Hdirty Hfs Hok Hmemo. unfold RegisterTagImages.
  rewrite Hdirty. cbn [negb].
  pose proof (attachment_loop_table_ok (attachment_tag_images st) (∅, ∅) Hok
                (map_Forall_empty _)) as Hreg.
  assert (forall b a,
            (foldl attachment_step (∅, ∅) (attachment_tag_images st)).1 !! b = Some a ->
            tag_image_ok a) as Habn.
  { intros b a Hb.
    destruct (attachment_by_name_from_list (attachment_tag_images st)
                (attachment_tag_images st) (∅, ∅) b a) as [Hin _]; [done| |done|].
    - intros b' a' Hempty. cbn [fst] in Hempty. by rewrite lookup_empty in Hempty.
    - rewrite Forall_forall in Hok. by apply Hok. }
  destruct (foldl attachment_step _ _) as [abn reg]. cbn [fst snd] in *.
  cbn [engine_images]. by apply register_pass_table_ok.
Qed.

(** A registration pass that had a renderer leaves the provider clean: a
    later call, whatever the file system, the engine and the API then are,
    changes neither provider nor table and reads no file. *)
Theorem RegisterTagImages_once fs fs' have_tag_api have_renderer' have_tag_api' engine st :
  let r := RegisterTagImages fs true have_tag_api engine st in
  RegisterTagImages fs' have_renderer' have_tag_api' (engine_images r) (provider_after r)
  = mkRegisterResult (provider_after r) (engine_images r) [].
Proof.
  intros r.
  assert (tag_images_dirty (provider_after r) = false) as Hclean.
  { subst r. unfold RegisterTagImages.
    destruct (tag_images_dirty st) eqn:Hdirty; [|done]. cbn [negb].
    destruct have_tag_api; [|done]. cbn [negb].
    by destruct (foldl attachment_step _ _) as [abn reg]. }
  unfold RegisterTagImages at 1. by rewrite Hclean.
Qed.

(** *** A reference that resolves to a file *)

(** When the reference is not memoized and [decode_file_image] finds a
    file for it, the iteration memoizes the image under the path, with the
    resolved location as key, and registers it under the path and under
    that key; the format test of line 780 holds by construction and the
    attachments are not consulted.  The path itself is bound to the file
    image unless an earlier registration holds it or the engine refuses. *)
Theorem register_tag_path_file fs dir abn ps raw image resolved :
  let path := strip_matching_quotes raw in
  pass_cache ps !! path = None ->
  decode_file_image fs path dir = Some (image, resolved) ->
  let stored :=
    mkTagImage (if is_nil resolved then path else resolved) (basename_lower image)
      (format image) (width image) (height image) (stride image) (rgba image) in
  let ps' := register_tag_path fs dir abn ps raw in
  ps' = register_both path stored
          (mkPass (<[path := stored]> (pass_cache ps)) (registered ps)
             (fs_calls ps ++ [path]))
  /\ (registered ps !! path = None ->
      (0 <= ass_set_tag_image_rgba path (image_of stored))%Z ->
      registered ps' !! path = Some (image_of stored)).
Proof.
  intros path Hmiss Hdec stored ps'.
  destruct (decode_file_image_facts _ _ _ _ _ Hdec) as (_ & _ & Hfmt & _).
  destruct (parse_tag_image_format_back _ _ Hfmt) as (_ & _ & Hne).
  assert (ps' = register_both path stored
                  (mkPass (<[path := stored]> (pass_cache ps)) (registered ps)
                     (fs_calls ps ++ [path]))) as Heq.
  { subst ps'. unfold register_tag_path. fold path.
    rewrite (is_nil_false _ Hne), Hfmt. unfold resolve_file.
    rewrite Hmiss, Hdec. cbn [format]. by rewrite format_eqb_refl. }
  split; [done|]. intros Hfree Hacc. rewrite Heq. unfold register_both.
  cbn [registered]. apply register_path_variants_keeps.
  apply register_path_variants_fresh; try done.
  subst path. by eapply strip_matching_quotes_parsed.
Qed.

(** *** Attachments are registered under both key forms *)

Lemma add_double_quotes_inj a b : add_double_quotes a = add_double_quotes b -> a = b.
Proof.
  unfold add_double_quotes. intros [= H]. by apply app_inj_tail in H as [? _].
Qed.

Lemma add_double_quotes_neq k fmt x :
  parse_tag_image_format k = Some fmt -> add_double_quotes x ≠ k.
Proof. intros Hk Heq. by apply (parsed_not_double_quoted k fmt x). Qed.

Lemma register_path_variants_paired k fmt d reg :
  (forall k d, (0 <= ass_set_tag_image_rgba k d)%Z) ->
  parse_tag_image_format k = Some fmt -> trim_copy k = k ->
  paired reg ->
  paired (register_path_variants k d reg)
  /\ is_Some (register_path_variants k d reg !! k).
Proof.
  intros Hacc Hk Htrim Hpair.
  destruct (parse_tag_image_format_back _ _ Hk) as (_ & _ & Hne).
  unfold register_path_variants.
  rewrite (strip_matching_quotes_fixed k fmt Hk Htrim), (is_nil_false _ Hne).
  unfold register_key. rewrite (is_nil_false _ Hne).
  assert (is_nil (add_double_quotes k) = false) as -> by done.
  destruct (reg !! k) as [d0|] eqn:Hlook.
  - rewrite (Hpair k fmt Hk), Hlook. split; [done|]. by rewrite Hlook.
  - pose proof (Hacc k d) as Hk1. apply Z.leb_le in Hk1. rewrite Hk1.
    rewrite lookup_insert_ne by (intros Heq; by apply (add_double_quotes_neq k fmt k)).
    rewrite (Hpair k fmt Hk), Hlook.
    pose proof (Hacc (add_double_quotes k) d) as Hk2. apply Z.leb_le in Hk2.
    rewrite Hk2. split.
    + intros c fmt' Hc. destruct (decide (c = k)) as [->|Hck].
      * rewrite lookup_insert_eq.
        rewrite lookup_insert_ne by by apply (add_double_quotes_neq k fmt k).
        by rewrite lookup_insert_eq.
      * rewrite lookup_insert_ne by (intros Heq%add_double_quotes_inj; by subst).
        rewrite lookup_insert_ne
          by (intros Heq; by apply (add_double_quotes_neq k fmt c)).
        rewrite lookup_insert_ne by by apply (add_double_quotes_neq c fmt' k).
        rewrite lookup_insert_ne by by intros ->.
        by apply (Hpair c fmt').
    + rewrite lookup_insert_ne by by apply (add_double_quotes_neq k fmt k).
      rewrite lookup_insert_eq. by eexists.
Qed.

Lemma attachment_loop_keeps l acc k d :
  acc.2 !! k = Some d -> (foldl attachment_step acc l).2 !! k = Some d.
Proof.
  revert acc. induction l as [|a l IH]; intros acc Hk; [done|].
  simpl. apply IH. unfold attachment_step. cbn [snd].
  by apply register_path_variants_keeps.
Qed.

Lemma attachment_loop_paired l acc :
  (forall k d, (0 <= ass_set_tag_image_rgba k d)%Z) ->
  Forall wf_attachment l ->
  paired acc.2 ->
  paired (foldl attachment_step acc l).2
  /\ forall a, a ∈ l -> is_Some ((foldl attachment_step acc l).2 !! key a).
Proof.
  intros Hacc Hl. revert acc.
  induction Hl as [|a l (Hfmt & _ & Htrim) _ IH]; intros acc Hpair.
  - split; [done|]. by intros a Ha%elem_of_nil.
  - simpl.
    destruct (register_path_variants_paired (key a) (format a) (image_of a) acc.2
                Hacc Hfmt Htrim Hpair) as [Hpair' [d Hd]].
    destruct (IH (attachment_step acc a) Hpair') as [Hfinal Hall].
    split; [done|]. intros x Hx. apply elem_of_cons in Hx as [->|Hx]; [|by apply Hall].
    exists d. by apply attachment_loop_keeps.
Qed.

(** With an engine that accepts every registration, a pass binds the file
    name of every attachment image, bare and in double quotes, to the
    image of an attachment of that name. *)
Theorem RegisterTagImages_registers_attachments fs engine st a :
  reachable st ->
  tag_images_dirty st = true ->
  (forall k d, (0 <= ass_set_tag_image_rgba k d)%Z) ->
  a ∈ attachment_tag_images st ->
  let table := engine_images (RegisterTagImages fs true true engine st) in
  exists a', a' ∈ attachment_tag_images st /\ key a' = key a
    /\ table !! key a = Some (image_of a')
    /\ table !! add_double_quotes (key a) = Some (image_of a').
Proof.
  intros (Hwf & _)%reachable_ok Hdirty Hacc Ha table. subst table.
  unfold RegisterTagImages. rewrite Hdirty. cbn [negb].
  destruct (attachment_loop_paired (attachment_tag_images st) (∅, ∅) Hacc Hwf)
    as [Hpair Hall].
  { intros c fmt _. cbn [snd]. by rewrite !lookup_empty. }
  pose proof (attachment_loop_from (attachment_tag_images st) []
                (attachment_tag_images st) (∅, ∅)) as Hfrom.
  destruct (Hall a Ha) as [d Hd].
  destruct (foldl attachment_step _ _) as [abn reg]. cbn [fst snd] in *.
  cbn [engine_images].
  rewrite Forall_forall in Hwf. destruct (Hwf a Ha) as (Hfmt & _ & Htrim).
  assert (from_attachment (attachment_tag_images st) [] (key a) d)
    as (a' & Ha' & -> & Hkey).
  { apply (Hfrom (fun x Hx => Hx)); [|done].
    intros k' d' Hempty. by rewrite lookup_empty in Hempty. }
  destruct (Hwf a' Ha') as (Hfmt' & _ & Htrim').
  rewrite (strip_matching_quotes_fixed _ _ Hfmt' Htrim') in Hkey.
  assert (key a' = key a) as Hsame.
  { destruct Hkey as [[Hk|Hk]|(raw & []%elem_of_nil & _)]; [done|].
    exfalso. by apply (add_double_quotes_neq (key a) (format a) (key a')). }
  exists a'. split; [done|]. split; [done|]. split.
  - by apply register_pass_keeps.
  - apply register_pass_keeps. cbn [registered]. by rewrite (Hpair _ _ Hfmt).
Qed.

(** What a graphic attachment must look like for [decode_attachment_image]
    to accept it: the entry is a header line, a newline and a payload; the
    trimmed header starts with [filename:] in any letter case; the rest of
    the header, trimmed, is the non-empty file name, which becomes the key
    and determines format and lower-cased basename; the payload decodes to
    a non-empty buffer that loads as an image.  When that image is
    [int_sized], the result has the shape of a decoded image. *)
Theorem decode_attachment_image_spec attachment image :
  decode_attachment_image attachment = Some image ->
  exists header payload wximage,
    GetEntryData attachment = header ++ newline :: payload
    /\ (newline ∉ header)
    /\ to_lower_copy (take 9 (trim_copy header)) = chars "filename:"
    /\ key image = trim_copy (drop 9 (trim_copy header))
    /\ key image ≠ []
    /\ parse_tag_image_format (key image) = Some (format image)
    /\ basename_lower image = to_lower_copy (path_basename (key image))
    /\ UUDecode payload ≠ []
    /\ LoadStream (UUDecode payload) = Some wximage
    /\ (int_sized wximage -> tag_image_ok image).
Proof.
  intros Hdec.
  pose proof (decode_attachment_image_wf _ _ Hdec) as (Hfmt & Hbase & _).
  revert Hdec. unfold decode_attachment_image.
  destruct (list_find _ _) as [[i c]|] eqn:Hfind; [|done].
  apply list_find_Some in Hfind as (Hlook & -> & Hbefore).
  unfold substr. rewrite drop_0, Nat.add_1_r.
  set (header := take i (GetEntryData attachment)).
  set (payload := drop (S i) (GetEntryData attachment)).
  destruct (length (trim_copy header) <? 9); cbn [orb]; [done|].
  destruct (bool_decide _) eqn:Hname; cbn [negb]; [|done].
  apply bool_decide_eq_true in Hname.
  destruct (is_nil (trim_copy (drop 9 (trim_copy header)))) eqn:Hnil; [done|].
  destruct (parse_tag_image_format (trim_copy (drop 9 (trim_copy header))))
    as [fmt|]; [|done].
  destruct (is_nil (UUDecode payload)) eqn:Hpayload; [done|].
  destruct (LoadStream (UUDecode payload)) as [wximage|] eqn:Hload; [|done].
  destruct (decode_image_to_rgba _ _) as [out|] eqn:Hout; [|done].
  intros [= Himage]. exists header, payload, wximage.
  split; [symmetry; by apply take_drop_middle|].
  split.
  { intros Hin. apply list_elem_of_lookup in Hin as [j Hj].
    subst header. apply lookup_take_Some in Hj as [Hj Hlt].
    by apply (Hbefore j newline). }
  split; [done|].
  assert (key image = trim_copy (drop 9 (trim_copy header))) as Hkey
    by by rewrite <- Himage.
  split; [done|]. split; [rewrite Hkey; by destruct (trim_copy (drop 9 _))|].
  split; [done|]. split; [done|].
  split; [by destruct (UUDecode payload)|]. split; [done|].
  intros Hsized. rewrite <- Himage. apply tag_image_ok_fields.
  by apply (decode_image_to_rgba_ok _ _ _ Hsized Hout).
Qed.

End ProviderFacts.

(** ** Worked examples in the concrete environment *)

Section ProviderExamples.
Import Text Extractor Provider.

(** The spec's scenario run through [PrepareSubtitles], [LoadSubtitles]
    and [RegisterTagImages]: the attachment is registered for the bare
    and for the relative reference, not for the absolute one. *)
Example RegisterTagImages_fallback_example :
  let r := @RegisterTagImages example_wx example_engine empty_fs true true ∅
             example_provider in
  attachment_tag_images example_provider = [example_attachment]
  /\ engine_images r !! chars "foo.png" = Some (image_of example_attachment)
  /\ engine_images r !! chars "sub/foo.png" = Some (image_of example_attachment)
  /\ engine_images r !! chars "/abs/other/foo.png" = None
  /\ tag_images_dirty (provider_after r) = false.
Proof. vm_compute. repeat split; reflexivity. Qed.

Lemma register_tag_path_attachment_fallback_witness :
  registered
    (@register_tag_path example_wx example_engine empty_fs []
       {[ chars "foo.png" := example_attachment ]} (mkPass ∅ ∅ [])
       (chars "sub/foo.png")) !! chars "sub/foo.png"
  = Some (image_of example_attachment)
  /\ registered
       (@register_tag_path example_wx example_engine empty_fs []
          {[ chars "foo.png" := example_attachment ]} (mkPass ∅ ∅ [])
          (chars "/abs/other/foo.png"))
     = ∅.
Proof.
  assert (wf_attachment example_attachment) as Hwf by (repeat split; reflexivity).
  split.
  - assert (strip_matching_quotes (chars "sub/foo.png") ≠ []) as Hne
      by (intros H; vm_compute in H; discriminate H).
    pose proof (@register_tag_path_attachment_fallback example_wx example_engine
                  empty_fs [] {[ chars "foo.png" := example_attachment ]}
                  (mkPass ∅ ∅ []) (chars "sub/foo.png") ASS_TAG_IMAGE_FORMAT_PNG
                  Hne eq_refl eq_refl eq_refl) as [Hrel _].
    destruct (Hrel eq_refl example_attachment eq_refl eq_refl Hwf)
      as (_ & _ & Hfresh & _).
    apply Hfresh; [reflexivity|]. vm_compute. discriminate.
  - assert (strip_matching_quotes (chars "/abs/other/foo.png") ≠ []) as Hne
      by (intros H; vm_compute in H; discriminate H).
    pose proof (@register_tag_path_attachment_fallback example_wx example_engine
                  empty_fs [] {[ chars "foo.png" := example_attachment ]}
                  (mkPass ∅ ∅ []) (chars "/abs/other/foo.png")
                  ASS_TAG_IMAGE_FORMAT_PNG Hne eq_refl eq_refl eq_refl) as [_ Habs].
    apply Habs. reflexivity.
Defined.



(** Memoization on a concrete file system: the first resolution of
    [foo.png] in directory [/d] decodes [/d/foo.png] and logs one call; the
    second, made after the file has disappeared, returns the same image and
    logs nothing. *)
Example resolve_file_memo_example :
  let image := mkTagImage (chars "/d/foo.png") (chars "foo.png")
                 ASS_TAG_IMAGE_FORMAT_PNG 1 1 4 [1; 2; 3; 4]%Z in
  let first := @resolve_file example_wx example_fs (chars "/d")
                 (chars "foo.png") (mkPass ∅ ∅ []) in
  first.1 = Some image
  /\ fs_calls first.2 = [chars "foo.png"]
  /\ @resolve_file example_wx empty_fs (chars "/d") (chars "foo.png")
       first.2 = (Some image, first.2).
Proof. vm_compute. repeat split; reflexivity. Qed.


Lemma example_fs_int_sized c wximage :
  @LoadFile example_wx example_fs c = Some wximage -> int_sized wximage.
Proof.
  unfold example_fs. cbn [LoadFile]. destruct (bool_decide _); [|done].
  intros [= <-]. unfold int_sized. simpl. lia.
Qed.

Lemma decode_image_to_rgba_spec_witness :
  tag_image_ok
    (mkTagImage (chars "k") (chars "b") ASS_TAG_IMAGE_FORMAT_PNG 1 1 4 [1; 2; 3; 4]%Z)
  /\ rgba (mkTagImage (chars "k") (chars "b") ASS_TAG_IMAGE_FORMAT_PNG 1 1 4
             [1; 2; 3; 4]%Z) !! 3 = Some 4%Z.
Proof.
  assert (int_sized (mkWxImage true 1 1 (Some [1; 2; 3]%Z) (Some [4]%Z))) as Hsized.
  { unfold int_sized. simpl. lia. }
  destruct (decode_image_to_rgba_spec
              (mkWxImage true 1 1 (Some [1; 2; 3]%Z) (Some [4]%Z))
              (mkTagImage (chars "k") (chars "b") ASS_TAG_IMAGE_FORMAT_PNG 0 0 0 [])
              Hsized) as [_ Hsome].
  destruct (Hsome (mkTagImage (chars "k") (chars "b") ASS_TAG_IMAGE_FORMAT_PNG 1 1 4
                     [1; 2; 3; 4]%Z) eq_refl)
    as (_ & _ & _ & _ & _ & Hok & _ & rgb & Hrgb & Hpix).
  split; [exact Hok|].
  injection Hrgb as <-.
  destruct (Hpix 0) as (_ & _ & _ & Halpha); [simpl; lia|exact Halpha].
Defined.

Lemma decode_file_image_success_witness :
  tag_image_ok
    (mkTagImage (chars "foo.png") (chars "foo.png") ASS_TAG_IMAGE_FORMAT_PNG 1 1 4
       [1; 2; 3; 4]%Z)
  /\ exists c, chars "/d/foo.png" = @utf8_str example_wx c
       /\ is_Some (@LoadFile example_wx example_fs c).
Proof.
  assert (@decode_file_image example_wx example_fs (chars "foo.png") (chars "/d")
          = Some (mkTagImage (chars "foo.png") (chars "foo.png")
                    ASS_TAG_IMAGE_FORMAT_PNG 1 1 4 [1; 2; 3; 4]%Z,
                  chars "/d/foo.png")) as Hdec by (vm_compute; reflexivity).
  destruct (@decode_file_image_success example_wx example_fs _ _ _ _ Hdec)
    as (_ & _ & _ & c & wximage & Hres & Hload & Hok & _).
  split.
  - apply Hok. apply (example_fs_int_sized c). exact Hload.
  - exists c. split; [exact Hres|]. rewrite Hload. by eexists.
Defined.

Lemma decode_file_image_first_loadable_witness :
  @decode_file_image example_wx broken_fs (chars "foo.png") (chars "/d") = None.
Proof.
  apply (@decode_file_image_first_loadable example_wx broken_fs (chars "foo.png")
           (chars "/d") ASS_TAG_IMAGE_FORMAT_PNG [] (chars "/d/foo.png")
           [chars "foo.png"] (mkWxImage false 0 0 None None)).
  - reflexivity.
  - vm_compute. reflexivity.
  - constructor.
  - reflexivity.
  - reflexivity.
Defined.

Lemma provider_invariant_witness :
  @provider_ok example_wx example_engine example_provider.
Proof.
  apply (@provider_invariant example_wx example_engine).
  exact (@reachable_load example_wx example_engine example_script _
           (@reachable_prepare example_wx example_engine example_subs _
              (@reachable_new example_wx example_engine))).
Defined.

Lemma RegisterTagImages_table_entries_witness :
  map_Forall (@table_entry_ok example_engine)
    (engine_images
       (@RegisterTagImages example_wx example_engine example_fs true true ∅
          example_provider)).
Proof.
  apply (@RegisterTagImages_table_entries example_wx example_engine).
  - reflexivity.
  - apply example_fs_int_sized.
  - assert (@attachment_tag_images example_wx example_engine example_provider
            = [example_attachment]) as Heq by (vm_compute; reflexivity).
    rewrite Heq. repeat constructor.
  - assert (@file_tag_image_cache example_wx example_engine example_provider = ∅)
      as Heq by (vm_compute; reflexivity).
    rewrite Heq. apply map_Forall_empty.
Defined.

Lemma register_tag_path_file_witness :
  registered
    (@register_tag_path example_wx example_engine example_fs (chars "/d") ∅
       (mkPass ∅ ∅ []) (chars "foo.png")) !! chars "foo.png"
  = Some (mkImageData ASS_TAG_IMAGE_FORMAT_PNG 1 1 4 [1; 2; 3; 4]%Z).
Proof.
  assert (@decode_file_image example_wx example_fs
            (strip_matching_quotes (chars "foo.png")) (chars "/d")
          = Some (mkTagImage (chars "foo.png") (chars "foo.png")
                    ASS_TAG_IMAGE_FORMAT_PNG 1 1 4 [1; 2; 3; 4]%Z,
                  chars "/d/foo.png")) as Hdec by (vm_compute; reflexivity).
  destruct (@register_tag_path_file example_wx example_engine example_fs (chars "/d") ∅
              (mkPass ∅ ∅ []) (chars "foo.png") _ _ (lookup_empty _) Hdec) as [_ H].
  apply H.
  - apply lookup_empty.
  - vm_compute. discriminate.
Defined.

Lemma RegisterTagImages_registers_attachments_witness :
  engine_images
    (@RegisterTagImages example_wx example_engine empty_fs true true ∅ example_provider)
    !! add_double_quotes (chars "foo.png")
  = Some (image_of example_attachment).
Proof.
  destruct (@RegisterTagImages_registers_attachments example_wx example_engine
              empty_fs ∅ example_provider example_attachment)
    as (a' & Ha' & _ & _ & Hquoted).
  - exact (@reachable_load example_wx example_engine example_script _
             (@reachable_prepare example_wx example_engine example_subs _
                (@reachable_new example_wx example_engine))).
  - reflexivity.
  - intros k d. vm_compute. discriminate.
  - apply list_elem_of_here.
  - apply list_elem_of_singleton in Ha'. subst a'. exact Hquoted.
Defined.

Lemma decode_attachment_image_spec_witness :
  key example_attachment = chars "foo.png" /\ tag_image_ok example_attachment.
Proof.
  assert (@decode_attachment_image example_wx
            (mkAttachment GRAPHIC
               (chars "filename: foo.png" ++ newline :: chars "payload"))
          = Some example_attachment) as Hdec by (vm_compute; reflexivity).
  destruct (@decode_attachment_image_spec example_wx _ _ Hdec)
    as (header & payload & wximage & _ & _ & _ & _ & _ & _ & _ & _ & Hload & Hok).
  split; [reflexivity|]. apply Hok.
  injection Hload as <-. unfold int_sized. simpl. lia.
Defined.

End ProviderExamples.

(** ** Loading the shared library *)

Section LoaderFacts.
Import Loader.
Context {Handle Symbol Library : Type}.
Implicit Types (env : DynEnv Handle Symbol Library) (g : globals Handle Symbol Library).

Lemma open_first_Some env names h :
  open_first env names = Some h <->
  exists pre name rest, names = pre ++ name :: rest
    /\ Forall (fun n => dlopen env n = None) pre /\ dlopen env name = Some h.
Proof.
  split.
  - induction names as [|n names IH]; simpl; [done|].
    destruct (dlopen env n) as [h'|] eqn:Hn.
    + intros [= ->]. by exists [], n, names.
    + intros (pre & name & rest & -> & Hpre & Hname)%IH.
      exists (n :: pre), name, rest. split; [done|]. split; [by constructor|done].
  - intros (pre & name & rest & -> & Hpre & Hname).
    induction Hpre as [|n pre Hn _ IH]; simpl.
    + by rewrite Hname.
    + by rewrite Hn.
Qed.

Lemma open_first_None env names :
  open_first env names = None <-> Forall (fun n => dlopen env n = None) names.
Proof.
  induction names as [|n names IH]; simpl.
  - split; [by constructor|done].
  - destruct (dlopen env n) as [h'|] eqn:Hn.
    + split; [done|]. intros H. apply Forall_inv in H. congruence.
    + rewrite IH. split; [by constructor|]. intros H. by apply Forall_inv_tail in H.
Qed.

Lemma LoadSymbols_spec env h names (members : gmap string Symbol) :
  match LoadSymbols env h names members with
  | (members', None) =>
      Forall (fun n => is_Some (dlsym env h n)) names
      /\ forall n, members' !! n
                   = if bool_decide (n ∈ names) then dlsym env h n else members !! n
  | (members', Some missing) =>
      exists ok name more, names = ok ++ name :: more
        /\ Forall (fun n => is_Some (dlsym env h n)) ok
        /\ dlsym env h name = None
        /\ missing = ("Missing libassmod symbol: " ++ name)%string
  end.
Proof.
  revert members. induction names as [|x names IH]; intros members; simpl.
  - split; [by constructor|]. intros n. done.
  - destruct (dlsym env h x) as [sym|] eqn:Hx.
    + specialize (IH (<[x := sym]> members)).
      destruct (LoadSymbols env h names (<[x := sym]> members)) as [members' [missing|]].
      * destruct IH as (ok & name & more & -> & Hok & Hname & ->).
        exists (x :: ok), name, more. split; [done|].
        split; [constructor; [by rewrite Hx|done]|]. done.
      * destruct IH as [Hall Hlook]. split; [constructor; [by rewrite Hx|done]|].
        intros n. rewrite Hlook. destruct (decide (n = x)) as [->|Hne].
        -- rewrite (bool_decide_eq_true_2 (x ∈ x :: names)) by by left.
           rewrite lookup_insert_eq. by destruct (bool_decide _).
        -- rewrite lookup_insert_ne by done.
           assert (bool_decide (n ∈ x :: names) = bool_decide (n ∈ names)) as ->; [|done].
           apply bool_decide_ext. rewrite elem_of_cons.
           split; [by intros [?|?]|by right].
    + exists [], x, names. by repeat split.
Qed.

Lemma LoadSymbols_first_missing env h ok name more (members : gmap string Symbol) :
  Forall (fun n => is_Some (dlsym env h n)) ok ->
  dlsym env h name = None ->
  exists members',
    LoadSymbols env h (ok ++ name :: more) members
    = (members', Some ("Missing libassmod symbol: " ++ name)%string).
Proof.
  intros Hok Hname. revert members.
  induction Hok as [|x ok [sym Hx] _ IH]; intros members; simpl.
  - rewrite Hname. by eexists.
  - rewrite Hx. apply IH.
Qed.

Lemma LoadSymbols_all env h names (members : gmap string Symbol) :
  Forall (fun n => is_Some (dlsym env h n)) names ->
  exists members', LoadSymbols env h names members = (members', None).
Proof.
  intros Hall. revert members.
  induction Hall as [|x names [sym Hx] _ IH]; intros members; simpl.
  - by eexists.
  - rewrite Hx. apply IH.
Qed.

Lemma LoadOptionalSymbol_lookup env h (members : gmap string Symbol) name n :
  LoadOptionalSymbol env h members name !! n
  = if decide (n = name) then dlsym env h name else members !! n.
Proof.
  unfold LoadOptionalSymbol.
  destruct (decide (n = name)) as [->|Hne], (dlsym env h name) as [sym|].
  - apply lookup_insert_eq.
  - apply lookup_delete_eq.
  - by apply lookup_insert_ne.
  - by apply lookup_delete_ne.
Qed.

Lemma optional_members_lookup env h names (members : gmap string Symbol) n :
  foldl (LoadOptionalSymbol env h) members names !! n
  = if bool_decide (n ∈ names) then dlsym env h n else members !! n.
Proof.
  revert members. induction names as [|x names IH]; intros members; simpl; [done|].
  rewrite IH, LoadOptionalSymbol_lookup. destruct (decide (n = x)) as [->|Hne].
  - rewrite (bool_decide_eq_true_2 (x ∈ x :: names)) by by left.
    by destruct (bool_decide _).
  - assert (bool_decide (n ∈ x :: names) = bool_decide (n ∈ names)) as ->; [|done].
    apply bool_decide_ext. rewrite elem_of_cons.
           split; [by intros [?|?]|by right].
Qed.

Lemma required_not_optional n : n ∈ required_symbols -> n ∉ optional_symbols.
Proof.
  intros Hreq Hopt. unfold required_symbols, optional_symbols in *.
  repeat (apply elem_of_cons in Hopt as [->|Hopt];
          [repeat (apply elem_of_cons in Hreq as [Hreq|Hreq]; [discriminate Hreq|]);
           by apply elem_of_nil in Hreq|]).
  by apply elem_of_nil in Hopt.
Qed.

(** What [LoadLibassModApi] does once a library has opened. *)
Lemma LoadLibassModApi_opened p env g error h :
  open_first env (kLibassmodNames p) = Some h ->
  Forall (fun n => is_Some (dlsym env h n)) required_symbols ->
  exists members,
    (forall n, n ∈ required_symbols ++ optional_symbols ->
       members !! n = dlsym env h n)
    /\ LoadLibassModApi p env g error
       = match dlsym env h "ass_library_init"%string ≫= call_library_init env with
         | Some lib =>
             (mkGlobals (mkApi (Some h) members) (api_loaded g) (api_error g)
                (api_once g) (Some lib), error, true)
         | None =>
             (mkGlobals (mkApi None members) (api_loaded g) (api_error g)
                (api_once g) None, "libassmod initialization failed."%string, false)
         end.
Proof.
  intros Hopen Hall. unfold LoadLibassModApi. rewrite Hopen.
  pose proof (LoadSymbols_spec env h required_symbols (symbols (api g))) as Hspec.
  destruct (LoadSymbols_all env h required_symbols (symbols (api g)) Hall)
    as [members Hload].
  rewrite Hload in *. destruct Hspec as [_ Hlook]. cbv zeta.
  set (members' := foldl (LoadOptionalSymbol env h) members optional_symbols).
  assert (forall n, n ∈ required_symbols ++ optional_symbols ->
            members' !! n = dlsym env h n) as Hall'.
  { intros n Hn. subst members'. rewrite optional_members_lookup.
    destruct (bool_decide (n ∈ optional_symbols)) eqn:Hopt; [done|].
    apply bool_decide_eq_false in Hopt. rewrite Hlook.
    apply elem_of_app in Hn as [Hn|Hn]; [|done].
    by rewrite bool_decide_eq_true_2. }
  exists members'. split; [done|].
  rewrite (Hall' "ass_library_init"%string) by (apply elem_of_app; left; by left).
  by destruct (dlsym env h "ass_library_init" ≫= call_library_init env).
Qed.

(** [EnsureLibassMod] succeeds exactly when one of the library names
    opens, the first library that opens has every required symbol, and its
    [ass_library_init] returns a library; libraries after the first one
    that opens are never tried, and the optional tag-image symbols play no
    role. *)
Theorem EnsureLibassMod_available_iff p env g :
  api_once g = false ->
  (EnsureLibassMod p env g).1.2 = true
  <-> exists pre name rest h lib,
        kLibassmodNames p = pre ++ name :: rest
        /\ Forall (fun n => dlopen env n = None) pre
        /\ dlopen env name = Some h
        /\ Forall (fun n => is_Some (dlsym env h n)) required_symbols
        /\ dlsym env h "ass_library_init"%string ≫= call_library_init env = Some lib.
Proof.
  intros Honce. unfold EnsureLibassMod. rewrite Honce. split.
  - destruct (open_first env (kLibassmodNames p)) as [h|] eqn:Hopen.
    2:{ unfold LoadLibassModApi. rewrite Hopen. done. }
    pose proof (LoadSymbols_spec env h required_symbols (symbols (api g))) as Hspec.
    destruct (LoadSymbols env h required_symbols (symbols (api g)))
      as [members [missing|]] eqn:Hload.
    { unfold LoadLibassModApi. rewrite Hopen, Hload. done. }
    destruct Hspec as [Hall _].
    destruct (LoadLibassModApi_opened p env g (api_error g) h Hopen Hall)
      as (members' & _ & ->).
    apply open_first_Some in Hopen as (pre & name & rest & Hnames & Hpre & Hname).
    destruct (dlsym env h "ass_library_init" ≫= call_library_init env) as [lib|] eqn:Hlib;
      [|done].
    intros _. by exists pre, name, rest, h, lib.
  - intros (pre & name & rest & h & lib & Hnames & Hpre & Hname & Hall & Hlib).
    assert (open_first env (kLibassmodNames p) = Some h) as Hopen.
    { apply open_first_Some. by exists pre, name, rest. }
    destruct (LoadLibassModApi_opened p env g (api_error g) h Hopen Hall)
      as (members' & _ & ->).
    by rewrite Hlib.
Qed.

(** After a successful [EnsureLibassMod] the handle is the library that
    opened, every required and optional member holds what the symbol
    lookup in that library returned, the library object is the one
    [ass_library_init] gave, and the tag-image API is present exactly when
    both optional symbols are. *)
Theorem EnsureLibassMod_loaded p env g :
  api_once g = false ->
  (EnsureLibassMod p env g).1.2 = true ->
  let g' := (EnsureLibassMod p env g).1.1 in
  exists h lib,
    handle (api g') = Some h
    /\ (exists name, name ∈ kLibassmodNames p /\ dlopen env name = Some h)
    /\ (forall n, n ∈ required_symbols ++ optional_symbols ->
          symbols (api g') !! n = dlsym env h n)
    /\ library g' = Some lib
    /\ dlsym env h "ass_library_init"%string ≫= call_library_init env = Some lib
    /\ api_loaded g' = true /\ api_once g' = true /\ api_error g' = api_error g
    /\ (EnsureLibassMod p env g).2 = None
    /\ have_tag_api g'
       = bool_decide (is_Some (dlsym env h "ass_clear_tag_images"%string))
         && bool_decide (is_Some (dlsym env h "ass_set_tag_image_rgba"%string)).
Proof.
  intros Honce. unfold EnsureLibassMod. rewrite Honce.
  destruct (open_first env (kLibassmodNames p)) as [h|] eqn:Hopen.
  2:{ unfold LoadLibassModApi. rewrite Hopen. done. }
  pose proof (LoadSymbols_spec env h required_symbols (symbols (api g))) as Hspec.
  destruct (LoadSymbols env h required_symbols (symbols (api g)))
    as [members [missing|]] eqn:Hload.
  { unfold LoadLibassModApi. rewrite Hopen, Hload. done. }
  destruct Hspec as [Hall _].
  destruct (LoadLibassModApi_opened p env g (api_error g) h Hopen Hall)
    as (members' & Hmembers & ->).
  destruct (dlsym env h "ass_library_init" ≫= call_library_init env) as [lib|] eqn:Hlib;
    [|done].
  intros _. cbn [fst snd api_loaded api handle symbols library api_once api_error].
  exists h, lib. split; [done|]. split.
  { apply open_first_Some in Hopen as (pre & name & rest & Hnames & _ & Hname).
    exists name. split; [|done]. rewrite Hnames. apply elem_of_app. right. by left. }
  split; [done|]. do 6 (split; [done|]).
  unfold have_tag_api. cbn [api symbols].
  rewrite !Hmembers; [done| |].
  - apply elem_of_app. right. right. by left.
  - apply elem_of_app. right. by left.
Qed.

(** The three ways [EnsureLibassMod] fails.  No library name opens: the
    platform's message.  The first library that opens lacks a required
    symbol: the message names the first missing symbol of the chain, and
    no further library name is tried.  [ass_library_init] returns null: the
    initialization message.  Each time the handle is closed again. *)
Theorem EnsureLibassMod_failure p env g :
  api_once g = false ->
  let r := EnsureLibassMod p env g in
  (Forall (fun n => dlopen env n = None) (kLibassmodNames p) ->
   r.1.2 = false /\ r.2 = Some (could_not_load p) /\ handle (api r.1.1) = None)
  /\ (forall pre name rest h ok missing more,
        kLibassmodNames p = pre ++ name :: rest ->
        Forall (fun n => dlopen env n = None) pre ->
        dlopen env name = Some h ->
        required_symbols = ok ++ missing :: more ->
        Forall (fun n => is_Some (dlsym env h n)) ok ->
        dlsym env h missing = None ->
        r.1.2 = false
        /\ r.2 = Some ("Missing libassmod symbol: " ++ missing)%string
        /\ handle (api r.1.1) = None)
  /\ (forall pre name rest h,
        kLibassmodNames p = pre ++ name :: rest ->
        Forall (fun n => dlopen env n = None) pre ->
        dlopen env name = Some h ->
        Forall (fun n => is_Some (dlsym env h n)) required_symbols ->
        dlsym env h "ass_library_init"%string ≫= call_library_init env = None ->
        r.1.2 = false
        /\ r.2 = Some "libassmod initialization failed."%string
        /\ handle (api r.1.1) = None /\ library r.1.1 = None).
Proof.
  intros Honce r. subst r. unfold EnsureLibassMod. rewrite Honce.
  split; [|split].
  - intros Hnone%open_first_None. unfold LoadLibassModApi. by rewrite Hnone.
  - intros pre name rest h ok missing more Hnames Hpre Hname Hreq Hok Hmissing.
    assert (open_first env (kLibassmodNames p) = Some h) as Hopen.
    { apply open_first_Some. by exists pre, name, rest. }
    unfold LoadLibassModApi. rewrite Hopen, Hreq.
    destruct (LoadSymbols_first_missing env h ok missing more (symbols (api g))
                Hok Hmissing) as [members ->].
    done.
  - intros pre name rest h Hnames Hpre Hname Hall Hlib.
    assert (open_first env (kLibassmodNames p) = Some h) as Hopen.
    { apply open_first_Some. by exists pre, name, rest. }
    destruct (LoadLibassModApi_opened p env g (api_error g) h Hopen Hall)
      as (members' & _ & ->).
    by rewrite Hlib.
Qed.

(** The load is attempted once: whatever a first call to
    [EnsureLibassMod] found, a later call returns the same answer and
    leaves the globals alone, even if the libraries on the system have
    changed in between.  A failed load is never retried. *)
Theorem EnsureLibassMod_once p env env' g :
  let r := EnsureLibassMod p env g in
  EnsureLibassMod p env' r.1.1 = r.
Proof.
  unfold EnsureLibassMod. destruct (api_once g) eqn:Honce.
  - cbn [fst snd]. by rewrite Honce.
  - by destruct (LoadLibassModApi p env g (api_error g)) as [[g' error] loaded].
Qed.

End LoaderFacts.

Section LoaderExamples.
Import Loader.

Lemma EnsureLibassMod_available_iff_witness :
  (EnsureLibassMod Other example_dyn initial_globals).1.2 = true.
Proof.
  apply (EnsureLibassMod_available_iff Other example_dyn initial_globals eq_refl).
  exists ["libassmod.so"%string], "libass.so"%string, [], tt, tt.
  split; [reflexivity|]. split; [by repeat constructor|]. split; [reflexivity|].
  split; [|reflexivity].
  unfold required_symbols. repeat constructor; by eexists.
Defined.

Lemma EnsureLibassMod_loaded_witness :
  have_tag_api (EnsureLibassMod Other example_dyn initial_globals).1.1 = true.
Proof.
  destruct (EnsureLibassMod_loaded Other example_dyn initial_globals eq_refl eq_refl)
    as (h & lib & _ & _ & _ & _ & _ & _ & _ & _ & _ & ->).
  reflexivity.
Defined.

Lemma EnsureLibassMod_failure_witness :
  (EnsureLibassMod Other empty_dyn initial_globals).2
  = Some "Could not load libassmod (tried libassmod and libass shared library names)."%string.
Proof.
  destruct (EnsureLibassMod_failure Other empty_dyn initial_globals eq_refl)
    as [H _].
  apply H. by repeat constructor.
Defined.

End LoaderExamples.
